(** * InvalidationGame: a shallow embedding of the simulation engine

    The engine of [invalidationgame.py] is embedded function by function:
    endowment assignment ([calc_hashpower]), the rewind pre-population
    ([setup_block_rewind]), the mining round ([mine_block]), the distance
    tracker ([calc_distance]), the run driver ([run_simulation]), the batch
    aggregation ([calc_averages]) and the analytic catch-up probability
    ([attacker_success_probability]).

    Conventions of the embedding.
    - Python integers are [Z] where they are identifiers or configuration
      values, [nat] where they are lengths and counters that start at zero
      and are only incremented.
    - A Python float is the rational ([Q]) it stands for. Where the
      program's float arithmetic decides a result, in the ticket counts
      and in the reported means, every operation is followed by the
      rounding to the nearest double ([py_float]). The hash counts, for
      which this changes nothing, and the sums of [sanity_check] are
      computed exactly; the catch-up probability is computed over the
      reals ([R]).
    - The random source is an explicit input: every call of the [random]
      module reads its value from a tape that the caller supplies.
    - [exit] and raised exceptions are values of the type [exn]. *)

From Stdlib Require Import ZArith QArith Qround Qabs Qpower Reals Lra Lia.
From Stdlib Require Import Ascii String DecimalString DecimalNat.
From Stdlib Require Lqa.
From stdpp Require Import gmap strings list fin_maps.

(** ** Exceptions and results *)

(** The ways a call can end other than by returning. [SystemExit c] is
    [exit(c)]. *)
Inductive exn : Type :=
| ValueError
| KeyError
| IndexError
| ZeroDivisionError
| StatisticsError
| SystemExit (code : Z).

(** [Ok a]: the call returned [a]. [Raise e]: it ended with [e].
    [OutOfTape]: the random tape given to the embedding ended before the
    call could finish (the program would have drawn again). *)
Inductive result (A : Type) : Type :=
| Ok (a : A)
| Raise (e : exn)
| OutOfTape.

Arguments Ok {A} a.
Arguments Raise {A} e.
Arguments OutOfTape {A}.

(** Sequencing: the first call that does not return ends the whole. *)
#[global] Instance result_ret : MRet result := fun A a => Ok a.

#[global] Instance result_bind : MBind result := fun A B k r =>
  match r with
  | Ok a => k a
  | Raise e => Raise e
  | OutOfTape => OutOfTape
  end.

(** ** Strings *)

(** [str(n)] for a non-negative integer and [str(z)] for any integer. *)
Definition py_str (n : nat) : string :=
  NilEmpty.string_of_uint (Nat.to_uint n).

Definition py_str_Z (z : Z) : string :=
  NilEmpty.string_of_int (Z.to_int z).

(** [s.zfill(width)] on a string of digits: zeros are added on the left. *)
Fixpoint zeros (n : nat) : string :=
  match n with
  | O => EmptyString
  | S n' => String "0" (zeros n')
  end.

Definition zfill (width : nat) (s : string) : string :=
  (zeros (width - String.length s) ++ s)%string.

(** [s1 > s2] on strings: code points are compared from the left. *)
Definition str_gt (s1 s2 : string) : bool :=
  match String.compare s1 s2 with
  | Gt => true
  | _ => false
  end.

(** The integer a string of digits denotes; leading zeros do not count.
    It reads back the keys of the [chain] dictionaries. *)
Definition key_height (s : string) : nat :=
  match NilEmpty.uint_of_string s with
  | Some d => Nat.of_uint d
  | None => 0
  end.

(** ** Numbers *)

(** [round(x)]: to the nearest integer, halves to the even one. *)
Definition py_round (x : Q) : Z :=
  let f := Qfloor x in
  match Qcompare (x - inject_Z f) (1 # 2) with
  | Lt => f
  | Gt => (f + 1)%Z
  | Eq => if Z.even f then f else (f + 1)%Z
  end.

(** The decimal with [ndigits >= 0] places nearest to [x], halves to the
    even one. *)
Definition py_round_to (ndigits : nat) (x : Q) : Q :=
  let scale := inject_Z (10 ^ Z.of_nat ndigits) in
  (inject_Z (py_round (x * scale)) / scale)%Q.

(** ** Floats

    A float is modelled by the rational it stands for. [py_float x] is
    the double nearest to [x], ties to the even significand, subnormal
    numbers included: what [float] makes of a decimal or of a fraction,
    and what every arithmetic operation makes of its exact result. The
    values met here are far from overflow, which is left out. *)

(** [floor(log2(a))] for a positive [a]. *)
Definition binade (a : Q) : Z :=
  let c := (Z.log2 (Qnum a) - Z.log2 (Zpos (Qden a)))%Z in
  if Qle_bool (Qpower 2 c) a then c else (c - 1)%Z.

Definition py_float (x : Q) : Q :=
  if Qeq_bool x 0 then 0%Q
  else
    let a := Qabs x in
    let q := Z.max (binade a - 52) (-1074) in
    let y := Qred (inject_Z (py_round (a / Qpower 2 q)) * Qpower 2 q) in
    if Qle_bool 0 x then y else Qred (- y).

(** [round(x, ndigits)] for a float [x]: the decimal nearest to the exact
    value of [x], as the nearest double. *)
Definition float_round (ndigits : nat) (x : Q) : Q :=
  py_float (py_round_to ndigits x).

Arguments binade : simpl never.
Arguments py_float : simpl never.
Arguments float_round : simpl never.

(** A number that is an [int] or a [float]; [round(v, ndigits)] leaves an
    [int] as it is. *)
Inductive number : Type :=
| Int (z : Z)
| Float (x : Q).

Definition number_value (v : number) : Q :=
  match v with
  | Int z => inject_Z z
  | Float x => x
  end.

Definition number_round (ndigits : nat) (v : number) : number :=
  match v with
  | Int z => Int z
  | Float x => Float (float_round ndigits x)
  end.

(** [range(lo, hi)]; [range(n)] is [py_range 0 n]. *)
Fixpoint range_from (lo : Z) (n : nat) : list Z :=
  match n with
  | O => []
  | S n' => lo :: range_from (lo + 1) n'
  end.

Definition py_range (lo hi : Z) : list Z :=
  range_from lo (Z.to_nat (hi - lo)).

(** ** The random source *)

(** One call of the generator reads raw values from a stream. *)
Definition stream : Type := nat -> nat.

(** The selection loop of [random.sample]: [k] times, one element of the
    remaining pool is chosen by the next raw value and taken out. *)
Fixpoint sample_pick {A : Type} (pool : list A) (k : nat) (rnd : stream)
    (i : nat) : list A :=
  match k with
  | O => []
  | S k' =>
      let j := (rnd i mod length pool)%nat in
      match pool !! j with
      | None => []
      | Some x => x :: sample_pick (delete j pool) k' rnd (S i)
      end
  end.

(** [random.sample(population, k)]: [ValueError] unless
    [0 <= k <= len(population)]. *)
Definition random_sample {A : Type} (population : list A) (k : Z)
    (rnd : stream) : result (list A) :=
  if ((k <? 0) || (Z.of_nat (length population) <? k))%Z
  then Raise ValueError
  else Ok (sample_pick population (Z.to_nat k) rnd 0).

(** [random.choice(range(n))] from one raw value: [IndexError] on an
    empty range. *)
Definition random_choice_range (n : Z) (raw : nat) : result Z :=
  if (n <=? 0)%Z then Raise IndexError
  else Ok (Z.of_nat raw mod n)%Z.

(** ** Configuration *)

(** The module-level globals that [read_config] may overwrite. *)
Record config : Type := {
  block_hash_space : Z;
  pos_avg_ticket_pool_size : Z;
  pos_blocks_with_5votes : Z;
  pos_blocks_with_4votes : Z;
  pos_blocks_with_3votes : Z
}.

Definition default_config : config := {|
  block_hash_space := 10000;
  pos_avg_ticket_pool_size := 40960;
  pos_blocks_with_5votes := 401716;
  pos_blocks_with_4votes := 22561;
  pos_blocks_with_3votes := 5617
|}.

Definition pos_blocks_with_votes (cfg : config) : Z :=
  (pos_blocks_with_5votes cfg + pos_blocks_with_4votes cfg
   + pos_blocks_with_3votes cfg)%Z.

Definition pos_prop_blocks_5votes (cfg : config) : Q :=
  (inject_Z (pos_blocks_with_5votes cfg)
   / inject_Z (pos_blocks_with_votes cfg))%Q.

Definition pos_prop_blocks_4votes (cfg : config) : Q :=
  (inject_Z (pos_blocks_with_4votes cfg)
   / inject_Z (pos_blocks_with_votes cfg))%Q.

Definition pos_prop_blocks_3votes (cfg : config) : Q :=
  (inject_Z (pos_blocks_with_3votes cfg)
   / inject_Z (pos_blocks_with_votes cfg))%Q.

(** [random.choices([5, 4, 3], [w5, w4, w3], k=1)[0]] from the uniform
    value [u] of [random()]: the cumulative weights are bisected at
    [u * total], the index being searched in [0, 2]. *)
Definition random_choices_543 (cfg : config) (u : Q) : Z :=
  let cum5 := pos_prop_blocks_5votes cfg in
  let cum4 := (cum5 + pos_prop_blocks_4votes cfg)%Q in
  let total := (cum4 + pos_prop_blocks_3votes cfg)%Q in
  let x := (u * total)%Q in
  match Qcompare x cum5 with
  | Lt => 5%Z
  | _ => match Qcompare x cum4 with
         | Lt => 4%Z
         | _ => 3%Z
         end
  end.

(** ** Data *)

(** A value that is an integer in one place and a string in another. *)
Inductive pyval : Type :=
| PInt (z : Z)
| PStr (s : string).

(** An entry of a [chain] dictionary. Keys that the source leaves out are
    [None]. *)
Record block : Type := {
  block_hash : pyval;
  from_cycle : option string;
  online_tickets : option Z;
  owned_tickets : option (list pyval)
}.

(** An entry of the [adversaries] dictionary. The stake keys
    ([validated_blocks], [invalidated_blocks], [stakesize],
    [prob_tickets], [drawn_tickets]) exist in stake mode only; in pure
    PoW mode they are never read and stay at their initial values here. *)
Record adversary : Type := {
  hashpower : Q;
  drawn_block_hashes : list string;
  chain : gmap string block;
  sum_blocks : nat;
  prob_block_hashes : list Z;
  validated_blocks : nat;
  invalidated_blocks : nat;
  stakesize : Q;
  prob_tickets : list Z;
  drawn_tickets : list Z
}.

(** An entry of [simulations["sims"][s]["cycles"]]; the probability string
    is left out. *)
Record cycle : Type := {
  drawn_block_hash : option pyval;
  pow_winners : option (list nat);
  pos_winners : option (list nat);
  distance_before_this_cycle : option nat
}.

Definition empty_cycle : cycle := {|
  drawn_block_hash := None;
  pow_winners := None;
  pos_winners := None;
  distance_before_this_cycle := None
|}.

(** [simulations["sims"][s]] while the run is in progress. The key
    ["A" + str(idx)] of an adversary is represented by [idx]. *)
Record simulation : Type := {
  cycles : gmap string cycle;
  block_diff_2 : Z;
  block_diff_6 : Z;
  block_diff_2_winner : option nat;
  block_diff_2_winner_score : option string;
  block_diff_6_winner : option nat;
  block_diff_6_winner_score : option string
}.

(** The two globals a run mutates: [adversaries], a dictionary whose keys
    are inserted in the order [A0, A1, ...] and which is a list here, and
    the record of the current simulation. *)
Record state : Type := {
  adversaries : list adversary;
  sim : simulation
}.

(** Field updates of an adversary, one per assignment in the source. *)
Definition adv_append_drawn (adv : adversary) (h : string) : adversary := {|
  hashpower := hashpower adv;
  drawn_block_hashes := drawn_block_hashes adv ++ [h];
  chain := chain adv;
  sum_blocks := sum_blocks adv;
  prob_block_hashes := prob_block_hashes adv;
  validated_blocks := validated_blocks adv;
  invalidated_blocks := invalidated_blocks adv;
  stakesize := stakesize adv;
  prob_tickets := prob_tickets adv;
  drawn_tickets := drawn_tickets adv
|}.

(** [del adversaries[a]["drawn_block_hashes"][-1]]; the list is never
    empty where the source does this, see [pos_loop]. *)
Definition adv_del_last_drawn (adv : adversary) : adversary := {|
  hashpower := hashpower adv;
  drawn_block_hashes := removelast (drawn_block_hashes adv);
  chain := chain adv;
  sum_blocks := sum_blocks adv;
  prob_block_hashes := prob_block_hashes adv;
  validated_blocks := validated_blocks adv;
  invalidated_blocks := invalidated_blocks adv;
  stakesize := stakesize adv;
  prob_tickets := prob_tickets adv;
  drawn_tickets := drawn_tickets adv
|}.

(** [adversaries[a]["chain"][key] = {}] followed by [.update(b)]. *)
Definition adv_insert_chain (adv : adversary) (key : string) (b : block)
  : adversary := {|
  hashpower := hashpower adv;
  drawn_block_hashes := drawn_block_hashes adv;
  chain := <[key := b]> (chain adv);
  sum_blocks := sum_blocks adv;
  prob_block_hashes := prob_block_hashes adv;
  validated_blocks := validated_blocks adv;
  invalidated_blocks := invalidated_blocks adv;
  stakesize := stakesize adv;
  prob_tickets := prob_tickets adv;
  drawn_tickets := drawn_tickets adv
|}.

Definition adv_set_sum_blocks (adv : adversary) (n : nat) : adversary := {|
  hashpower := hashpower adv;
  drawn_block_hashes := drawn_block_hashes adv;
  chain := chain adv;
  sum_blocks := n;
  prob_block_hashes := prob_block_hashes adv;
  validated_blocks := validated_blocks adv;
  invalidated_blocks := invalidated_blocks adv;
  stakesize := stakesize adv;
  prob_tickets := prob_tickets adv;
  drawn_tickets := drawn_tickets adv
|}.

Definition adv_set_stake (adv : adversary) (s : Q) (tickets : list Z)
  : adversary := {|
  hashpower := hashpower adv;
  drawn_block_hashes := drawn_block_hashes adv;
  chain := chain adv;
  sum_blocks := sum_blocks adv;
  prob_block_hashes := prob_block_hashes adv;
  validated_blocks := 0;
  invalidated_blocks := 0;
  stakesize := s;
  prob_tickets := tickets;
  drawn_tickets := drawn_tickets adv
|}.

Definition adv_set_drawn_tickets (adv : adversary) (ts : list Z)
  : adversary := {|
  hashpower := hashpower adv;
  drawn_block_hashes := drawn_block_hashes adv;
  chain := chain adv;
  sum_blocks := sum_blocks adv;
  prob_block_hashes := prob_block_hashes adv;
  validated_blocks := validated_blocks adv;
  invalidated_blocks := invalidated_blocks adv;
  stakesize := stakesize adv;
  prob_tickets := prob_tickets adv;
  drawn_tickets := ts
|}.

Definition adv_incr_validated (adv : adversary) : adversary := {|
  hashpower := hashpower adv;
  drawn_block_hashes := drawn_block_hashes adv;
  chain := chain adv;
  sum_blocks := sum_blocks adv;
  prob_block_hashes := prob_block_hashes adv;
  validated_blocks := validated_blocks adv + 1;
  invalidated_blocks := invalidated_blocks adv;
  stakesize := stakesize adv;
  prob_tickets := prob_tickets adv;
  drawn_tickets := drawn_tickets adv
|}.

Definition adv_incr_invalidated (adv : adversary) : adversary := {|
  hashpower := hashpower adv;
  drawn_block_hashes := drawn_block_hashes adv;
  chain := chain adv;
  sum_blocks := sum_blocks adv;
  prob_block_hashes := prob_block_hashes adv;
  validated_blocks := validated_blocks adv;
  invalidated_blocks := invalidated_blocks adv + 1;
  stakesize := stakesize adv;
  prob_tickets := prob_tickets adv;
  drawn_tickets := drawn_tickets adv
|}.

Definition sim_set_cycles (sm : simulation) (cs : gmap string cycle)
  : simulation := {|
  cycles := cs;
  block_diff_2 := block_diff_2 sm;
  block_diff_6 := block_diff_6 sm;
  block_diff_2_winner := block_diff_2_winner sm;
  block_diff_2_winner_score := block_diff_2_winner_score sm;
  block_diff_6_winner := block_diff_6_winner sm;
  block_diff_6_winner_score := block_diff_6_winner_score sm
|}.

(** [if x:] on a list. *)
Definition truthy {A : Type} (l : list A) : bool :=
  match l with
  | [] => false
  | _ :: _ => true
  end.

(** ** Endowment: [calc_hashpower] *)

Definition new_adversary (a : Q) (hashes : list Z) : adversary := {|
  hashpower := a;
  drawn_block_hashes := [];
  chain := ∅;
  sum_blocks := 0;
  prob_block_hashes := hashes;
  validated_blocks := 0;
  invalidated_blocks := 0;
  stakesize := 0;
  prob_tickets := [];
  drawn_tickets := []
|}.

(** The sample size of the first loop,
    [round(round(float(a), 2) * 100)]. *)
Definition hash_sample_size (a : Q) : Z :=
  py_round (py_round_to 2 a * 100).

(** The sample size of the second loop,
    [round(round(float(s), 2) / 100 * pos_avg_ticket_pool_size)], every
    step in floats. *)
Definition ticket_sample_size (cfg : config) (s : Q) : Z :=
  let share := float_round 2 (py_float s) in
  let fraction := py_float (share / 100) in
  let pool := py_float (inject_Z (pos_avg_ticket_pool_size cfg)) in
  py_round (py_float (fraction * pool)).

Arguments ticket_sample_size : simpl never.
Opaque ticket_sample_size.

(** Lines 225-236: every adversary samples from the whole hash space. *)
Fixpoint assign_hashes (cfg : config) (rnd : nat -> stream) (idx : nat)
    (adv_hashpower : list Q) : result (list adversary) :=
  match adv_hashpower with
  | [] => Ok []
  | a :: rest =>
      hashes ← random_sample (py_range 0 (block_hash_space cfg))
                 (hash_sample_size a) (rnd idx);
      advs ← assign_hashes cfg rnd (S idx) rest;
      Ok (new_adversary a hashes :: advs)
  end.

(** Lines 240-250: every adversary samples from what is left of the pool.
    [adversaries[adv_id]] raises [KeyError] when there are more stakes than
    hashpowers. *)
Fixpoint assign_tickets (cfg : config) (rnd : nat -> stream) (idx : nat)
    (adv_stake : list Q) (ticket_pool : list Z) (advs : list adversary)
  : result (list adversary) :=
  match adv_stake with
  | [] => Ok advs
  | s :: rest =>
      match advs !! idx with
      | None => Raise KeyError
      | Some adv =>
          tickets ← random_sample ticket_pool (ticket_sample_size cfg s)
                      (rnd idx);
          let ticket_pool' := filter (fun e => e ∉ tickets) ticket_pool in
          assign_tickets cfg rnd (S idx) rest ticket_pool'
            (<[idx := adv_set_stake adv s tickets]> advs)
      end
  end.

(** [calc_hashpower(adv_hashpower, adv_stake)] with [args.pos = adv_stake].
    The last loop only formats strings, but it reads [prob_tickets] of
    every adversary and so raises [KeyError] when there are fewer stakes
    than hashpowers. *)
Definition calc_hashpower (cfg : config) (rnd_h rnd_t : nat -> stream)
    (adv_hashpower adv_stake : list Q) : result (list adversary) :=
  advs ← assign_hashes cfg rnd_h 0 adv_hashpower;
  if truthy adv_stake then
    advs' ← assign_tickets cfg rnd_t 0 adv_stake
              (py_range 0 (pos_avg_ticket_pool_size cfg)) advs;
    if (length adv_stake <? length advs')%nat then Raise KeyError
    else Ok advs'
  else Ok advs.

(** ** Rewind: [create_simulation] and [setup_block_rewind] *)

Definition create_simulation : simulation := {|
  cycles := ∅;
  block_diff_2 := 0;
  block_diff_6 := 0;
  block_diff_2_winner := None;
  block_diff_2_winner_score := None;
  block_diff_6_winner := None;
  block_diff_6_winner_score := None
|}.

Definition rewind_block (pos_mode : bool) (h : string) : block :=
  if pos_mode then
    {| block_hash := PStr h; from_cycle := None;
       online_tickets := Some (-1)%Z; owned_tickets := Some [PStr h] |}
  else
    {| block_hash := PStr h; from_cycle := None;
       online_tickets := None; owned_tickets := None |}.

Definition rewind_cycle (h : string) (a : nat) : cycle := {|
  drawn_block_hash := Some (PStr h);
  pow_winners := Some [a];
  pos_winners := None;
  distance_before_this_cycle := None
|}.

(** The body of the loop of [setup_block_rewind], for the values [bs] of
    [b] that remain. *)
Fixpoint rewind_loop (pos_mode : bool) (rewind_adv : nat) (bs : list nat)
    (st : state) : result state :=
  match bs with
  | [] => Ok st
  | b :: bs' =>
      let h := ("RWB" ++ py_str b)%string in
      let cs := <[py_str b := rewind_cycle h rewind_adv]> (cycles (sim st)) in
      match adversaries st !! rewind_adv with
      | None => Raise KeyError
      | Some adv =>
          let adv1 := adv_append_drawn adv h in
          let this_height := zfill 3 (py_str (size (chain adv1))) in
          let adv2 := adv_insert_chain adv1 this_height
                        (rewind_block pos_mode h) in
          rewind_loop pos_mode rewind_adv bs'
            {| adversaries := <[rewind_adv := adv2]> (adversaries st);
               sim := sim_set_cycles (sim st) cs |}
      end
  end.

Definition setup_block_rewind (pos_mode : bool)
    (rewind_blocks rewind_adv : nat) (st : state) : result state :=
  rewind_loop pos_mode rewind_adv (seq 0 rewind_blocks) st.

(** ** The mining round: [mine_block] *)

(** The raw random values one pass of the [while] loop may read: one for
    the block hash, one for the committee size, a stream for the
    committee. *)
Record draw : Type := {
  raw_block_hash : nat;
  raw_votes : Q;
  raw_tickets : stream
}.

Definition pow_block (h : Z) (this_cycle_height : string) : block := {|
  block_hash := PInt h;
  from_cycle := Some this_cycle_height;
  online_tickets := None;
  owned_tickets := None
|}.

Definition pos_block (h : Z) (this_cycle_height : string) (online : Z)
    (owned : list Z) : block := {|
  block_hash := PInt h;
  from_cycle := Some this_cycle_height;
  online_tickets := Some online;
  owned_tickets := Some (PInt <$> owned)
|}.

(** What lines 313-323 do to a PoW winner. *)
Definition pow_win (pos_mode : bool) (draw_block_hash : Z)
    (this_cycle_height : string) (adv : adversary) : adversary :=
  let adv1 := adv_append_drawn adv (py_str_Z draw_block_hash) in
  if pos_mode then adv1
  else adv_insert_chain adv1 (zfill 3 (py_str (size (chain adv1))))
         (pow_block draw_block_hash this_cycle_height).

(** Lines 312-323, the loop over the adversaries from index [idx] on; the
    second component is what the loop appends to [pow_winners]. *)
Fixpoint pow_loop (pos_mode : bool) (draw_block_hash : Z)
    (this_cycle_height : string) (idx : nat) (advs : list adversary)
  : list adversary * list nat :=
  match advs with
  | [] => ([], [])
  | adv :: rest =>
      let '(rest', winners) :=
        pow_loop pos_mode draw_block_hash this_cycle_height (S idx) rest in
      if bool_decide (draw_block_hash ∈ prob_block_hashes adv)
      then (pow_win pos_mode draw_block_hash this_cycle_height adv :: rest',
            idx :: winners)
      else (adv :: rest', winners)
  end.

(** What lines 346-375 do to one adversary; the flag tells whether it was
    appended to [pos_winners]. *)
Definition pos_step (draw_block_hash : Z) (this_cycle_height : string)
    (winners : list nat) (pos_allowed_drawn_tickets : Z)
    (drawn : list Z) (idx : nat) (adv : adversary) : adversary * bool :=
  let own := filter (fun t => t ∈ prob_tickets adv) drawn in
  let adv1 := adv_set_drawn_tickets adv own in
  let total_tickets := length own in
  if bool_decide (idx ∈ winners) then
    if (pos_allowed_drawn_tickets / 2 <? Z.of_nat total_tickets)%Z then
      let adv2 := adv_incr_validated adv1 in
      (adv_insert_chain adv2 (py_str (size (chain adv2)))
         (pos_block draw_block_hash this_cycle_height
            pos_allowed_drawn_tickets own),
       true)
    else (adv_del_last_drawn (adv_incr_invalidated adv1), false)
  else (adv1, false).

(** Lines 345-375, the loop over the adversaries from index [idx] on. *)
Fixpoint pos_loop (draw_block_hash : Z) (this_cycle_height : string)
    (winners : list nat) (pos_allowed_drawn_tickets : Z)
    (drawn : list Z) (idx : nat) (advs : list adversary)
  : list adversary * list nat :=
  match advs with
  | [] => ([], [])
  | adv :: rest =>
      let '(rest', confirmed) :=
        pos_loop draw_block_hash this_cycle_height winners
          pos_allowed_drawn_tickets drawn (S idx) rest in
      let '(adv', won) :=
        pos_step draw_block_hash this_cycle_height winners
          pos_allowed_drawn_tickets drawn idx adv in
      (adv' :: rest', if won then idx :: confirmed else confirmed)
  end.

Definition mined_cycle (h : Z) (winners : list nat)
    (confirmed : option (list nat)) : cycle := {|
  drawn_block_hash := Some (PInt h);
  pow_winners := Some winners;
  pos_winners := confirmed;
  distance_before_this_cycle := None
|}.

(** Lines 336-340: the size of the committee and the tickets drawn for
    it, out of [range(1, pos_avg_ticket_pool_size)]. *)
Definition draw_committee (cfg : config) (d : draw) : result (Z * list Z) :=
  let pos_allowed_drawn_tickets := random_choices_543 cfg (raw_votes d) in
  drawn ← random_sample (py_range 1 (pos_avg_ticket_pool_size cfg))
            pos_allowed_drawn_tickets (raw_tickets d);
  Ok (pos_allowed_drawn_tickets, drawn).

Definition put_cycle (st : state) (key : string) (c : cycle)
    (advs : list adversary) : state := {|
  adversaries := advs;
  sim := sim_set_cycles (sim st) (<[key := c]> (cycles (sim st)))
|}.

(** One pass of the [while] loop of [mine_block]; the flag is the value of
    [pow_winner] when the pass ends. The test
    [cycle_height not in ...["cycles"]] compares an integer with string
    keys and always succeeds, so the cycle record is started afresh. *)
Definition attempt (cfg : config) (pos_mode : bool) (cycle_height : nat)
    (d : draw) (st : state) : result (state * bool) :=
  draw_block_hash ←
    random_choice_range (block_hash_space cfg) (raw_block_hash d);
  let this_cycle_height := zfill 3 (py_str cycle_height) in
  let pw :=
    pow_loop pos_mode draw_block_hash this_cycle_height 0 (adversaries st) in
  if truthy pw.2 then
    if pos_mode then
      '(pos_allowed_drawn_tickets, drawn) ← draw_committee cfg d;
      let ps :=
        pos_loop draw_block_hash this_cycle_height pw.2
          pos_allowed_drawn_tickets drawn 0 pw.1 in
      Ok (put_cycle st this_cycle_height
            (mined_cycle draw_block_hash pw.2 (Some ps.2)) ps.1,
          truthy ps.2)
    else
      Ok (put_cycle st this_cycle_height
            (mined_cycle draw_block_hash pw.2 None) pw.1, true)
  else
    Ok (put_cycle st this_cycle_height
          (mined_cycle draw_block_hash pw.2 None) pw.1, false).

(** [mine_block(s, cycle_height)]: passes are made until one is accepted;
    the unread part of the tape is returned with the state. *)
Fixpoint mine_block (cfg : config) (pos_mode : bool) (cycle_height : nat)
    (tape : list draw) (st : state) : result (state * list draw) :=
  match tape with
  | [] => OutOfTape
  | d :: tape' =>
      '(st', accepted) ← attempt cfg pos_mode cycle_height d st;
      if (accepted : bool) then Ok (st', tape')
      else mine_block cfg pos_mode cycle_height tape' st'
  end.

(** ** The distance tracker: [calc_distance] *)

(** [seq]: the lengths of the [drawn_block_hashes] lists. *)
Definition heights (advs : list adversary) : list nat :=
  (fun a => length (drawn_block_hashes a)) <$> advs.

(** [max(seq)] and [min(seq)]: [ValueError] on an empty sequence. *)
Definition py_max (l : list nat) : result nat :=
  match l with
  | [] => Raise ValueError
  | x :: r => Ok (foldl Nat.max x r)
  end.

Definition py_min (l : list nat) : result nat :=
  match l with
  | [] => Raise ValueError
  | x :: r => Ok (foldl Nat.min x r)
  end.

(** Lines 398-406: the last adversary at the lagging height and the last
    one at the leading height that is not at the lagging height; [None]
    stands for the empty string. *)
Fixpoint find_lag_lead (lagging_height leading_height : nat) (idx : nat)
    (advs : list adversary) (acc : option nat * option nat)
  : option nat * option nat :=
  match advs with
  | [] => acc
  | adv :: rest =>
      let n := length (drawn_block_hashes adv) in
      find_lag_lead lagging_height leading_height (S idx) rest
        (if (n =? lagging_height)%nat then (Some idx, acc.2)
         else if (n =? leading_height)%nat then (acc.1, Some idx)
         else acc)
  end.

Definition abs_diff (i j : nat) : nat :=
  if (i <? j)%nat then (j - i)%nat else (i - j)%nat.

(** [[abs(i - j) for i in seq for j in seq if i != j]]. *)
Definition distances (sq : list nat) : list nat :=
  flat_map
    (fun i => (fun j => abs_diff i j) <$> filter (fun j => i <> j) sq) sq.

(** [max(distances)], with [0] for the [ValueError] of an empty list. *)
Definition calculated_distance (advs : list adversary) : nat :=
  max_list (distances (heights advs)).

(** [winner_list]: every adversary with [str(sum_blocks)]. *)
Definition winner_list (advs : list adversary) : list (nat * string) :=
  imap (fun i a => (i, py_str (sum_blocks a))) advs.

(** [max(winner_list, key=winner_list.get)]: the values are strings and
    are compared as strings; an entry replaces the current best only if its
    value is greater. *)
Fixpoint max_by_value (best : nat * string) (l : list (nat * string))
  : nat * string :=
  match l with
  | [] => best
  | x :: r => max_by_value (if str_gt x.2 best.2 then x else best) r
  end.

Definition milestone_winner (advs : list adversary)
  : result (nat * string) :=
  match winner_list advs with
  | [] => Raise ValueError
  | x :: r => Ok (max_by_value x r)
  end.

(** Lines 416-452: the milestones and the fatal branch. *)
Definition record_milestone (cycle_height : nat) (d : nat)
    (advs : list adversary) (sm : simulation) : result simulation :=
  if ((d =? 2)%nat && (block_diff_2 sm =? -1)%Z)%bool then
    w ← milestone_winner advs;
    Ok {| cycles := cycles sm;
          block_diff_2 := Z.of_nat cycle_height + 1;
          block_diff_6 := block_diff_6 sm;
          block_diff_2_winner := Some w.1;
          block_diff_2_winner_score := Some w.2;
          block_diff_6_winner := block_diff_6_winner sm;
          block_diff_6_winner_score := block_diff_6_winner_score sm |}
  else if (d =? 6)%nat then
    w ← milestone_winner advs;
    Ok {| cycles := cycles sm;
          block_diff_2 := block_diff_2 sm;
          block_diff_6 := Z.of_nat cycle_height + 1;
          block_diff_2_winner := block_diff_2_winner sm;
          block_diff_2_winner_score := block_diff_2_winner_score sm;
          block_diff_6_winner := Some w.1;
          block_diff_6_winner_score := Some w.2 |}
  else if (6 <? d)%nat then Raise (SystemExit 5)
  else Ok sm.

(** Lines 457-462 compute the win probability [q] of the laggard and line
    466 passes it to [attacker_success_probability], whose first division
    is by [p = 1 - q]. The value only goes into a string; what matters for
    the run is whether [q] is [1], in which case the division raises
    [ZeroDivisionError]. In pure PoW mode [q = hashpower / 100], which for
    a share between 0 and 100 is the float [1.0] exactly when the share is
    100. In stake mode [q = pow(q_hash * q_stake, 1 - q_stake)]: the power
    is [1] when the exponent is [0] or the base is [1], and this is the
    test made here; the float the library function returns can also round
    to [1.0] for a stake just below 100, which the test leaves out. What
    is proved below of the absence of [ZeroDivisionError] is therefore
    stated for pure PoW mode only. *)
Definition laggard_wins_surely (pos_mode : bool) (adv : adversary) : bool :=
  let q_hash := (hashpower adv / 100)%Q in
  let q_stake := (stakesize adv / 100)%Q in
  if pos_mode
  then (Qeq_bool q_stake 1 || Qeq_bool (q_hash * q_stake) 1)%bool
  else Qeq_bool q_hash 1.

Definition distance_cycle (d : nat) : cycle := {|
  drawn_block_hash := None;
  pow_winners := None;
  pos_winners := None;
  distance_before_this_cycle := Some d
|}.

(** Lines 456-476. *)
Definition record_probability (pos_mode : bool) (cycle_height : nat)
    (d : nat) (lagging_adv : option nat) (advs : list adversary)
    (sm : simulation) : result simulation :=
  match lagging_adv with
  | None => Ok sm
  | Some l =>
      match advs !! l with
      | None => Raise KeyError
      | Some adv =>
          if laggard_wins_surely pos_mode adv then Raise ZeroDivisionError
          else Ok (sim_set_cycles sm
                     (<[zfill 3 (py_str cycle_height) := distance_cycle d]>
                        (cycles sm)))
      end
  end.

(** [calc_distance(s, cycle_height)]: the returned distance and the state
    with the milestones of the simulation updated. *)
Definition calc_distance (pos_mode : bool) (cycle_height : nat)
    (st : state) : result (nat * state) :=
  if (cycle_height <? 1)%nat then Ok (0%nat, st)
  else
    let advs := adversaries st in
    let sq := heights advs in
    leading_height ← py_max sq;
    lagging_height ← py_min sq;
    let '(lagging_adv, leading_adv) :=
      find_lag_lead lagging_height leading_height 0 advs (None, None) in
    let d := calculated_distance advs in
    sm1 ← record_milestone cycle_height d advs (sim st);
    sm2 ← record_probability pos_mode cycle_height d lagging_adv advs sm1;
    Ok (d, {| adversaries := advs; sim := sm2 |}).

(** ** The run driver: [run_simulation] *)

(** Lines 493-495. *)
Definition update_sum_blocks (st : state) : state := {|
  adversaries :=
    (fun a => adv_set_sum_blocks a (length (drawn_block_hashes a)))
      <$> adversaries st;
  sim := sim st
|}.

(** The [while] loop of [run_simulation]. Every pass that goes on reads at
    least one draw of the tape, so [fuel] bounds the passes without
    cutting any run short when it exceeds the length of the tape. *)
Fixpoint run_loop (cfg : config) (pos_mode : bool) (fuel : nat)
    (tape : list draw) (cycle_height : nat) (st : state) : result state :=
  match fuel with
  | O => OutOfTape
  | S fuel' =>
      '(d, st1) ← calc_distance pos_mode cycle_height st;
      if (d <? 6)%nat then
        '(st2, tape') ← mine_block cfg pos_mode cycle_height tape st1;
        run_loop cfg pos_mode fuel' tape' (cycle_height + 1)
          (update_sum_blocks st2)
      else Ok st1
  end.

(** The command-line switches read by the clean-up. *)
Record args : Type := {
  noeraseprob : bool;
  noerasedrawn : bool
}.

(** Lines 502-509: the popped keys become empty lists. *)
Definition clean_up (ar : args) (adv : adversary) : adversary := {|
  hashpower := hashpower adv;
  drawn_block_hashes :=
    if noerasedrawn ar then drawn_block_hashes adv else [];
  chain := chain adv;
  sum_blocks := sum_blocks adv;
  prob_block_hashes :=
    if noeraseprob ar then prob_block_hashes adv else [];
  validated_blocks := validated_blocks adv;
  invalidated_blocks := invalidated_blocks adv;
  stakesize := stakesize adv;
  prob_tickets := if noeraseprob ar then prob_tickets adv else [];
  drawn_tickets := if noerasedrawn ar then drawn_tickets adv else []
|}.

Definition start_simulation (sm : simulation) : simulation := {|
  cycles := cycles sm;
  block_diff_2 := -1;
  block_diff_6 := -1;
  block_diff_2_winner := block_diff_2_winner sm;
  block_diff_2_winner_score := block_diff_2_winner_score sm;
  block_diff_6_winner := block_diff_6_winner sm;
  block_diff_6_winner_score := block_diff_6_winner_score sm
|}.

(** The part of [run_simulation] up to the end of the loop. *)
Definition run_to_end (cfg : config) (pos_mode : bool) (tape : list draw)
    (st : state) : result state :=
  let st0 := {| adversaries := adversaries st;
                sim := start_simulation (sim st) |} in
  let cycle_height := size (cycles (sim st0)) in
  run_loop cfg pos_mode (S (length tape)) tape cycle_height st0.

(** [run_simulation(s)]; the timing is left out. *)
Definition run_simulation (cfg : config) (ar : args) (pos_mode : bool)
    (tape : list draw) (st : state) : result state :=
  st1 ← run_to_end cfg pos_mode tape st;
  Ok {| adversaries := clean_up ar <$> adversaries st1; sim := sim st1 |}.

(** ** The batch: [run_batch_simulations] and [calc_averages] *)

(** The random values of one run. *)
Record run_tape : Type := {
  rnd_hashes : nat -> stream;
  rnd_tickets : nat -> stream;
  draws : list draw
}.

(** The loop of [run_batch_simulations], one run per element of [runs];
    [total_simulations] is the length of [runs]. *)
Fixpoint run_batch (cfg : config) (ar : args) (adv_pow adv_pos : list Q)
    (rewind_blocks rewind_adv : nat) (runs : list run_tape)
  : result (list state) :=
  match runs with
  | [] => Ok []
  | r :: rest =>
      advs ← calc_hashpower cfg (rnd_hashes r) (rnd_tickets r)
               adv_pow adv_pos;
      let st0 := {| adversaries := advs; sim := create_simulation |} in
      st1 ← (if (0 <? rewind_blocks)%nat
             then setup_block_rewind (truthy adv_pos) rewind_blocks
                    rewind_adv st0
             else Ok st0);
      st2 ← run_simulation cfg ar (truthy adv_pos) (draws r) st1;
      sts ← run_batch cfg ar adv_pow adv_pos rewind_blocks rewind_adv rest;
      Ok (st2 :: sts)
  end.

(** [statistics.mean] of integers: the sum is divided exactly, and the
    quotient is returned as an [int] when it is one and as the nearest
    float otherwise; [StatisticsError] on no data. *)
Definition statistics_mean (l : list Z) : result number :=
  match l with
  | [] => Raise StatisticsError
  | _ =>
      let total := foldr Z.add 0%Z l in
      let n := Z.of_nat (length l) in
      if (total mod n =? 0)%Z then Ok (Int (total / n))
      else Ok (Float (py_float (inject_Z total / inject_Z n)))
  end.

(** The lookups [..."6-block-diff_winner"] and
    [...["adversaries"][a]["sum_blocks"]] of one simulation. *)
Definition won_by (a : nat) (st : state) : result bool :=
  match block_diff_6_winner (sim st) with
  | None => Raise KeyError
  | Some w => Ok (bool_decide (w = a))
  end.

Definition final_sum_blocks (a : nat) (st : state) : result Z :=
  match adversaries st !! a with
  | None => Raise KeyError
  | Some adv => Ok (Z.of_nat (sum_blocks adv))
  end.

(** The body of the loop [for s in simulations["sims"]] of lines 582-586,
    from the values [win_counts] and [sum_blocks_list] reached so far. *)
Fixpoint tally (a : nat) (sims : list state) (win_counts : nat)
    (sum_blocks_list : list Z) : result (nat * list Z) :=
  match sims with
  | [] => Ok (win_counts, sum_blocks_list)
  | st :: rest =>
      w ← won_by a st;
      b ← final_sum_blocks a st;
      tally a rest (if (w : bool) then win_counts + 1 else win_counts)%nat
        (sum_blocks_list ++ [b])
  end.

(** What [calc_averages] stores for one adversary: [total_wins],
    [perc_wins] before it is made a string, and the [average] of
    [sum_blocks]. *)
Record adversary_summary : Type := {
  total_wins : nat;
  perc_wins : Q;
  sum_blocks_average : Q
}.

(** Lines 579-589 for the adversary [a]. *)
Definition summarise (a : nat) (sims : list state)
  : result adversary_summary :=
  '(win_counts, sum_blocks_list) ← tally a sims 0 [];
  avg ← statistics_mean sum_blocks_list;
  Ok {| total_wins := win_counts;
        perc_wins :=
          float_round 4
            (py_float
               (py_float (inject_Z (Z.of_nat win_counts)
                          / inject_Z (Z.of_nat (length sims))) * 100));
        sum_blocks_average := number_value (number_round 6 avg) |}.

Fixpoint summarise_all (idxs : list nat) (sims : list state)
  : result (list adversary_summary) :=
  match idxs with
  | [] => Ok []
  | a :: rest =>
      x ← summarise a sims;
      xs ← summarise_all rest sims;
      Ok (x :: xs)
  end.

(** The per-adversary part of [calc_averages], lines 575-589. The global
    [adversaries] is the dictionary of the last run; with no run at all the
    mean duration of line 565 divides by zero. *)
Definition calc_averages (sims : list state)
  : result (list adversary_summary) :=
  match last sims with
  | None => Raise ZeroDivisionError
  | Some st_last =>
      summarise_all (seq 0 (length (adversaries st_last))) sims
  end.

(** ** The catch-up probability function *)

(** The inner loop of [attacker_success_probability]:
    [poisson = exp(-lambda); for i in range(1, k + 1): poisson *= lambda / i]. *)
Definition poisson (lambda_var : R) (k : nat) : R :=
  fold_left (fun acc i => (acc * (lambda_var / INR i))%R) (seq 1 k)
            (exp (- lambda_var)).

(** [attacker_success_probability(q, z)], lines 761-773. *)
Definition attacker_success_probability (q : R) (z : nat) : R :=
  let p := (1 - q)%R in
  let lambda_var := (INR z * (q / p))%R in
  fold_left
    (fun sum_value k =>
       (sum_value - poisson lambda_var k * (1 - (q / p) ^ (z - k)))%R)
    (seq 0 (z + 1)) 1%R.

(** The closed form the specification gives for the same quantity:
    [P(q,z) = 1 - sum_{k=0}^{z} Poisson(lambda,k) * (1 - (q/p)^(z-k))]
    with [Poisson(lambda,k) = e^{-lambda} lambda^k / k!],
    [p = 1 - q] and [lambda = z * q / p]. *)
Definition poisson_closed (lambda_var : R) (k : nat) : R :=
  (exp (- lambda_var) * lambda_var ^ k / INR (fact k))%R.

Definition catch_up_closed (q : R) (z : nat) : R :=
  let p := (1 - q)%R in
  let lambda_var := (INR z * q / p)%R in
  (1 - sum_f_R0
         (fun k => poisson_closed lambda_var k * (1 - (q / p) ^ (z - k))) z)%R.

(** All tickets owned, with multiplicity. *)
Definition all_tickets (advs : list adversary) : list Z :=
  concat (prob_tickets <$> advs).

(** What the ticket loop leaves alone. *)
Definition same_mining (adv adv' : adversary) : Prop :=
  hashpower adv' = hashpower adv
  ∧ drawn_block_hashes adv' = drawn_block_hashes adv
  ∧ chain adv' = chain adv
  ∧ sum_blocks adv' = sum_blocks adv
  ∧ prob_block_hashes adv' = prob_block_hashes adv.

Definition fresh (adv : adversary) : Prop :=
  drawn_block_hashes adv = [] ∧ chain adv = ∅ ∧ sum_blocks adv = 0%nat
  ∧ validated_blocks adv = 0%nat ∧ invalidated_blocks adv = 0%nat.

Definition tickets_owned (advs : list adversary) : nat :=
  list_sum ((fun adv => length (prob_tickets adv)) <$> advs).

Definition cfg_bigger_space : config := {|
  block_hash_space := 20000;
  pos_avg_ticket_pool_size := 40960;
  pos_blocks_with_5votes := 401716;
  pos_blocks_with_4votes := 22561;
  pos_blocks_with_3votes := 5617
|}.

Definition cfg_small_pool : config := {|
  block_hash_space := 10000;
  pos_avg_ticket_pool_size := 10;
  pos_blocks_with_5votes := 401716;
  pos_blocks_with_4votes := 22561;
  pos_blocks_with_3votes := 5617
|}.

Definition first_always : nat → stream := fun _ _ => 0%nat.

(** The keys of a chain read as heights below its size: the next key is
    then a new one. *)
Definition chain_ok (adv : adversary) : Prop :=
  ∀ key, is_Some (chain adv !! key) → (key_height key < size (chain adv))%nat.

(** The test of line 313. *)
Definition wins_pow (h : Z) (adv : adversary) : bool :=
  bool_decide (h ∈ prob_block_hashes adv).

(** The tickets of line 346 and the test of line 351. *)
Definition owned_in (drawn : list Z) (adv : adversary) : list Z :=
  filter (fun t => t ∈ prob_tickets adv) drawn.

Definition has_majority (k : Z) (drawn : list Z) (adv : adversary) : bool :=
  (k / 2 <? Z.of_nat (length (owned_in drawn adv)))%Z.

(** The hash one pass draws, whether an adversary has the majority of the
    committee of that pass, and what the pass decides for an adversary. *)
Definition drawn_hash (cfg : config) (d : draw) : Z :=
  (Z.of_nat (raw_block_hash d) mod block_hash_space cfg)%Z.

Definition confirms (cfg : config) (d : draw) (adv : adversary) : bool :=
  match draw_committee cfg d with
  | Ok (k, drawn) => has_majority k drawn adv
  | _ => false
  end.

Definition accepted_winner (cfg : config) (pos_mode : bool) (d : draw)
    (adv : adversary) : bool :=
  (wins_pow (drawn_hash cfg d) adv
   && (if pos_mode then confirms cfg d adv else true))%bool.

Definition failed_validation (cfg : config) (d : draw) (adv : adversary)
  : bool :=
  (wins_pow (drawn_hash cfg d) adv && negb (confirms cfg d adv))%bool.

(** What no pass changes. *)
Definition same_endowment (adv adv' : adversary) : Prop :=
  hashpower adv' = hashpower adv
  ∧ prob_block_hashes adv' = prob_block_hashes adv
  ∧ stakesize adv' = stakesize adv
  ∧ prob_tickets adv' = prob_tickets adv.

(** The key under which the next block of a chain is stored: line 320 in
    pure PoW mode, line 361 in stake mode. *)
Definition next_key (pos_mode : bool) (adv : adversary) : string :=
  if pos_mode then py_str (size (chain adv))
  else zfill 3 (py_str (size (chain adv))).

(** One block more, or none. *)
Definition grown (pos_mode : bool) (h : Z) (adv adv' : adversary) : Prop :=
  drawn_block_hashes adv' = drawn_block_hashes adv ++ [py_str_Z h]
  ∧ (∃ b, block_hash b = PInt h
          ∧ chain adv' = <[next_key pos_mode adv := b]> (chain adv))
  ∧ validated_blocks adv'
    = (validated_blocks adv + if pos_mode then 1 else 0)%nat
  ∧ sum_blocks adv' = sum_blocks adv.

Definition kept (adv adv' : adversary) : Prop :=
  drawn_block_hashes adv' = drawn_block_hashes adv
  ∧ chain adv' = chain adv
  ∧ validated_blocks adv' = validated_blocks adv
  ∧ sum_blocks adv' = sum_blocks adv.

(** What one pass with the draw [d] does to an adversary. *)
Definition pass_effect (cfg : config) (pos_mode : bool) (d : draw)
    (adv adv' : adversary) : Prop :=
  same_endowment adv adv'
  ∧ invalidated_blocks adv'
    = (invalidated_blocks adv
       + if (pos_mode && failed_validation cfg d adv)%bool then 1 else 0)%nat
  ∧ (if accepted_winner cfg pos_mode d adv
     then grown pos_mode (drawn_hash cfg d) adv adv'
     else kept adv adv').

(** How often the validation of an adversary failed in the passes
    [used]. *)
Definition failed_validations (cfg : config) (used : list draw)
    (adv : adversary) : nat :=
  length (List.filter (fun d => failed_validation cfg d adv) used).

(** What a call of [mine_block] that read the passes [used] and then
    accepted the pass [d] does to an adversary. *)
Definition round_effect (cfg : config) (pos_mode : bool) (used : list draw)
    (d : draw) (adv adv' : adversary) : Prop :=
  same_endowment adv adv'
  ∧ invalidated_blocks adv'
    = (invalidated_blocks adv
       + if pos_mode then failed_validations cfg (used ++ [d]) adv else 0)%nat
  ∧ (if accepted_winner cfg pos_mode d adv
     then grown pos_mode (drawn_hash cfg d) adv adv'
     else kept adv adv').

(** A random tape for [calc_hashpower] under which the first adversary
    always takes the first element left and every other adversary the
    element at index 5000. *)
Definition split_halves : nat → stream :=
  fun idx _ => match idx with O => 0%nat | S _ => 5000%nat end.

(** The endowment of two adversaries with shares 50 and 50 under that
    tape: the lower and the upper half of the default hash space. *)
Definition pow_advs : list adversary :=
  [new_adversary (50 # 1) (py_range 0 5000);
   new_adversary (50 # 1) (py_range 5000 10000)].

(** The same with a ticket pool of ten tickets and stakes 50 and 50. *)
Definition stake_advs : list adversary :=
  [adv_set_stake (new_adversary (50 # 1) (py_range 0 5000)) (50 # 1)
     [0; 1; 2; 3; 4]%Z;
   adv_set_stake (new_adversary (50 # 1) (py_range 5000 10000)) (50 # 1)
     [5; 6; 7; 8; 9]%Z].

Definition pow_start : state :=
  {| adversaries := pow_advs; sim := create_simulation |}.

Definition stake_start : state :=
  {| adversaries := stake_advs; sim := create_simulation |}.

(** A pass that draws the hash [h], a committee of five, and for the
    committee always takes the ticket at index [t] of those left. *)
Definition mk_draw (h t : nat) : draw :=
  {| raw_block_hash := h; raw_votes := 0; raw_tickets := fun _ => t |}.

(** Per adversary: the length of [drawn_block_hashes], the size of the
    chain, [validated_blocks] and [invalidated_blocks]. *)
Definition counters (st : state) : list (nat * nat * nat * nat) :=
  (fun a => (length (drawn_block_hashes a), size (chain a),
             validated_blocks a, invalidated_blocks a)) <$> adversaries st.

(** What a pass returned: the flag and the counters. *)
Definition after_pass (r : result (state * bool))
  : option (bool * list (nat * nat * nat * nat)) :=
  match r with
  | Ok (st', acc) => Some (acc, counters st')
  | _ => None
  end.

(** What a call of [mine_block] returned: the counters and how many
    passes are left on the tape. *)
Definition after_round (r : result (state * list draw))
  : option (list (nat * nat * nat * nat) * nat) :=
  match r with
  | Ok (st', rest) => Some (counters st', length rest)
  | _ => None
  end.

(** Two passes of stake mode: in the first the committee is tickets 5 to
    9 and the PoW winner, who owns tickets 0 to 4, is not confirmed; in
    the second the committee is tickets 1 to 5 and it is. *)
Definition two_passes : list draw := [mk_draw 0 4; mk_draw 0 0].

(** [sum(round(float(x), 2) for x in l)]. *)
Definition sum_rounded (l : list Q) : Q :=
  foldl Qplus 0%Q (py_round_to 2 <$> l).

(** [sanity_check(adv_hashpower, adv_stake, rewind_adv)], lines 149-175;
    an absent [-w] option counts as the empty list. *)
Definition sanity_check (adv_hashpower adv_stake : list Q)
    (rewind_adv : nat) : result unit :=
  if (length adv_hashpower <? 2)%nat then Raise (SystemExit 1)
  else if negb (Qeq_bool (sum_rounded adv_hashpower) 100)
  then Raise (SystemExit 2)
  else if (truthy adv_stake
           && negb (Qeq_bool (sum_rounded adv_stake) 100))%bool
  then Raise (SystemExit 3)
  else if (truthy adv_stake
           && negb (length adv_hashpower =? length adv_stake)%nat)%bool
  then Raise (SystemExit 1)
  else if (length adv_hashpower <? rewind_adv + 1)%nat
  then Raise (SystemExit 4)
  else Ok ().

(** The milestones of a simulation and [sum_blocks] of its adversaries. *)
Definition milestones (st : state)
  : Z * option nat * option string * Z * option nat * option string
    * list nat :=
  (block_diff_2 (sim st), block_diff_2_winner (sim st),
   block_diff_2_winner_score (sim st),
   block_diff_6 (sim st), block_diff_6_winner (sim st),
   block_diff_6_winner_score (sim st),
   sum_blocks <$> adversaries st).

Definition after_run (r : result state) :=
  match r with
  | Ok st => Some (milestones st)
  | _ => None
  end.

(** Pure PoW draws: the two adversaries of [pow_advs] win in turn eight
    times each, then the first one wins six times. *)
Definition lead_tape : list draw :=
  (fun h => mk_draw h 0)
    <$> [0; 5000; 0; 5000; 0; 5000; 0; 5000; 0; 5000; 0; 5000; 0; 5000;
         0; 5000; 0; 0; 0; 0; 0; 0]%nat.

(** The start of a run after a rewind of seven blocks for the first
    adversary. *)
Definition rewound_seven : state :=
  match setup_block_rewind false 7 0 pow_start with
  | Ok st => st
  | _ => pow_start
  end.


Definition default_args : args :=
  {| noeraseprob := false; noerasedrawn := false |}.

(** A run of stake mode: the pass of [two_passes] that is discarded, then
    six passes in which the first adversary is confirmed. *)
Definition stake_tape : list draw :=
  mk_draw 0 4 :: replicate 6 (mk_draw 0 0).

(** The state a run ends in, for runs that do. *)
Definition finished (r : result state) : state :=
  match r with
  | Ok st => st
  | _ => pow_start
  end.

(** Draws in which the first adversary wins six rounds in a row, and
    draws in which the second wins one round and the first the next
    seven. *)
Definition six_in_a_row : list draw := replicate 6 (mk_draw 0 0).

Definition one_then_seven : list draw :=
  mk_draw 5000 0 :: replicate 7 (mk_draw 0 0).

(** Three completed runs: the second adversary ends with 0, 0 and 1
    blocks. *)
Definition three_runs : list state :=
  [finished (run_simulation default_config default_args false
               six_in_a_row pow_start);
   finished (run_simulation default_config default_args false
               six_in_a_row pow_start);
   finished (run_simulation default_config default_args false
               one_then_seven pow_start)].

(** What [calc_averages] reports per adversary: the wins and the mean. *)
Definition reported (r : result (list adversary_summary))
  : option (list (nat * Q)) :=
  match r with
  | Ok l => Some ((fun s => (total_wins s, sum_blocks_average s)) <$> l)
  | _ => None
  end.

(** How many adversaries a summary covers. *)
Definition summaries (r : result (list adversary_summary)) : nat :=
  match r with
  | Ok l => length l
  | _ => 0
  end.

(** The number of simulations whose 6-block winner is [a], and the final
    [sum_blocks] of [a] in every simulation. *)
Definition wins_of (a : nat) (sims : list state) : nat :=
  length (filter (fun st => block_diff_6_winner (sim st) = Some a) sims).

Definition final_sums (a : nat) (sims : list state) : list Z :=
  omap (fun st => (fun adv => Z.of_nat (sum_blocks adv))
                    <$> adversaries st !! a) sims.

(** The exact mean. *)
Definition exact_mean (l : list Z) : Q :=
  (inject_Z (foldr Z.add 0%Z l) / inject_Z (Z.of_nat (length l)))%Q.

(** The mean of [l] rounded to six decimal places, up to floating
    rounding: the quotient itself when it is an integer; otherwise the
    float nearest to the exact mean, rounded to the nearest decimal with
    six places, which is kept as the float nearest to it. *)
Definition stored_mean (l : list Z) : Q :=
  let total := foldr Z.add 0%Z l in
  let n := Z.of_nat (length l) in
  if (total mod n =? 0)%Z then inject_Z (total / n)
  else py_float (py_round_to 6 (py_float (exact_mean l))).

(** The sizes asked of the ticket pool, added up. *)
Definition tickets_requested (cfg : config) (adv_stake : list Q) : Z :=
  foldr Z.add 0%Z (ticket_sample_size cfg <$> adv_stake).

(** A pool of three tickets, which two stakes of 50 overdraw: each asks
    for [round(1.5) = 2]. *)
Definition cfg_three_tickets : config := {|
  block_hash_space := 10000;
  pos_avg_ticket_pool_size := 3;
  pos_blocks_with_5votes := 401716;
  pos_blocks_with_4votes := 22561;
  pos_blocks_with_3votes := 5617
|}.

(** The hashes of the pre-mined blocks, [RWB0], [RWB1], ... *)
Definition rewind_hashes (b0 n : nat) : list string :=
  (fun b => ("RWB" ++ py_str b)%string) <$> seq b0 n.

(** What the rewind does not change. *)
Definition same_counters (adv adv' : adversary) : Prop :=
  sum_blocks adv' = sum_blocks adv
  ∧ validated_blocks adv' = validated_blocks adv
  ∧ invalidated_blocks adv' = invalidated_blocks adv.

(** The books of an adversary are balanced: its chain is well keyed, and
    the drawn blocks, [sum_blocks] and, in stake mode, [validated_blocks]
    all count the blocks of the chain. *)
Definition books (pos_mode : bool) (adv : adversary) : Prop :=
  chain_ok adv
  ∧ sum_blocks adv = size (chain adv)
  ∧ (pos_mode = true → validated_blocks adv = size (chain adv)).

Definition balanced (pos_mode : bool) (adv : adversary) : Prop :=
  books pos_mode adv
  ∧ length (drawn_block_hashes adv) = size (chain adv).

(** What the record of a mined round says, for the accepted pass [d]. *)
Definition round_record (cfg : config) (pos_mode : bool) (d : draw)
    (advs : list adversary) (c : cycle) : Prop :=
  drawn_block_hash c = Some (PInt (drawn_hash cfg d))
  ∧ (∃ ws, pow_winners c = Some ws
           ∧ ∀ i, i ∈ ws ↔ ∃ adv, advs !! i = Some adv
                                  ∧ wins_pow (drawn_hash cfg d) adv = true)
  ∧ (if pos_mode
     then ∃ cs, pos_winners c = Some cs
                ∧ ∀ i, i ∈ cs ↔ ∃ adv, advs !! i = Some adv
                                       ∧ accepted_winner cfg true d adv
                                         = true
     else pos_winners c = None)
  ∧ distance_before_this_cycle c = None.

(** The milestones of a simulation. *)
Definition same_milestones (sm sm' : simulation) : Prop :=
  block_diff_2 sm' = block_diff_2 sm
  ∧ block_diff_6 sm' = block_diff_6 sm
  ∧ block_diff_2_winner sm' = block_diff_2_winner sm
  ∧ block_diff_2_winner_score sm' = block_diff_2_winner_score sm
  ∧ block_diff_6_winner sm' = block_diff_6_winner sm
  ∧ block_diff_6_winner_score sm' = block_diff_6_winner_score sm.

Definition cfg_no_hashes : config := {|
  block_hash_space := 0;
  pos_avg_ticket_pool_size := 40960;
  pos_blocks_with_5votes := 401716;
  pos_blocks_with_4votes := 22561;
  pos_blocks_with_3votes := 5617
|}.

(** The vote counts [restricted_int] lets through: all positive, so that
    the weights of [random.choices] are positive too. *)
Definition votes_counted (cfg : config) : Prop :=
  (0 < pos_blocks_with_5votes cfg)%Z
  ∧ (0 < pos_blocks_with_4votes cfg)%Z
  ∧ (0 < pos_blocks_with_3votes cfg)%Z.

(** An adversary with the whole hashpower: in pure PoW mode it wins a
    block with probability [q = 1]. *)
Definition has_all_hashpower (adv : adversary) : Prop :=
  (hashpower adv == 100)%Q.

(** The shares the probability of lines 457-466 is meant for: between 0
    and 100. Outside of them [q] leaves the interval from 0 to 1 and the
    floating-point computation can fail in other ways. *)
Definition shares_in_range (adv : adversary) : Prop :=
  (0 <= hashpower adv <= 100)%Q ∧ (0 <= stakesize adv <= 100)%Q.

(** [-w 100 -w 0] with a rewind of one block for the second adversary:
    the first one owns the whole hash space and lags behind. *)
Definition sure_laggard : state :=
  match setup_block_rewind false 1 1
          {| adversaries := [new_adversary (100 # 1) (py_range 0 10000);
                             new_adversary (0 # 1) []];
             sim := create_simulation |} with
  | Ok st => st
  | _ => pow_start
  end.

(** What a call of [calc_distance] that observes the distance [d] at the
    cycle height [ch] leaves of the milestones [sm]. *)
Definition milestones_after (ch d : nat) (advs : list adversary)
    (sm sm' : simulation) : Prop :=
  if ((d =? 2)%nat && (block_diff_2 sm =? -1)%Z)%bool then
    ∃ w, milestone_winner advs = Ok w
         ∧ block_diff_2 sm' = (Z.of_nat ch + 1)%Z
         ∧ block_diff_2_winner sm' = Some w.1
         ∧ block_diff_2_winner_score sm' = Some w.2
         ∧ block_diff_6 sm' = block_diff_6 sm
         ∧ block_diff_6_winner sm' = block_diff_6_winner sm
         ∧ block_diff_6_winner_score sm' = block_diff_6_winner_score sm
  else if (d =? 6)%nat then
    ∃ w, milestone_winner advs = Ok w
         ∧ block_diff_6 sm' = (Z.of_nat ch + 1)%Z
         ∧ block_diff_6_winner sm' = Some w.1
         ∧ block_diff_6_winner_score sm' = Some w.2
         ∧ block_diff_2 sm' = block_diff_2 sm
         ∧ block_diff_2_winner sm' = block_diff_2_winner sm
         ∧ block_diff_2_winner_score sm' = block_diff_2_winner_score sm
  else same_milestones sm sm'.

(** The milestones of a run that has ended: the 2-block one was reached
    before the 6-block one, and the recorded winner is an adversary with
    its [sum_blocks] as score. *)
Definition milestones_reached (st : state) : Prop :=
  (0 < block_diff_2 (sim st) < block_diff_6 (sim st))%Z
  ∧ ∃ w adv,
      block_diff_6_winner (sim st) = Some w
      ∧ adversaries st !! w = Some adv
      ∧ block_diff_6_winner_score (sim st) = Some (py_str (sum_blocks adv)).

(** A run of a batch has ended: it has as many adversaries as the batch
    has shares, and one of them is its 6-block winner. *)
Definition ended (n : nat) (st : state) : Prop :=
  length (adversaries st) = n
  ∧ ∃ w, block_diff_6_winner (sim st) = Some w ∧ (w < n)%nat.

(** A batch of one run with the endowment [pow_advs]. *)
Definition one_run : run_tape :=
  {| rnd_hashes := split_halves; rnd_tickets := first_always;
     draws := six_in_a_row |}.

(** No adversary wins a block with probability 1. *)
Definition never_sure (pos_mode : bool) (advs : list adversary) : Prop :=
  Forall (fun adv => laggard_wins_surely pos_mode adv = false) advs.

(** An adversary that cannot be given a block: it owns no hash or, in
    stake mode, no ticket. *)
Definition powerless (pos_mode : bool) (adv : adversary) : Prop :=
  prob_block_hashes adv = [] ∨ pos_mode = true ∧ prob_tickets adv = [].

(** The history of an adversary is only extended. *)
Definition extended (adv adv' : adversary) : Prop :=
  chain adv ⊆ chain adv'
  ∧ drawn_block_hashes adv `prefix_of` drawn_block_hashes adv'
  ∧ (validated_blocks adv ≤ validated_blocks adv')%nat
  ∧ (invalidated_blocks adv ≤ invalidated_blocks adv')%nat.

(** Stake mode with a pool of ten tickets, all owned by the first
    adversary. *)
Definition unstaked_start : state :=
  {| adversaries :=
       [adv_set_stake (new_adversary (50 # 1) (py_range 0 5000)) (100 # 1)
          [0; 1; 2; 3; 4; 5; 6; 7; 8; 9]%Z;
        adv_set_stake (new_adversary (50 # 1) (py_range 5000 10000)) (0 # 1)
          []];
     sim := create_simulation |}.

(** The second adversary wins a PoW draw, then the first one wins six. *)
Definition unstaked_tape : list draw :=
  mk_draw 5000 0 :: replicate 6 (mk_draw 0 0).

(** The adversary recorded at a milestone is the first of those with the
    highest [sum_blocks]. *)
Definition first_of_the_best (advs : list adversary) (w : nat * string)
  : Prop :=
  ∃ adv,
    advs !! w.1 = Some adv
    ∧ w.2 = py_str (sum_blocks adv)
    ∧ ∀ j adv', advs !! j = Some adv' →
                (sum_blocks adv' ≤ sum_blocks adv)%nat
                ∧ (sum_blocks adv' = sum_blocks adv → (w.1 ≤ j)%nat).

(** An adversary with [n] blocks to its name. *)
Definition with_blocks (n : nat) : adversary :=
  adv_set_sum_blocks (new_adversary (50 # 1) []) n.

(** * Theorems *)

Section Strings.

Lemma key_height_py_str n : key_height (py_str n) = n.
Proof.
  unfold key_height, py_str.
  rewrite NilEmpty.usu. apply DecimalNat.Unsigned.of_to.
Qed.

Lemma key_height_zero s : key_height (String "0" s) = key_height s.
Proof.
  unfold key_height. simpl.
  destruct (NilEmpty.uint_of_string s); reflexivity.
Qed.

Lemma key_height_zeros k s :
  key_height (String.append (zeros k) s) = key_height s.
Proof.
  induction k as [|k IH]; [reflexivity|].
  change (String.append (zeros (S k)) s)
    with (String "0" (String.append (zeros k) s)).
  rewrite key_height_zero. exact IH.
Qed.

Lemma key_height_zfill w n : key_height (zfill w (py_str n)) = n.
Proof.
  unfold zfill. rewrite key_height_zeros. apply key_height_py_str.
Qed.

End Strings.

Section Ranges.

Lemma range_from_seqZ lo n : range_from lo n = seqZ lo (Z.of_nat n).
Proof.
  revert lo. induction n as [|n IH]; intros lo.
  - reflexivity.
  - rewrite seqZ_cons by lia. simpl range_from. rewrite IH.
    f_equal. f_equal; lia.
Qed.

Lemma elem_of_py_range lo hi x : x ∈ py_range lo hi ↔ (lo ≤ x < hi)%Z.
Proof.
  unfold py_range. rewrite range_from_seqZ, elem_of_seqZ. lia.
Qed.

Lemma NoDup_py_range lo hi : NoDup (py_range lo hi).
Proof. unfold py_range. rewrite range_from_seqZ. apply NoDup_seqZ. Qed.

Lemma length_py_range lo hi : length (py_range lo hi) = Z.to_nat (hi - lo).
Proof.
  unfold py_range. generalize (Z.to_nat (hi - lo)) as n. intros n.
  revert lo. induction n as [|n IH]; intros lo; simpl; [reflexivity|].
  now rewrite IH.
Qed.

End Ranges.

Section Sampling.

Context {A : Type}.
Implicit Types (pool : list A) (rnd : stream).

Lemma sample_pick_submseteq pool k rnd i : sample_pick pool k rnd i ⊆+ pool.
Proof.
  revert pool i. induction k as [|k IH]; intros pool i; simpl.
  - apply submseteq_nil_l.
  - destruct (pool !! (rnd i mod length pool)%nat) as [x|] eqn:Hx.
    + transitivity (x :: delete (rnd i mod length pool)%nat pool).
      * apply submseteq_skip, IH.
      * apply Permutation_submseteq. symmetry.
        by apply delete_Permutation.
    + apply submseteq_nil_l.
Qed.

Lemma sample_pick_length pool k rnd i :
  (k ≤ length pool)%nat → length (sample_pick pool k rnd i) = k.
Proof.
  revert pool i. induction k as [|k IH]; intros pool i Hk; simpl.
  - reflexivity.
  - assert (Hj : (rnd i mod length pool < length pool)%nat)
      by (apply Nat.mod_upper_bound; lia).
    destruct (lookup_lt_is_Some_2 _ _ Hj) as [x Hx]. rewrite Hx. simpl.
    rewrite IH; [reflexivity|].
    rewrite length_delete by eauto. lia.
Qed.

Lemma random_sample_Ok pool k rnd l :
  random_sample pool k rnd = Ok l →
  l ⊆+ pool ∧ Z.of_nat (length l) = k.
Proof.
  unfold random_sample.
  destruct (_ || _)%bool eqn:Hb; [discriminate|].
  apply orb_false_iff in Hb as [H1 H2].
  apply Z.ltb_ge in H1, H2.
  intros [= <-]. split.
  - apply sample_pick_submseteq.
  - rewrite sample_pick_length; lia.
Qed.

Lemma random_sample_raises pool k rnd :
  (k < 0 ∨ Z.of_nat (length pool) < k)%Z →
  random_sample pool k rnd = Raise ValueError.
Proof.
  intros H. unfold random_sample.
  destruct (_ || _)%bool eqn:Hb; [reflexivity|].
  apply orb_false_iff in Hb as [H1 H2].
  apply Z.ltb_ge in H1, H2. lia.
Qed.

End Sampling.

Section CatchUp.

Lemma poisson_step lambda_var k :
  poisson lambda_var (S k)
  = (poisson lambda_var k * (lambda_var / INR (S k)))%R.
Proof.
  unfold poisson. rewrite seq_S, fold_left_app. reflexivity.
Qed.

Lemma poisson_is_closed lambda_var k :
  poisson lambda_var k = poisson_closed lambda_var k.
Proof.
  induction k as [|k IH].
  - unfold poisson, poisson_closed. simpl. field.
  - rewrite poisson_step, IH. unfold poisson_closed.
    rewrite fact_simpl, mult_INR. simpl pow.
    field. split.
    + apply not_0_INR, fact_neq_0.
    + apply not_0_INR. discriminate.
Qed.

Lemma fold_minus_sum (f : nat -> R) (a : R) n :
  fold_left (fun s k => (s - f k)%R) (seq 0 (S n)) a
  = (a - sum_f_R0 f n)%R.
Proof.
  induction n as [|n IH].
  - simpl. reflexivity.
  - rewrite seq_S, fold_left_app, IH. simpl. ring.
Qed.

End CatchUp.

(** C1. For every real [q] with [0 < q < 1] and every natural [z], the
    value computed by [attacker_success_probability] is
    [1 - sum_{k=0}^{z} Poisson(lambda,k) * (1 - (q/p)^(z-k))] with the
    Poisson term in closed form, and for [z = 0] it is exactly [1]. *)
Theorem attacker_success_probability_closed_form (q : R) (z : nat) :
  (0 < q < 1)%R ->
  attacker_success_probability q z = catch_up_closed q z
  /\ attacker_success_probability q 0 = 1%R.
Proof.
  intros Hq. split.
  - unfold attacker_success_probability, catch_up_closed.
    replace (z + 1)%nat with (S z) by lia.
    rewrite (fold_minus_sum
               (fun k => (poisson (INR z * (q / (1 - q))) k
                          * (1 - (q / (1 - q)) ^ (z - k)))%R)).
    f_equal. apply sum_eq. intros k _.
    rewrite poisson_is_closed. f_equal. f_equal.
    unfold Rdiv. ring.
  - unfold attacker_success_probability, poisson. simpl.
    rewrite Rmult_0_l, Ropp_0, exp_0. ring.
Qed.

Lemma attacker_success_probability_closed_form_witness :
  attacker_success_probability (1 / 2) 3 = catch_up_closed (1 / 2) 3
  /\ attacker_success_probability (1 / 2) 0 = 1%R.
Proof.
  apply (attacker_success_probability_closed_form (1 / 2) 3). lra.
Defined.

Section Endowment.

Lemma bind_Ok {A B} (r : result A) (k : A → result B) b :
  r ≫= k = Ok b → ∃ a, r = Ok a ∧ k a = Ok b.
Proof. destruct r; simpl; intros H; try discriminate. eauto. Qed.

Lemma assign_hashes_lookup cfg rnd idx pw advs i adv :
  assign_hashes cfg rnd idx pw = Ok advs →
  advs !! i = Some adv →
  ∃ a hashes,
    pw !! i = Some a
    ∧ random_sample (py_range 0 (block_hash_space cfg))
        (hash_sample_size a) (rnd (idx + i)%nat) = Ok hashes
    ∧ adv = new_adversary a hashes.
Proof.
  revert idx advs i. induction pw as [|a pw IH]; intros idx advs i; simpl.
  - intros [= <-]. by rewrite lookup_nil.
  - intros H.
    apply bind_Ok in H as (hashes & Hs & H).
    apply bind_Ok in H as (rest & Hr & H).
    injection H as <-.
    destruct i as [|i]; simpl.
    + intros [= <-]. exists a, hashes. by rewrite Nat.add_0_r.
    + intros Hi. destruct (IH _ _ _ Hr Hi) as (a' & h' & ? & ? & ?).
      exists a', h'. by replace (idx + S i)%nat with (S idx + i)%nat by lia.
Qed.

Lemma assign_hashes_length cfg rnd idx pw advs :
  assign_hashes cfg rnd idx pw = Ok advs → length advs = length pw.
Proof.
  revert idx advs. induction pw as [|a pw IH]; intros idx advs; simpl.
  - by intros [= <-].
  - intros H.
    apply bind_Ok in H as (hashes & Hs & H).
    apply bind_Ok in H as (rest & Hr & H).
    injection H as <-. simpl. f_equal. eauto.
Qed.

Lemma assign_hashes_no_tickets cfg rnd idx pw advs :
  assign_hashes cfg rnd idx pw = Ok advs →
  Forall (fun adv => prob_tickets adv = []) advs.
Proof.
  intros H. apply Forall_lookup. intros i adv Hi.
  destruct (assign_hashes_lookup _ _ _ _ _ _ _ H Hi) as (a & h & _ & _ & ->).
  reflexivity.
Qed.

Lemma all_tickets_nil advs :
  Forall (fun adv => prob_tickets adv = []) advs → all_tickets advs = [].
Proof.
  unfold all_tickets. induction 1 as [|adv advs Hadv _ IH].
  - reflexivity.
  - rewrite fmap_cons. cbn [concat]. rewrite Hadv. exact IH.
Qed.

Lemma all_tickets_insert advs idx adv adv' :
  advs !! idx = Some adv →
  prob_tickets adv = [] →
  all_tickets (<[idx := adv']> advs) ≡ₚ prob_tickets adv' ++ all_tickets advs.
Proof.
  unfold all_tickets.
  revert idx. induction advs as [|x advs IH]; intros idx; [done|].
  destruct idx as [|idx].
  - intros [= ->] He. cbn. rewrite He. reflexivity.
  - intros Hi He. cbn in Hi. cbn. rewrite (IH _ Hi He).
    rewrite !app_assoc. f_equiv. apply Permutation_app_comm.
Qed.

Lemma NoDup_of_submseteq {A} (l k : list A) : l ⊆+ k → NoDup k → NoDup l.
Proof.
  intros Hsub Hnd. apply submseteq_Permutation in Hsub as [r Hr].
  rewrite Hr in Hnd. by apply NoDup_app in Hnd as [? _].
Qed.

Lemma sample_and_rest (tickets pool : list Z) :
  NoDup pool → tickets ⊆+ pool →
  tickets ++ filter (fun e => e ∉ tickets) pool ⊆+ pool.
Proof.
  intros Hnd Hsub. apply NoDup_submseteq.
  - apply NoDup_app. split; [|split].
    + by eapply NoDup_of_submseteq.
    + intros x Hx Hf. apply list_elem_of_filter in Hf as [Hn _]. auto.
    + by apply NoDup_filter.
  - intros x Hx. apply elem_of_app in Hx as [Hx|Hx].
    + eapply elem_of_submseteq; eauto.
    + by apply list_elem_of_filter in Hx as [_ ?].
Qed.

(** The loop of the tickets keeps the tickets given out so far and the
    pool inside the universe, each ticket once. *)
Lemma assign_tickets_inv cfg rnd universe idx stake pool advs advs' :
  assign_tickets cfg rnd idx stake pool advs = Ok advs' →
  all_tickets advs ++ pool ⊆+ universe →
  NoDup universe →
  (∀ i adv, (idx ≤ i)%nat → advs !! i = Some adv → prob_tickets adv = []) →
  all_tickets advs' ⊆+ universe ∧ length advs' = length advs.
Proof.
  revert idx pool advs.
  induction stake as [|s stake IH]; intros idx pool advs; simpl.
  - intros [= <-] Hsub _ _. split; [|done].
    etransitivity; [|exact Hsub]. by apply submseteq_inserts_r.
  - destruct (advs !! idx) as [adv|] eqn:Hidx; [|discriminate].
    intros H Hsub Hnd Hfresh.
    apply bind_Ok in H as (tickets & Hs & H).
    apply random_sample_Ok in Hs as [Hts _].
    assert (Hpool : NoDup pool).
    { eapply NoDup_of_submseteq; [|exact Hnd].
      etransitivity; [|exact Hsub]. by apply submseteq_inserts_l. }
    apply IH in H as [H1 H2]; [split| |done|].
    + done.
    + by rewrite H2, length_insert.
    + rewrite all_tickets_insert with (adv := adv); [|done|by eapply Hfresh].
      cbn [prob_tickets adv_set_stake].
      etransitivity; [|exact Hsub].
      rewrite (Permutation_app_comm tickets), <- app_assoc.
      apply submseteq_app; [done|]. by apply sample_and_rest.
    + intros i adv0 Hi Hl. rewrite list_lookup_insert_ne in Hl by lia.
      eapply Hfresh; [|done]. lia.
Qed.

Lemma calc_hashpower_tickets cfg rnd_h rnd_t pw stake advs :
  calc_hashpower cfg rnd_h rnd_t pw stake = Ok advs →
  all_tickets advs ⊆+ py_range 0 (pos_avg_ticket_pool_size cfg).
Proof.
  unfold calc_hashpower. intros H.
  apply bind_Ok in H as (advs0 & H0 & H).
  pose proof (assign_hashes_no_tickets _ _ _ _ _ H0) as Hno.
  destruct (truthy stake).
  - apply bind_Ok in H as (advs1 & H1 & H).
    destruct (_ <? _)%nat; [discriminate|]. injection H as <-.
    eapply assign_tickets_inv in H1 as [? _]; [done| |apply NoDup_py_range|].
    + rewrite all_tickets_nil by done. done.
    + intros i adv _ Hi. by eapply Forall_lookup_1 in Hno.
  - injection H as <-. rewrite all_tickets_nil by done.
    apply submseteq_nil_l.
Qed.

Lemma all_tickets_disjoint advs i j a b t :
  NoDup (all_tickets advs) →
  i ≠ j → advs !! i = Some a → advs !! j = Some b →
  t ∈ prob_tickets a → t ∉ prob_tickets b.
Proof.
  unfold all_tickets.
  revert i j. induction advs as [|x advs IH]; intros i j Hnd Hij Hi Hj Ha Hb.
  - by rewrite lookup_nil in Hi.
  - rewrite fmap_cons in Hnd. cbn [concat] in Hnd.
    apply NoDup_app in Hnd as (_ & Hx & Hrest).
    destruct i as [|i], j as [|j]; try done; cbn in Hi, Hj.
    + injection Hi as ->. apply (Hx t Ha).
      apply list_elem_of_In, in_concat. exists (prob_tickets b).
      split; [|by apply list_elem_of_In].
      apply list_elem_of_In, list_elem_of_fmap. exists b.
      split; [done|]. by eapply list_elem_of_lookup_2.
    + injection Hj as ->. apply (Hx t Hb).
      apply list_elem_of_In, in_concat. exists (prob_tickets a).
      split; [|by apply list_elem_of_In].
      apply list_elem_of_In, list_elem_of_fmap. exists a.
      split; [done|]. by eapply list_elem_of_lookup_2.
    + eapply (IH i j); eauto.
Qed.

Lemma assign_tickets_lookup cfg rnd idx stake pool advs advs' i adv' :
  assign_tickets cfg rnd idx stake pool advs = Ok advs' →
  advs' !! i = Some adv' →
  ∃ adv, advs !! i = Some adv ∧ same_mining adv adv'
         ∧ (validated_blocks adv = 0 → invalidated_blocks adv = 0 →
            validated_blocks adv' = 0 ∧ invalidated_blocks adv' = 0)%nat.
Proof.
  revert idx pool advs.
  induction stake as [|s stake IH]; intros idx pool advs; simpl.
  - intros [= <-] Hi. exists adv'. by repeat split.
  - destruct (advs !! idx) as [adv|] eqn:Hidx; [|discriminate].
    intros H Hi.
    apply bind_Ok in H as (tickets & _ & H).
    destruct (IH _ _ _ H Hi) as (adv1 & H1 & Hsame & Hcnt).
    destruct (decide (i = idx)) as [->|Hne].
    + rewrite list_lookup_insert_eq in H1
        by (by eapply lookup_lt_Some).
      injection H1 as <-. exists adv. split; [done|]. split; [exact Hsame|].
      intros _ _. by apply Hcnt.
    + rewrite list_lookup_insert_ne in H1 by done. eauto.
Qed.

Lemma random_sample_returns {A} (pool : list A) k rnd :
  (0 ≤ k ≤ Z.of_nat (length pool))%Z →
  random_sample pool k rnd = Ok (sample_pick pool (Z.to_nat k) rnd 0).
Proof.
  intros H. unfold random_sample.
  destruct (_ || _)%bool eqn:Hb; [|reflexivity].
  apply orb_true_iff in Hb as [Hb|Hb]; apply Z.ltb_lt in Hb; lia.
Qed.

(** What [calc_hashpower] gives every adversary. *)
Lemma calc_hashpower_lookup cfg rnd_h rnd_t pw stake advs i adv :
  calc_hashpower cfg rnd_h rnd_t pw stake = Ok advs →
  advs !! i = Some adv →
  fresh adv
  ∧ ∃ a, pw !! i = Some a ∧ hashpower adv = a
         ∧ prob_block_hashes adv ⊆+ py_range 0 (block_hash_space cfg)
         ∧ Z.of_nat (length (prob_block_hashes adv)) = hash_sample_size a.
Proof.
  unfold calc_hashpower. intros H Hi.
  apply bind_Ok in H as (advs0 & H0 & H).
  assert (∃ adv0, advs0 !! i = Some adv0 ∧ same_mining adv0 adv
                  ∧ validated_blocks adv = 0%nat
                  ∧ invalidated_blocks adv = 0%nat) as (adv0 & Hi0 & Hs & Hv).
  { destruct (truthy stake).
    - apply bind_Ok in H as (advs1 & H1 & H).
      destruct (_ <? _)%nat; [discriminate|]. injection H as <-.
      destruct (assign_tickets_lookup _ _ _ _ _ _ _ _ _ H1 Hi)
        as (adv0 & Hl0 & ? & Hc).
      exists adv0. split; [done|]. split; [done|].
      destruct (assign_hashes_lookup _ _ _ _ _ _ _ H0 Hl0)
        as (a & h & _ & _ & ->).
      by apply Hc.
    - injection H as <-. exists adv. split; [done|].
      destruct (assign_hashes_lookup _ _ _ _ _ _ _ H0 Hi)
        as (a & h & _ & _ & ->).
      by repeat split. }
  destruct (assign_hashes_lookup _ _ _ _ _ _ _ H0 Hi0)
    as (a & h & Ha & Hsample & ->).
  destruct Hs as (Hhp & Hd & Hc & Hsb & Hpb). cbn in *.
  apply random_sample_Ok in Hsample as [Hsub Hlen].
  split.
  - unfold fresh. by rewrite Hd, Hc, Hsb.
  - exists a. by rewrite Hhp, Hpb.
Qed.

End Endowment.

(** C5. When [calc_hashpower] returns, the [prob_tickets] lists of
    different adversaries share no ticket, no list holds a ticket twice,
    and together they hold at most [pos_avg_ticket_pool_size] tickets. *)
Theorem calc_hashpower_tickets_disjoint cfg rnd_h rnd_t pw stake advs :
  (0 ≤ pos_avg_ticket_pool_size cfg)%Z →
  calc_hashpower cfg rnd_h rnd_t pw stake = Ok advs →
  (∀ i j a b t, i ≠ j → advs !! i = Some a → advs !! j = Some b →
                t ∈ prob_tickets a → t ∉ prob_tickets b)
  ∧ (∀ i a, advs !! i = Some a → NoDup (prob_tickets a))
  ∧ (Z.of_nat (tickets_owned advs) ≤ pos_avg_ticket_pool_size cfg)%Z.
Proof.
  intros HT H. apply calc_hashpower_tickets in H.
  assert (Hnd : NoDup (all_tickets advs)).
  { eapply NoDup_of_submseteq; [exact H|apply NoDup_py_range]. }
  split; [|split].
  - intros i j a b t. by apply all_tickets_disjoint.
  - intros i a Hi. unfold all_tickets in Hnd.
    apply (take_drop_middle advs) in Hi. rewrite <- Hi in Hnd.
    rewrite fmap_app, fmap_cons, concat_app in Hnd. cbn [concat] in Hnd.
    apply NoDup_app in Hnd as (_ & _ & Hnd).
    by apply NoDup_app in Hnd as (? & _).
  - apply submseteq_length in H. rewrite length_py_range in H.
    unfold all_tickets in H. rewrite length_concat in H.
    unfold tickets_owned. rewrite <- list_fmap_compose in H.
    unfold compose in H. lia.
Qed.

Lemma calc_hashpower_tickets_disjoint_witness :
  ∃ advs,
    calc_hashpower cfg_small_pool first_always first_always
      [50 # 1; 50 # 1]%Q [50 # 1; 50 # 1]%Q = Ok advs
    ∧ (∀ i j a b t, i ≠ j → advs !! i = Some a → advs !! j = Some b →
                    t ∈ prob_tickets a → t ∉ prob_tickets b)
    ∧ (∀ i a, advs !! i = Some a → NoDup (prob_tickets a))
    ∧ (Z.of_nat (tickets_owned advs) ≤ 10)%Z.
Proof.
  assert (E : ∃ advs, calc_hashpower cfg_small_pool first_always first_always
                        [50 # 1; 50 # 1]%Q [50 # 1; 50 # 1]%Q = Ok advs)
    by (eexists; vm_compute; reflexivity).
  destruct E as [advs E]. exists advs. split; [exact E|].
  apply (calc_hashpower_tickets_disjoint cfg_small_pool first_always
           first_always [50 # 1; 50 # 1]%Q [50 # 1; 50 # 1]%Q advs);
    [|exact E].
  simpl. lia.
Defined.

(** C4. The number of hashes an adversary owns is
    [round(round(share, 2) * 100)] whatever [block_hash_space] is: with a
    hash space of 20000 a share of 50 owns 5000 hashes, a quarter of the
    space and not half of it, for every random tape. *)
Theorem calc_hashpower_hash_count_not_scaled (rnd_h rnd_t : nat → stream) :
  ∃ advs,
    calc_hashpower cfg_bigger_space rnd_h rnd_t [50 # 1; 50 # 1]%Q [] = Ok advs
    ∧ length advs = 2%nat
    ∧ Forall (fun adv => length (prob_block_hashes adv) = 5000%nat) advs.
Proof.
  unfold calc_hashpower. cbn [assign_hashes].
  assert (Hk : hash_sample_size (50 # 1) = 5000%Z) by (vm_compute; reflexivity).
  rewrite Hk.
  rewrite !random_sample_returns
    by (rewrite length_py_range; cbn [block_hash_space cfg_bigger_space]; lia).
  cbn [mbind result_bind truthy].
  eexists. split; [reflexivity|]. split; [reflexivity|].
  repeat constructor; cbn [prob_block_hashes new_adversary];
    apply sample_pick_length; rewrite length_py_range;
    cbn [block_hash_space cfg_bigger_space]; lia.
Qed.

Section MiningLoops.

Lemma pow_loop_fst pos_mode h key idx advs :
  (pow_loop pos_mode h key idx advs).1
  = (fun adv => if wins_pow h adv then pow_win pos_mode h key adv else adv)
      <$> advs.
Proof.
  revert idx. induction advs as [|adv advs IH]; intros idx; [done|].
  cbn [pow_loop]. specialize (IH (S idx)).
  destruct (pow_loop pos_mode h key (S idx) advs) as [rest ws].
  rewrite fmap_cons. unfold wins_pow at 1.
  destruct (bool_decide _); cbn in *; by rewrite IH.
Qed.

Lemma pow_loop_snd pos_mode h key idx advs j :
  j ∈ (pow_loop pos_mode h key idx advs).2
  ↔ ∃ i adv, j = (idx + i)%nat ∧ advs !! i = Some adv
             ∧ wins_pow h adv = true.
Proof.
  revert idx. induction advs as [|adv advs IH]; intros idx.
  - cbn. split; [by intros ?%elem_of_nil|].
    intros (i & a & _ & Hi & _). by rewrite lookup_nil in Hi.
  - cbn [pow_loop]. specialize (IH (S idx)).
    destruct (pow_loop pos_mode h key (S idx) advs) as [rest ws].
    cbn in IH. unfold wins_pow in *.
    destruct (bool_decide (h ∈ prob_block_hashes adv)) eqn:Hw; cbn.
    + rewrite elem_of_cons, IH. split.
      * intros [->|(i & a & -> & Hi & Ha)].
        -- exists 0%nat, adv. by rewrite Nat.add_0_r.
        -- exists (S i), a. split; [lia|done].
      * intros ([|i] & a & -> & Hi & Ha).
        -- left. lia.
        -- right. exists i, a. split; [lia|done].
    + rewrite IH. split.
      * intros (i & a & -> & Hi & Ha). exists (S i), a. split; [lia|done].
      * intros ([|i] & a & -> & Hi & Ha).
        -- cbn in Hi. injection Hi as <-. congruence.
        -- exists i, a. split; [lia|done].
Qed.

Lemma pos_loop_lookup h key ws k drawn idx advs i :
  (pos_loop h key ws k drawn idx advs).1 !! i
  = (fun adv => (pos_step h key ws k drawn (idx + i) adv).1) <$> (advs !! i).
Proof.
  revert idx i. induction advs as [|adv advs IH]; intros idx i; [done|].
  cbn [pos_loop]. specialize (IH (S idx)).
  destruct (pos_loop h key ws k drawn (S idx) advs) as [rest cs].
  destruct (pos_step h key ws k drawn idx adv) as [adv' won] eqn:Hs.
  destruct i as [|i]; cbn.
  - by rewrite Nat.add_0_r, Hs.
  - cbn in IH. rewrite IH, Nat.add_succ_r. done.
Qed.

Lemma pos_loop_length h key ws k drawn idx advs :
  length (pos_loop h key ws k drawn idx advs).1 = length advs.
Proof.
  revert idx. induction advs as [|adv advs IH]; intros idx; [done|].
  cbn [pos_loop]. specialize (IH (S idx)).
  destruct (pos_loop h key ws k drawn (S idx) advs) as [rest cs].
  destruct (pos_step h key ws k drawn idx adv) as [adv' won].
  cbn in *. by rewrite IH.
Qed.

Lemma pos_loop_snd h key ws k drawn idx advs j :
  j ∈ (pos_loop h key ws k drawn idx advs).2
  ↔ ∃ i adv, j = (idx + i)%nat ∧ advs !! i = Some adv
             ∧ (pos_step h key ws k drawn j adv).2 = true.
Proof.
  revert idx. induction advs as [|adv advs IH]; intros idx.
  - cbn. split; [by intros ?%elem_of_nil|].
    intros (i & a & _ & Hi & _). by rewrite lookup_nil in Hi.
  - cbn [pos_loop]. specialize (IH (S idx)).
    destruct (pos_loop h key ws k drawn (S idx) advs) as [rest cs].
    destruct (pos_step h key ws k drawn idx adv) as [adv' won] eqn:Hs.
    cbn in IH. destruct won; cbn.
    + rewrite elem_of_cons, IH. split.
      * intros [->|(i & a & -> & Hi & Ha)].
        -- exists 0%nat, adv. rewrite Nat.add_0_r, Hs. done.
        -- exists (S i), a. split; [lia|]. split; [done|].
           done.
      * intros ([|i] & a & -> & Hi & Ha).
        -- left. lia.
        -- right. exists i, a. split; [lia|]. split; [done|].
           done.
    + rewrite IH. split.
      * intros (i & a & -> & Hi & Ha). exists (S i), a. split; [lia|].
        split; done.
      * intros ([|i] & a & -> & Hi & Ha).
        -- cbn in Hi. injection Hi as <-.
           rewrite Nat.add_0_r, Hs in Ha. done.
        -- exists i, a. split; [lia|]. split; [done|].
           done.
Qed.

(** The flag of [pos_step]: a PoW winner with the majority of the
    committee. *)
Lemma pos_step_snd h key ws k drawn j adv :
  (pos_step h key ws k drawn j adv).2
  = (bool_decide (j ∈ ws) && has_majority k drawn adv)%bool.
Proof.
  unfold pos_step, has_majority, owned_in.
  destruct (bool_decide (j ∈ ws)); [|done].
  by destruct (_ <? _)%Z.
Qed.

Lemma pow_loop_winner pos_mode h key advs i adv :
  advs !! i = Some adv →
  i ∈ (pow_loop pos_mode h key 0 advs).2 ↔ wins_pow h adv = true.
Proof.
  intros Hi. rewrite pow_loop_snd. split.
  - intros (i' & adv' & -> & Hi' & Hw). cbn in Hi. congruence.
  - intros Hw. by exists i, adv.
Qed.

Lemma pow_loop_no_winner pos_mode h key advs :
  (pow_loop pos_mode h key 0 advs).2 = [] →
  (pow_loop pos_mode h key 0 advs).1 = advs
  ∧ ∀ i adv, advs !! i = Some adv → wins_pow h adv = false.
Proof.
  intros Hnil.
  assert (Hno : ∀ i adv, advs !! i = Some adv → wins_pow h adv = false).
  { intros i adv Hi. destruct (wins_pow h adv) eqn:Hw; [|done].
    apply (pow_loop_winner pos_mode h key) in Hi. apply Hi in Hw.
    rewrite Hnil in Hw. by apply elem_of_nil in Hw. }
  split; [|done].
  rewrite pow_loop_fst. apply list_eq. intros i.
  rewrite list_lookup_fmap.
  destruct (advs !! i) as [adv|] eqn:Hi; [|done]. cbn.
  by rewrite (Hno _ _ Hi).
Qed.

Lemma truthy_false {A} (l : list A) : truthy l = false ↔ l = [].
Proof. by destruct l. Qed.

Lemma truthy_true {A} (l : list A) : truthy l = true ↔ ∃ x, x ∈ l.
Proof.
  destruct l as [|x l]; cbn; split; try done.
  - by intros [x ?%elem_of_nil].
  - intros _. exists x. by left.
Qed.

Lemma random_choice_range_Ok n raw h :
  random_choice_range n raw = Ok h → h = (Z.of_nat raw mod n)%Z ∧ (0 < n)%Z.
Proof.
  unfold random_choice_range. destruct (n <=? 0)%Z eqn:Hn; [done|].
  apply Z.leb_gt in Hn. by intros [= <-].
Qed.

Lemma same_endowment_refl adv : same_endowment adv adv.
Proof. by repeat split. Qed.

Lemma pass_effect_untouched cfg pos_mode d adv :
  wins_pow (drawn_hash cfg d) adv = false →
  pass_effect cfg pos_mode d adv adv.
Proof.
  intros Hw. unfold pass_effect, accepted_winner, failed_validation.
  rewrite Hw. cbn. rewrite andb_false_r.
  split; [apply same_endowment_refl|]. split; [lia|]. by repeat split.
Qed.

(** What the loop of the PoW winners does to one adversary in pure PoW
    mode. *)
Lemma pass_effect_pow cfg key d adv :
  pass_effect cfg false d adv
    (if wins_pow (drawn_hash cfg d) adv
     then pow_win false (drawn_hash cfg d) key adv else adv).
Proof.
  destruct (wins_pow (drawn_hash cfg d) adv) eqn:Hw;
    [|by apply pass_effect_untouched].
  unfold pass_effect, accepted_winner, grown. rewrite Hw. cbn.
  split; [by repeat split|]. split; [lia|].
  split; [done|]. split; [|split; [lia|done]].
  eexists. split; [|reflexivity]. done.
Qed.

(** What both loops together do to one adversary in stake mode. *)
Lemma pass_effect_pos cfg key d ws k drawn i adv :
  draw_committee cfg d = Ok (k, drawn) →
  (i ∈ ws ↔ wins_pow (drawn_hash cfg d) adv = true) →
  pass_effect cfg true d adv
    (pos_step (drawn_hash cfg d) key ws k drawn i
       (if wins_pow (drawn_hash cfg d) adv
        then pow_win true (drawn_hash cfg d) key adv else adv)).1.
Proof.
  intros Hc Hi.
  unfold pass_effect, accepted_winner, failed_validation, confirms.
  unfold grown, kept. rewrite Hc. unfold pos_step.
  destruct (wins_pow (drawn_hash cfg d) adv) eqn:Hw.
  - rewrite bool_decide_eq_true_2 by (by apply Hi).
    cbn [pow_win adv_append_drawn adv_set_drawn_tickets prob_tickets].
    unfold has_majority, owned_in.
    destruct (_ <? _)%Z; cbn.
    + split; [by repeat split|]. split; [lia|].
      split; [done|]. split; [|split; [lia|done]].
      eexists. split; [|reflexivity]. done.
    + split; [by repeat split|]. split; [lia|].
      split; [apply removelast_last|]. done.
  - rewrite bool_decide_eq_false_2
      by (intros Hin; apply Hi in Hin; congruence).
    cbn. split; [by repeat split|]. split; [lia|]. by repeat split.
Qed.

Lemma attempt_effect cfg pos_mode ch d st st' acc :
  attempt cfg pos_mode ch d st = Ok (st', acc) →
  (acc = true ↔ ∃ i adv, adversaries st !! i = Some adv
                         ∧ accepted_winner cfg pos_mode d adv = true)
  ∧ ∀ i, match adversaries st !! i with
         | Some adv => ∃ adv', adversaries st' !! i = Some adv'
                               ∧ pass_effect cfg pos_mode d adv adv'
         | None => adversaries st' !! i = None
         end.
Proof.
  unfold attempt. intros H.
  apply bind_Ok in H as (h & Hh & H).
  apply random_choice_range_Ok in Hh as [-> HH].
  fold (drawn_hash cfg d) in H.
  set (h := drawn_hash cfg d) in *.
  set (key := zfill 3 (py_str ch)) in *.
  destruct (truthy (pow_loop pos_mode h key 0 (adversaries st)).2) eqn:Hws.
  - destruct pos_mode.
    + apply bind_Ok in H as ([k drawn] & Hc & H).
      injection H as <- <-. cbn [adversaries put_cycle]. split.
      * rewrite truthy_true. split.
        -- intros [j Hj]. apply pos_loop_snd in Hj as (i & adv1 & -> & Hi & Hs).
           rewrite pos_step_snd in Hs. apply andb_true_iff in Hs as [Hin Hm].
           apply bool_decide_eq_true in Hin.
           rewrite pow_loop_fst, list_lookup_fmap in Hi.
           destruct (adversaries st !! i) as [adv|] eqn:Hadv; [|done].
           injection Hi as <-. exists i, adv. split; [done|].
           apply (pow_loop_winner true h key) in Hadv.
           apply Hadv in Hin. unfold accepted_winner, confirms.
           fold h. rewrite Hin, Hc. cbn.
           revert Hm. rewrite Hin. by unfold has_majority, owned_in.
        -- intros (i & adv & Hadv & Hacc). exists i.
           apply pos_loop_snd. eexists i, _. split; [done|].
           rewrite pow_loop_fst, list_lookup_fmap, Hadv. split; [done|].
           rewrite pos_step_snd.
           unfold accepted_winner, confirms in Hacc. fold h in Hacc.
           rewrite Hc in Hacc. apply andb_true_iff in Hacc as [Hw Hm].
           rewrite Hw. apply andb_true_iff. split.
           ++ apply bool_decide_eq_true.
              by apply (pow_loop_winner true h key _ _ _ Hadv).
           ++ by unfold has_majority, owned_in in *.
      * intros i. rewrite pos_loop_lookup, pow_loop_fst, list_lookup_fmap.
        destruct (adversaries st !! i) as [adv|] eqn:Hadv; [|done].
        cbn. eexists. split; [done|].
        apply pass_effect_pos; [done|].
        by apply pow_loop_winner.
    + injection H as <- <-. cbn [adversaries put_cycle]. split.
      * split; [|done]. intros _.
        apply truthy_true in Hws as [j Hj].
        apply pow_loop_snd in Hj as (i & adv & -> & Hi & Hw).
        exists i, adv. split; [done|]. unfold accepted_winner.
        fold h. by rewrite Hw.
      * intros i. rewrite pow_loop_fst, list_lookup_fmap.
        destruct (adversaries st !! i) as [adv|] eqn:Hadv; [|done].
        cbn. eexists. split; [done|]. apply pass_effect_pow.
  - injection H as <- <-. cbn [adversaries put_cycle].
    apply truthy_false in Hws.
    destruct (pow_loop_no_winner _ _ _ _ Hws) as [-> Hno]. split.
    + split; [done|]. intros (i & adv & Hi & Hacc).
      unfold accepted_winner in Hacc. fold h in Hacc.
      by rewrite (Hno _ _ Hi) in Hacc.
    + intros i. destruct (adversaries st !! i) as [adv|] eqn:Hadv; [|done].
      exists adv. split; [done|]. apply pass_effect_untouched. by eapply Hno.
Qed.

Lemma same_endowment_decisions cfg pos_mode d adv adv' :
  same_endowment adv adv' →
  accepted_winner cfg pos_mode d adv' = accepted_winner cfg pos_mode d adv
  ∧ failed_validation cfg d adv' = failed_validation cfg d adv.
Proof.
  intros (_ & Hh & _ & Ht).
  unfold accepted_winner, failed_validation, confirms, wins_pow,
    has_majority, owned_in.
  by rewrite Hh, Ht.
Qed.

Lemma failed_validations_cons cfg d used adv :
  failed_validations cfg (d :: used) adv
  = ((if failed_validation cfg d adv then 1 else 0)
     + failed_validations cfg used adv)%nat.
Proof.
  unfold failed_validations. cbn.
  by destruct (failed_validation cfg d adv).
Qed.

Lemma failed_validations_same cfg used adv adv' :
  same_endowment adv adv' →
  failed_validations cfg used adv' = failed_validations cfg used adv.
Proof.
  intros Hs. induction used as [|d used IH]; [done|].
  rewrite !failed_validations_cons, IH.
  by destruct (same_endowment_decisions cfg true d _ _ Hs) as [_ ->].
Qed.

(** A discarded pass followed by a round is a round. *)
Lemma round_effect_after_discarded cfg pos_mode d0 used d adv adv1 adv' :
  accepted_winner cfg pos_mode d0 adv = false →
  pass_effect cfg pos_mode d0 adv adv1 →
  round_effect cfg pos_mode used d adv1 adv' →
  round_effect cfg pos_mode (d0 :: used) d adv adv'.
Proof.
  intros Hno (Hs1 & Hi1 & Hk1) (Hs2 & Hi2 & Hg2).
  rewrite Hno in Hk1. destruct Hk1 as (Hd & Hc & Hv & Hsb).
  destruct (same_endowment_decisions cfg pos_mode d _ _ Hs1) as [Ha Hf].
  rewrite Ha in Hg2.
  split; [|split].
  - destruct Hs1 as (?&?&?&?), Hs2 as (?&?&?&?).
    repeat split; congruence.
  - rewrite Hi2, Hi1. destruct pos_mode; [|cbn; lia].
    rewrite (failed_validations_same _ _ _ _ Hs1).
    cbn [app]. rewrite failed_validations_cons. cbn. lia.
  - destruct (accepted_winner cfg pos_mode d adv).
    + unfold grown in *. unfold next_key in *.
      rewrite <- Hd, <- Hc, <- Hv, <- Hsb. exact Hg2.
    + unfold kept in *. rewrite <- Hd, <- Hc, <- Hv, <- Hsb. exact Hg2.
Qed.

Lemma round_effect_of_pass cfg pos_mode d adv adv' :
  pass_effect cfg pos_mode d adv adv' →
  round_effect cfg pos_mode [] d adv adv'.
Proof.
  intros (Hs & Hi & Hg). split; [done|]. split; [|done].
  rewrite Hi. cbn [app]. rewrite failed_validations_cons.
  unfold failed_validations. cbn. destruct pos_mode; cbn; lia.
Qed.

(** What a call of [mine_block] that returns has done. *)
Lemma mine_block_effect cfg pos_mode ch tape st st' rest :
  mine_block cfg pos_mode ch tape st = Ok (st', rest) →
  ∃ used d,
    tape = used ++ d :: rest
    ∧ (∀ d' i adv, d' ∈ used → adversaries st !! i = Some adv →
                   accepted_winner cfg pos_mode d' adv = false)
    ∧ (∃ i adv, adversaries st !! i = Some adv
                ∧ accepted_winner cfg pos_mode d adv = true)
    ∧ ∀ i, match adversaries st !! i with
           | Some adv => ∃ adv', adversaries st' !! i = Some adv'
                                 ∧ round_effect cfg pos_mode used d adv adv'
           | None => adversaries st' !! i = None
           end.
Proof.
  revert st. induction tape as [|d0 tape IH]; intros st; [done|].
  cbn [mine_block]. intros H.
  apply bind_Ok in H as ([st1 acc] & Ha & H).
  apply attempt_effect in Ha as [Hacc Heff].
  destruct acc.
  - injection H as <- <-. exists [], d0. split; [done|]. split.
    { intros d' i adv Hd'. by apply elem_of_nil in Hd'. }
    split; [by apply Hacc|].
    intros i. specialize (Heff i).
    destruct (adversaries st !! i) as [adv|]; [|done].
    destruct Heff as (adv' & ? & ?). exists adv'. split; [done|].
    by apply round_effect_of_pass.
  - assert (Hnone : ∀ i adv, adversaries st !! i = Some adv →
                             accepted_winner cfg pos_mode d0 adv = false).
    { intros i adv Hi.
      destruct (accepted_winner cfg pos_mode d0 adv) eqn:Hw; [|done].
      assert (false = true) by (apply Hacc; eauto). done. }
    apply IH in H as (used & d & -> & Hused & (j & advj & Hj & Hwj) & Hall).
    exists (d0 :: used), d. split; [done|]. split; [|split].
    + intros d' i adv Hd' Hi. apply elem_of_cons in Hd' as [->|Hd'].
      * by eapply Hnone.
      * pose proof (Heff i) as Hi1. rewrite Hi in Hi1.
        destruct Hi1 as (adv1 & Hi1 & (Hs & _)).
        rewrite <- (proj1 (same_endowment_decisions cfg pos_mode d' _ _ Hs)).
        by eapply Hused.
    + pose proof (Heff j) as Hj0.
      destruct (adversaries st !! j) as [adv|] eqn:Hjj; [|congruence].
      destruct Hj0 as (adv1 & Hj1 & (Hs & _)).
      exists j, adv. split; [done|].
      rewrite <- (proj1 (same_endowment_decisions cfg pos_mode d _ _ Hs)).
      congruence.
    + intros i. specialize (Heff i). specialize (Hall i).
      destruct (adversaries st !! i) as [adv|] eqn:Hi.
      * destruct Heff as (adv1 & Hi1 & Hp). rewrite Hi1 in Hall.
        destruct Hall as (adv' & Hi' & Hr). exists adv'. split; [done|].
        eapply round_effect_after_discarded; eauto.
      * by rewrite Heff in Hall.
Qed.

End MiningLoops.

(** ** Concrete runs *)

Section ConstantTapes.

Lemma drop_delete_same {A} (l : list A) c :
  drop c (delete c l) = drop (S c) l.
Proof.
  revert l. induction c as [|c IH]; intros [|x l]; cbn; done.
Qed.

(** Under a tape that always reads the same value [c], the sample is the
    run of the pool that starts at index [c]. *)
Lemma sample_pick_const {A} (pool : list A) k c i :
  (c + k ≤ length pool)%nat →
  sample_pick pool k (fun _ => c) i = take k (drop c pool).
Proof.
  revert pool i. induction k as [|k IH]; intros pool i Hk; [done|].
  cbn [sample_pick].
  rewrite Nat.mod_small by lia.
  destruct (lookup_lt_is_Some_2 pool c) as [x Hx]; [lia|].
  rewrite Hx. rewrite (drop_S _ _ _ Hx). cbn [take]. f_equal.
  rewrite IH by (rewrite length_delete by eauto; lia).
  f_equal. apply drop_delete_same.
Qed.

Lemma take_range_from lo n k :
  (k ≤ n)%nat → take k (range_from lo n) = range_from lo k.
Proof.
  revert lo n. induction k as [|k IH]; intros lo n Hk; [done|].
  destruct n as [|n]; [lia|]. cbn. f_equal. apply IH. lia.
Qed.

Lemma drop_range_from lo n k :
  (k ≤ n)%nat →
  drop k (range_from lo n) = range_from (lo + Z.of_nat k) (n - k).
Proof.
  revert lo n. induction k as [|k IH]; intros lo n Hk.
  - cbn. by rewrite Z.add_0_r, Nat.sub_0_r.
  - destruct n as [|n]; [lia|]. cbn [drop range_from].
    rewrite IH by lia. f_equal; lia.
Qed.

Lemma length_range_from lo n : length (range_from lo n) = n.
Proof. revert lo. induction n as [|n IH]; intros lo; cbn; [done|]. by rewrite IH. Qed.

(** The same for a range: the sample is a range. *)
Lemma sample_range_const lo hi k (c : nat) i :
  (0 ≤ k)%Z → (lo + Z.of_nat c + k ≤ hi)%Z →
  sample_pick (py_range lo hi) (Z.to_nat k) (fun _ => c) i
  = py_range (lo + Z.of_nat c) (lo + Z.of_nat c + k).
Proof.
  intros Hk Hle. unfold py_range.
  rewrite sample_pick_const by (rewrite length_range_from; lia).
  rewrite drop_range_from by lia.
  rewrite take_range_from by lia.
  f_equal; lia.
Qed.

End ConstantTapes.

Section Examples.

Lemma assign_hashes_halves cfg :
  block_hash_space cfg = 10000%Z →
  assign_hashes cfg split_halves 0 [50 # 1; 50 # 1]%Q = Ok pow_advs.
Proof.
  intros HH. cbn [assign_hashes].
  assert (Hk : hash_sample_size (50 # 1) = 5000%Z) by (vm_compute; reflexivity).
  rewrite Hk, HH.
  rewrite !random_sample_returns by (rewrite length_py_range; lia).
  change (split_halves 0) with (fun _ : nat => 0%nat).
  change (split_halves 1) with (fun _ : nat => 5000%nat).
  rewrite (sample_range_const 0 10000 5000 0 0) by lia.
  rewrite (sample_range_const 0 10000 5000 5000 0) by lia.
  reflexivity.
Qed.

Lemma pow_advs_endowed :
  calc_hashpower default_config split_halves first_always
    [50 # 1; 50 # 1]%Q [] = Ok pow_advs.
Proof.
  unfold calc_hashpower. by rewrite assign_hashes_halves.
Qed.

Lemma stake_advs_endowed :
  calc_hashpower cfg_small_pool split_halves first_always
    [50 # 1; 50 # 1]%Q [50 # 1; 50 # 1]%Q = Ok stake_advs.
Proof.
  unfold calc_hashpower. rewrite assign_hashes_halves by done.
  unfold pow_advs, stake_advs.
  generalize (py_range 0 5000) (py_range 5000 10000). intros h0 h1.
  vm_compute. reflexivity.
Qed.

End Examples.

Section Chains.

Lemma key_height_next_key pos_mode adv :
  key_height (next_key pos_mode adv) = size (chain adv).
Proof.
  unfold next_key. destruct pos_mode.
  - apply key_height_py_str.
  - apply key_height_zfill.
Qed.

Lemma chain_ok_next_key pos_mode adv :
  chain_ok adv → chain adv !! next_key pos_mode adv = None.
Proof.
  intros Hok. destruct (chain adv !! next_key pos_mode adv) eqn:Hk; [|done].
  assert (is_Some (chain adv !! next_key pos_mode adv)) as Hs by eauto.
  apply Hok in Hs. rewrite key_height_next_key in Hs. lia.
Qed.

Lemma chain_ok_insert pos_mode adv b :
  chain_ok adv →
  (∀ key, is_Some ((<[next_key pos_mode adv := b]> (chain adv)) !! key) →
          (key_height key
           < size (<[next_key pos_mode adv := b]> (chain adv)))%nat).
Proof.
  intros Hok key Hs.
  rewrite (map_size_insert_None _ _ _ (chain_ok_next_key pos_mode adv Hok)).
  destruct (decide (key = next_key pos_mode adv)) as [->|Hne].
  - rewrite key_height_next_key. lia.
  - rewrite lookup_insert_ne in Hs by done. apply Hok in Hs. lia.
Qed.

(** A chain that grows gains exactly one entry and loses none. *)
Lemma grown_chain pos_mode h adv adv' :
  chain_ok adv → grown pos_mode h adv adv' →
  size (chain adv') = S (size (chain adv))
  ∧ chain adv ⊆ chain adv'
  ∧ chain_ok adv'.
Proof.
  intros Hok (_ & (b & _ & Hc) & _).
  pose proof (chain_ok_next_key pos_mode adv Hok) as Hnone.
  split; [|split].
  - rewrite Hc. by apply map_size_insert_None.
  - rewrite Hc. by apply insert_subseteq.
  - unfold chain_ok. rewrite Hc. by apply chain_ok_insert.
Qed.

Lemma kept_chain_ok adv adv' : chain_ok adv → kept adv adv' → chain_ok adv'.
Proof. intros Hok (_ & Hc & _). unfold chain_ok. by rewrite Hc. Qed.

Lemma fresh_chain_ok adv : fresh adv → chain_ok adv.
Proof.
  intros (_ & Hc & _) key Hs. rewrite Hc, lookup_empty in Hs.
  by destruct Hs.
Qed.

End Chains.

Section Committee.

Lemma random_choices_543_range cfg u :
  random_choices_543 cfg u = 5%Z ∨ random_choices_543 cfg u = 4%Z
  ∨ random_choices_543 cfg u = 3%Z.
Proof.
  unfold random_choices_543.
  destruct (Qcompare _ _); auto; destruct (Qcompare _ _); auto.
Qed.

Lemma draw_committee_Ok cfg d k drawn :
  draw_committee cfg d = Ok (k, drawn) →
  (k = 5 ∨ k = 4 ∨ k = 3)%Z
  ∧ Z.of_nat (length drawn) = k
  ∧ NoDup drawn
  ∧ ∀ t, t ∈ drawn → (1 ≤ t < pos_avg_ticket_pool_size cfg)%Z.
Proof.
  unfold draw_committee. intros H.
  apply bind_Ok in H as (l & Hl & H). injection H as <- <-.
  apply random_sample_Ok in Hl as [Hsub Hlen].
  split; [apply random_choices_543_range|]. split; [done|]. split.
  - eapply NoDup_of_submseteq; [done|apply NoDup_py_range].
  - intros t Ht. apply elem_of_py_range. by eapply elem_of_submseteq.
Qed.

End Committee.

(** C3. With the default configuration every pass can draw its
    committee: three, four or five different tickets, all of them between
    1 and 40959. Ticket 0, which [calc_hashpower] hands out like any
    other, is never in a committee. *)
Theorem committee_never_holds_ticket_zero (d : draw) :
  ∃ k drawn,
    draw_committee default_config d = Ok (k, drawn)
    ∧ (k = 5 ∨ k = 4 ∨ k = 3)%Z
    ∧ Z.of_nat (length drawn) = k
    ∧ NoDup drawn
    ∧ (∀ t, t ∈ drawn → (1 ≤ t < 40960)%Z)
    ∧ 0%Z ∉ drawn.
Proof.
  destruct (draw_committee default_config d) as [[k drawn]| |] eqn:E.
  - exists k, drawn. split; [done|].
    destruct (draw_committee_Ok _ _ _ _ E) as (Hk & Hl & Hnd & Hr).
    repeat split; try done.
    + by apply Hr.
    + by apply Hr.
    + intros H0. apply Hr in H0. lia.
  - exfalso. unfold draw_committee in E.
    rewrite random_sample_returns in E; [done|].
    rewrite length_py_range.
    cbn [pos_avg_ticket_pool_size default_config].
    destruct (random_choices_543_range default_config (raw_votes d))
      as [->|[->| ->]]; lia.
  - exfalso. unfold draw_committee in E.
    rewrite random_sample_returns in E; [done|].
    rewrite length_py_range.
    cbn [pos_avg_ticket_pool_size default_config].
    destruct (random_choices_543_range default_config (raw_votes d))
      as [->|[->| ->]]; lia.
Qed.

(** C6, as stated, fails: a pass of stake mode that is discarded has
    counted an invalidated block for its PoW winner. *)
Lemma discarded_pass_changes_counter :
  counters stake_start = [(0, 0, 0, 0); (0, 0, 0, 0)]%nat
  ∧ after_pass (attempt cfg_small_pool true 0 (mk_draw 0 4) stake_start)
    = Some (false, [(0, 0, 0, 1); (0, 0, 0, 0)]%nat).
Proof. split; vm_compute; reflexivity. Qed.

(** A pass that is discarded. *)
Lemma attempt_discarded cfg pos_mode ch d st st' i adv :
  attempt cfg pos_mode ch d st = Ok (st', false) →
  adversaries st !! i = Some adv →
  ∃ adv', adversaries st' !! i = Some adv'
          ∧ kept adv adv'
          ∧ same_endowment adv adv'
          ∧ invalidated_blocks adv'
            = (invalidated_blocks adv
               + if (pos_mode && wins_pow (drawn_hash cfg d) adv)%bool
                 then 1 else 0)%nat.
Proof.
  intros Ha Hi.
  apply attempt_effect in Ha as [Hacc Heff].
  specialize (Heff i). rewrite Hi in Heff.
  destruct Heff as (adv' & Hi' & Hs & Hinv & Hg).
  assert (Hno : accepted_winner cfg pos_mode d adv = false).
  { destruct (accepted_winner cfg pos_mode d adv) eqn:Hw; [|done].
    assert (false = true) by (apply Hacc; eauto). done. }
  rewrite Hno in Hg. exists adv'. split; [done|]. split; [done|].
  split; [done|]. rewrite Hinv. f_equal.
  unfold failed_validation. unfold accepted_winner in Hno.
  destruct pos_mode; [|done]. cbn.
  destruct (wins_pow (drawn_hash cfg d) adv); [|done].
  cbn in Hno. by rewrite Hno.
Qed.

(** C6, amended. A discarded pass leaves the chain, the list of drawn
    blocks, [sum_blocks] and [validated_blocks] of every adversary as they
    were, and in stake mode counts one invalidated block for each of its
    PoW winners. When [mine_block] returns, the chains of the winners of
    the accepted pass (in stake mode the confirmed ones) have one block
    more and no block less, and every other chain is as it was. *)
Theorem mine_block_frame cfg pos_mode ch :
  (∀ d st st' i adv,
     attempt cfg pos_mode ch d st = Ok (st', false) →
     adversaries st !! i = Some adv →
     ∃ adv', adversaries st' !! i = Some adv'
             ∧ kept adv adv'
             ∧ same_endowment adv adv'
             ∧ invalidated_blocks adv'
               = (invalidated_blocks adv
                  + if (pos_mode && wins_pow (drawn_hash cfg d) adv)%bool
                    then 1 else 0)%nat)
  ∧ (∀ tape st st' rest,
       Forall chain_ok (adversaries st) →
       mine_block cfg pos_mode ch tape st = Ok (st', rest) →
       ∃ used d,
         tape = used ++ d :: rest
         ∧ (∀ d' i adv, d' ∈ used → adversaries st !! i = Some adv →
                        accepted_winner cfg pos_mode d' adv = false)
         ∧ ∀ i adv,
             adversaries st !! i = Some adv →
             ∃ adv', adversaries st' !! i = Some adv'
                     ∧ if accepted_winner cfg pos_mode d adv
                       then size (chain adv') = S (size (chain adv))
                            ∧ chain adv ⊆ chain adv'
                       else chain adv' = chain adv).
Proof.
  split.
  - intros d st st' i adv. apply attempt_discarded.
  - intros tape st st' rest Hok Hm.
    apply mine_block_effect in Hm as (used & d & -> & Hused & _ & Hall).
    exists used, d. split; [done|]. split; [done|].
    intros i adv Hi. specialize (Hall i). rewrite Hi in Hall.
    destruct Hall as (adv' & Hi' & _ & _ & Hg). exists adv'. split; [done|].
    destruct (accepted_winner cfg pos_mode d adv).
    + eapply Forall_lookup_1 in Hok; [|done].
      destruct (grown_chain _ _ _ _ Hok Hg) as (? & ? & _). done.
    + apply Hg.
Qed.

Lemma stake_advs_chain_ok : Forall chain_ok stake_advs.
Proof.
  repeat constructor; intros key Hs; cbn in Hs;
    rewrite lookup_empty in Hs; by destruct Hs.
Qed.

Lemma mine_block_frame_witness :
  ∃ adv st1 st2 rest,
    adversaries stake_start !! 0%nat = Some adv
    ∧ attempt cfg_small_pool true 0 (mk_draw 0 4) stake_start
      = Ok (st1, false)
    ∧ mine_block cfg_small_pool true 0 two_passes stake_start
      = Ok (st2, rest)
    ∧ (∃ adv', adversaries st1 !! 0%nat = Some adv'
               ∧ kept adv adv'
               ∧ same_endowment adv adv'
               ∧ invalidated_blocks adv'
                 = (invalidated_blocks adv
                    + if (true && wins_pow
                                    (drawn_hash cfg_small_pool (mk_draw 0 4))
                                    adv)%bool
                      then 1 else 0)%nat)
    ∧ (∃ used d,
         two_passes = used ++ d :: rest
         ∧ (∀ d' i adv, d' ∈ used →
                        adversaries stake_start !! i = Some adv →
                        accepted_winner cfg_small_pool true d' adv = false)
         ∧ ∀ i adv,
             adversaries stake_start !! i = Some adv →
             ∃ adv', adversaries st2 !! i = Some adv'
                     ∧ if accepted_winner cfg_small_pool true d adv
                       then size (chain adv') = S (size (chain adv))
                            ∧ chain adv ⊆ chain adv'
                       else chain adv' = chain adv).
Proof.
  assert (O1 : after_pass
                 (attempt cfg_small_pool true 0 (mk_draw 0 4) stake_start)
               = Some (false, [(0, 0, 0, 1); (0, 0, 0, 0)]%nat))
    by (vm_compute; reflexivity).
  assert (O2 : after_round
                 (mine_block cfg_small_pool true 0 two_passes stake_start)
               = Some ([(1, 1, 1, 1); (0, 0, 0, 0)]%nat, 0%nat))
    by (vm_compute; reflexivity).
  destruct (attempt cfg_small_pool true 0 (mk_draw 0 4) stake_start)
    as [[st1 acc]| |] eqn:E1; try discriminate O1.
  injection O1 as -> _.
  destruct (mine_block cfg_small_pool true 0 two_passes stake_start)
    as [[st2 rest]| |] eqn:E2; try discriminate O2.
  destruct (mine_block_frame cfg_small_pool true 0%nat) as [HA HB].
  eexists _, st1, st2, rest. split; [reflexivity|].
  split; [reflexivity|]. split; [reflexivity|]. split.
  - eapply HA; [exact E1|reflexivity].
  - apply HB; [apply stake_advs_chain_ok|exact E2].
Defined.

Section Distance.

Lemma bind_Raise {A B} (r : result A) (k : A → result B) e :
  r ≫= k = Raise e → r = Raise e ∨ ∃ a, r = Ok a ∧ k a = Raise e.
Proof.
  destruct r as [a|e'|]; cbn; intros H.
  - right. by exists a.
  - left. by injection H as ->.
  - done.
Qed.

Lemma record_milestone_Ok ch d advs sm sm' :
  record_milestone ch d advs sm = Ok sm' →
  (d ≤ 6)%nat ∧ cycles sm' = cycles sm.
Proof.
  unfold record_milestone.
  destruct (_ && _)%bool eqn:H2.
  - apply andb_true_iff in H2 as [H2 _]. apply Nat.eqb_eq in H2.
    intros H. apply bind_Ok in H as (w & _ & H). injection H as <-.
    split; [lia|done].
  - destruct (d =? 6)%nat eqn:H6.
    + apply Nat.eqb_eq in H6.
      intros H. apply bind_Ok in H as (w & _ & H). injection H as <-.
      split; [lia|done].
    + destruct (6 <? d)%nat eqn:Hgt; [done|].
      apply Nat.ltb_ge in Hgt. intros [= <-]. done.
Qed.

Lemma record_milestone_fatal ch d advs sm :
  (6 < d)%nat → record_milestone ch d advs sm = Raise (SystemExit 5).
Proof.
  intros Hd. unfold record_milestone.
  replace (d =? 2)%nat with false by (symmetry; apply Nat.eqb_neq; lia).
  replace (d =? 6)%nat with false by (symmetry; apply Nat.eqb_neq; lia).
  replace (6 <? d)%nat with true by (symmetry; apply Nat.ltb_lt; lia).
  done.
Qed.

Lemma milestone_winner_no_exit advs c :
  milestone_winner advs ≠ Raise (SystemExit c).
Proof. unfold milestone_winner. by destruct (winner_list advs). Qed.

Lemma record_milestone_exit ch d advs sm c :
  record_milestone ch d advs sm = Raise (SystemExit c) → (6 < d)%nat.
Proof.
  unfold record_milestone.
  destruct (_ && _)%bool.
  { intros H. apply bind_Raise in H as [H|(w & _ & H)]; [|done].
    by apply milestone_winner_no_exit in H. }
  destruct (d =? 6)%nat.
  { intros H. apply bind_Raise in H as [H|(w & _ & H)]; [|done].
    by apply milestone_winner_no_exit in H. }
  destruct (6 <? d)%nat eqn:Hgt; [|done].
  by apply Nat.ltb_lt in Hgt.
Qed.

Lemma record_probability_Ok pos_mode ch d lag advs sm sm' :
  record_probability pos_mode ch d lag advs sm = Ok sm' →
  block_diff_2 sm' = block_diff_2 sm ∧ block_diff_6 sm' = block_diff_6 sm
  ∧ block_diff_2_winner sm' = block_diff_2_winner sm
  ∧ block_diff_6_winner sm' = block_diff_6_winner sm.
Proof.
  unfold record_probability. destruct lag as [l|]; [|by intros [= <-]].
  destruct (advs !! l) as [adv|]; [|done].
  destruct (laggard_wins_surely pos_mode adv); [done|].
  by intros [= <-].
Qed.

Lemma record_probability_no_exit pos_mode ch d lag advs sm c :
  record_probability pos_mode ch d lag advs sm ≠ Raise (SystemExit c).
Proof.
  unfold record_probability. destruct lag as [l|]; [|done].
  destruct (advs !! l) as [adv|]; [|done].
  by destruct (laggard_wins_surely pos_mode adv).
Qed.

Lemma calculated_distance_nil : calculated_distance [] = 0%nat.
Proof. reflexivity. Qed.

(** A call of [calc_distance] that returns: the adversaries are as they
    were, and the distance is the one of their lists unless the run has
    not started. *)
Lemma calc_distance_Ok pos_mode ch st d st1 :
  calc_distance pos_mode ch st = Ok (d, st1) →
  adversaries st1 = adversaries st
  ∧ (d ≤ 6)%nat
  ∧ (ch = 0%nat ∧ d = 0%nat ∧ st1 = st
     ∨ (1 ≤ ch)%nat ∧ d = calculated_distance (adversaries st)).
Proof.
  unfold calc_distance. destruct (ch <? 1)%nat eqn:Hch.
  - apply Nat.ltb_lt in Hch. intros [= <- <-].
    split; [done|]. split; [lia|]. left. split; [lia|done].
  - apply Nat.ltb_ge in Hch. intros H.
    apply bind_Ok in H as (hi & _ & H).
    apply bind_Ok in H as (lo & _ & H).
    destruct (find_lag_lead lo hi 0 (adversaries st) (None, None))
      as [lag lead].
    apply bind_Ok in H as (sm1 & H1 & H).
    apply bind_Ok in H as (sm2 & H2 & H).
    injection H as <- <-. apply record_milestone_Ok in H1 as [H1 _].
    split; [done|]. split; [done|]. right. done.
Qed.

(** The fatal branch: a distance above 6 that is observed ends the call
    with [exit(5)]. *)
Lemma calc_distance_fatal pos_mode ch st :
  (1 ≤ ch)%nat → (6 < calculated_distance (adversaries st))%nat →
  calc_distance pos_mode ch st = Raise (SystemExit 5).
Proof.
  intros Hch Hd. unfold calc_distance.
  replace (ch <? 1)%nat with false by (symmetry; apply Nat.ltb_ge; lia).
  destruct (adversaries st) as [|adv advs] eqn:Hadvs.
  { rewrite calculated_distance_nil in Hd. lia. }
  cbn [heights fmap list_fmap py_max py_min mbind result_bind].
  destruct (find_lag_lead _ _ _ _ _) as [lag lead].
  by rewrite record_milestone_fatal.
Qed.

(** The converse: [exit(5)] only comes from an observed distance
    above 6. *)
Lemma calc_distance_exit pos_mode ch st c :
  calc_distance pos_mode ch st = Raise (SystemExit c) →
  (1 ≤ ch)%nat ∧ (6 < calculated_distance (adversaries st))%nat
  ∧ c = 5%Z.
Proof.
  unfold calc_distance. destruct (ch <? 1)%nat eqn:Hch; [done|].
  apply Nat.ltb_ge in Hch. intros H.
  apply bind_Raise in H as [H|(hi & _ & H)].
  { unfold py_max in H. by destruct (heights _). }
  apply bind_Raise in H as [H|(lo & _ & H)].
  { unfold py_min in H. by destruct (heights _). }
  destruct (find_lag_lead lo hi 0 (adversaries st) (None, None))
    as [lag lead].
  apply bind_Raise in H as [H|(sm1 & H1 & H)].
  - pose proof (record_milestone_exit _ _ _ _ _ H) as Hd.
    rewrite record_milestone_fatal in H by done.
    injection H as <-. done.
  - apply bind_Raise in H as [H|(sm2 & _ & H)]; [|done].
    by apply record_probability_no_exit in H.
Qed.

Lemma max_list_bound (l : list nat) B :
  (∀ x, x ∈ l → (x ≤ B)%nat) → (max_list l ≤ B)%nat.
Proof.
  induction l as [|x l IH]; intros H; cbn; [lia|].
  apply Nat.max_lub.
  - apply H. by left.
  - apply IH. intros y Hy. apply H. by right.
Qed.

Lemma elem_of_distances sq x :
  x ∈ distances sq
  ↔ ∃ i j, i ∈ sq ∧ j ∈ sq ∧ i ≠ j ∧ x = abs_diff i j.
Proof.
  unfold distances. rewrite list_elem_of_In, in_flat_map. split.
  - intros (i & Hi & Hx). apply list_elem_of_In in Hi, Hx.
    apply list_elem_of_fmap in Hx as (j & -> & Hj).
    apply list_elem_of_filter in Hj as [Hne Hj]. by exists i, j.
  - intros (i & j & Hi & Hj & Hne & ->). exists i.
    split; [by apply list_elem_of_In|].
    apply list_elem_of_In, list_elem_of_fmap. exists j. split; [done|].
    by apply list_elem_of_filter.
Qed.

(** When no list grows by more than one entry, the distance grows by at
    most one. *)
Lemma distance_step (sq sq' : list nat) :
  Forall2 (fun a a' => a ≤ a' ≤ a + 1)%nat sq sq' →
  (max_list (distances sq') ≤ max_list (distances sq) + 1)%nat.
Proof.
  intros HF. apply max_list_bound. intros x Hx.
  apply elem_of_distances in Hx as (i' & j' & Hi' & Hj' & Hne & ->).
  apply list_elem_of_lookup in Hi' as [n Hn], Hj' as [m Hm].
  destruct (Forall2_lookup_r _ _ _ _ _ HF Hn) as (i & Hi & Hii).
  destruct (Forall2_lookup_r _ _ _ _ _ HF Hm) as (j & Hj & Hjj).
  destruct (decide (i = j)) as [->|Hij].
  - unfold abs_diff. destruct (i' <? j')%nat eqn:Hlt;
      [apply Nat.ltb_lt in Hlt|apply Nat.ltb_ge in Hlt]; lia.
  - assert (abs_diff i j ≤ max_list (distances sq))%nat as Hle.
    { apply max_list_elem_of_le, elem_of_distances.
      exists i, j. repeat split; try done.
      - by eapply list_elem_of_lookup_2.
      - by eapply list_elem_of_lookup_2. }
    revert Hle. unfold abs_diff.
    destruct (i' <? j')%nat eqn:Hlt;
      [apply Nat.ltb_lt in Hlt|apply Nat.ltb_ge in Hlt];
      destruct (i <? j)%nat eqn:Hlt';
      [apply Nat.ltb_lt in Hlt'|apply Nat.ltb_ge in Hlt'
      |apply Nat.ltb_lt in Hlt'|apply Nat.ltb_ge in Hlt']; lia.
Qed.

Lemma heights_update_sum_blocks st :
  heights (adversaries (update_sum_blocks st)) = heights (adversaries st).
Proof.
  unfold heights, update_sum_blocks. cbn.
  rewrite <- list_fmap_compose. done.
Qed.

Lemma round_effect_height cfg pos_mode used d adv adv' :
  round_effect cfg pos_mode used d adv adv' →
  (length (drawn_block_hashes adv) ≤ length (drawn_block_hashes adv')
   ≤ length (drawn_block_hashes adv) + 1)%nat.
Proof.
  intros (_ & _ & Hg). destruct (accepted_winner cfg pos_mode d adv).
  - destruct Hg as (-> & _). rewrite length_app. cbn. lia.
  - destruct Hg as (-> & _). lia.
Qed.

(** One round moves the distance by at most one. *)
Lemma mine_block_distance cfg pos_mode ch tape st st' rest :
  mine_block cfg pos_mode ch tape st = Ok (st', rest) →
  (calculated_distance (adversaries st')
   ≤ calculated_distance (adversaries st) + 1)%nat.
Proof.
  intros H. apply mine_block_effect in H as (used & d & _ & _ & _ & Hall).
  unfold calculated_distance. apply distance_step.
  unfold heights. apply Forall2_fmap, Forall2_lookup. intros i.
  specialize (Hall i). destruct (adversaries st !! i) as [adv|].
  - destruct Hall as (adv' & -> & Hr). constructor.
    by eapply round_effect_height.
  - rewrite Hall. constructor.
Qed.

Lemma attempt_no_exit cfg pos_mode ch d st c :
  attempt cfg pos_mode ch d st ≠ Raise (SystemExit c).
Proof.
  unfold attempt. intros H.
  apply bind_Raise in H as [H|(h & _ & H)].
  { unfold random_choice_range in H. by destruct (_ <=? _)%Z. }
  destruct (truthy _); [|done]. destruct pos_mode; [|done].
  apply bind_Raise in H as [H|([k drawn] & _ & H)]; [|done].
  unfold draw_committee in H.
  apply bind_Raise in H as [H|(l & _ & H)]; [|done].
  unfold random_sample in H. by destruct (_ || _)%bool.
Qed.

Lemma mine_block_no_exit cfg pos_mode ch tape st c :
  mine_block cfg pos_mode ch tape st ≠ Raise (SystemExit c).
Proof.
  revert st. induction tape as [|d tape IH]; intros st; [done|].
  cbn [mine_block]. intros H.
  apply bind_Raise in H as [H|([st1 acc] & _ & H)].
  - by apply attempt_no_exit in H.
  - destruct acc; [done|]. by apply IH in H.
Qed.

(** The fatal branch is out of reach of a run that starts within
    distance 6 (within 5 when the first observation is skipped). *)
Lemma run_loop_no_exit cfg pos_mode fuel tape ch st c :
  (calculated_distance (adversaries st) ≤ 5)%nat
  ∨ (1 ≤ ch)%nat ∧ (calculated_distance (adversaries st) ≤ 6)%nat →
  run_loop cfg pos_mode fuel tape ch st ≠ Raise (SystemExit c).
Proof.
  revert tape ch st. induction fuel as [|fuel IH]; intros tape ch st Hinv;
    [done|].
  cbn [run_loop]. intros H.
  apply bind_Raise in H as [H|([d st1] & Hd & H)].
  - apply calc_distance_exit in H as (? & ? & _). lia.
  - apply calc_distance_Ok in Hd as (Hadv & _ & Hcase).
    destruct (d <? 6)%nat eqn:Hlt; [|done]. apply Nat.ltb_lt in Hlt.
    apply bind_Raise in H as [H|([st2 tape'] & Hm & H)].
    + by apply mine_block_no_exit in H.
    + apply IH in H; [done|]. right. split; [lia|].
      unfold calculated_distance. rewrite heights_update_sum_blocks.
      apply mine_block_distance in Hm. unfold calculated_distance in *.
      rewrite Hadv in Hm. destruct Hcase as [(-> & _ & _)|[? ->]]; lia.
Qed.

(** A run only ends, other than by an exception, on an observed distance
    of exactly 6. *)
Lemma run_loop_Ok cfg pos_mode fuel tape ch st st' :
  run_loop cfg pos_mode fuel tape ch st = Ok st' →
  calculated_distance (adversaries st') = 6%nat.
Proof.
  revert tape ch st. induction fuel as [|fuel IH]; intros tape ch st;
    [done|].
  cbn [run_loop]. intros H.
  apply bind_Ok in H as ([d st1] & Hd & H).
  apply calc_distance_Ok in Hd as (Hadv & Hle & Hcase).
  destruct (d <? 6)%nat eqn:Hlt.
  - apply bind_Ok in H as ([st2 tape'] & Hm & H). by apply IH in H.
  - apply Nat.ltb_ge in Hlt. injection H as <-. rewrite Hadv.
    destruct Hcase as [(_ & -> & _)|[_ <-]]; lia.
Qed.

End Distance.

(** ** The precondition checks: [sanity_check] *)

Section Rewind.


Lemma rewind_loop_spec pos_mode a bs st :
  (a < length (adversaries st))%nat →
  ∃ st',
    rewind_loop pos_mode a bs st = Ok st'
    ∧ length (adversaries st') = length (adversaries st)
    ∧ (∀ i, i ≠ a → adversaries st' !! i = adversaries st !! i)
    ∧ (∀ adv, adversaries st !! a = Some adv →
              ∃ adv', adversaries st' !! a = Some adv'
                      ∧ length (drawn_block_hashes adv')
                        = (length (drawn_block_hashes adv) + length bs)%nat)
    ∧ (size (cycles (sim st)) ≤ size (cycles (sim st')))%nat
    ∧ (bs ≠ [] → (1 ≤ size (cycles (sim st')))%nat).
Proof.
  revert st. induction bs as [|b bs IH]; intros st Ha.
  - exists st. cbn. repeat split; try done.
    intros adv Hadv. exists adv. split; [done|]. lia.
  - cbn [rewind_loop].
    destruct (lookup_lt_is_Some_2 _ _ Ha) as [adv Hadv]. rewrite Hadv.
    set (st1 := {| adversaries := _; sim := _ |}).
    destruct (IH st1) as (st' & Hr & Hlen & Hother & Hself & Hsz & _).
    { cbn. by rewrite length_insert. }
    exists st'. split; [done|]. split; [|split; [|split; [|split]]].
    + rewrite Hlen. cbn. by rewrite length_insert.
    + intros i Hi. rewrite Hother by done. cbn.
      by rewrite list_lookup_insert_ne.
    + intros adv0 Hadv0. injection Hadv0 as <-.
      destruct (Hself (adv_insert_chain
                         (adv_append_drawn adv ("RWB" ++ py_str b)%string)
                         (zfill 3 (py_str
                            (size (chain (adv_append_drawn adv
                                            ("RWB" ++ py_str b)%string)))))
                         (rewind_block pos_mode ("RWB" ++ py_str b)%string)))
        as (adv' & Hadv' & Hl).
      { cbn. by rewrite list_lookup_insert_eq. }
      exists adv'. split; [done|]. rewrite Hl. cbn.
      rewrite length_app. cbn. lia.
    + etransitivity; [|exact Hsz]. cbn. rewrite map_size_insert.
      destruct (cycles (sim st) !! py_str b); cbn; lia.
    + intros _. etransitivity; [|exact Hsz]. cbn. rewrite map_size_insert.
      destruct (cycles (sim st) !! py_str b) eqn:Hc; cbn; [|lia].
      destruct (decide (size (cycles (sim st)) = 0%nat)) as [Hz|]; [|lia].
      apply map_size_empty_iff in Hz. rewrite Hz, lookup_empty in Hc. done.
Qed.

(** One list of length [r] among lists of length 0: the distance is
    [r]. *)
Lemma distance_one_ahead (sq : list nat) a r :
  (2 ≤ length sq)%nat → sq !! a = Some r →
  (∀ i x, i ≠ a → sq !! i = Some x → x = 0%nat) →
  max_list (distances sq) = r.
Proof.
  intros Hlen Ha Hothers. apply Nat.le_antisymm.
  - apply max_list_bound. intros x Hx.
    apply elem_of_distances in Hx as (i & j & Hi & Hj & _ & ->).
    assert (Hval : ∀ v, v ∈ sq → v = r ∨ v = 0%nat).
    { intros v Hv. apply list_elem_of_lookup in Hv as [n Hn].
      destruct (decide (n = a)) as [->|Hne].
      - left. congruence.
      - right. by eapply Hothers. }
    unfold abs_diff.
    destruct (Hval i Hi) as [->| ->], (Hval j Hj) as [->| ->];
      destruct (_ <? _)%nat; lia.
  - destruct (decide (r = 0%nat)) as [->|Hr]; [lia|].
    apply max_list_elem_of_le, elem_of_distances.
    assert (∃ b, b ≠ a ∧ (b < length sq)%nat) as (b & Hb & Hlt).
    { destruct a as [|a]; [exists 1%nat|exists 0%nat]; split; lia. }
    destruct (lookup_lt_is_Some_2 _ _ Hlt) as [x Hx].
    pose proof (Hothers _ _ Hb Hx) as ->.
    exists r, 0%nat. split; [by eapply list_elem_of_lookup_2|].
    split; [by eapply list_elem_of_lookup_2|]. split; [done|].
    unfold abs_diff. destruct (r <? 0)%nat eqn:E; [|lia].
    apply Nat.ltb_lt in E. lia.
Qed.

(** The rewind on a fresh endowment: it returns, the run starts at a
    cycle height of at least one, and the distance is the number of
    blocks pre-mined. *)
Lemma setup_block_rewind_fresh pos_mode r a advs :
  Forall fresh advs → (2 ≤ length advs)%nat → (a < length advs)%nat →
  (1 ≤ r)%nat →
  ∃ st',
    setup_block_rewind pos_mode r a
      {| adversaries := advs; sim := create_simulation |} = Ok st'
    ∧ calculated_distance (adversaries st') = r
    ∧ (1 ≤ size (cycles (sim st')))%nat.
Proof.
  intros Hfresh Hlen Ha Hr. unfold setup_block_rewind.
  destruct (rewind_loop_spec pos_mode a (seq 0 r)
              {| adversaries := advs; sim := create_simulation |} Ha)
    as (st' & Hrun & Hl & Hother & Hself & _ & Hsz).
  exists st'. split; [done|]. cbn in *. split.
  - unfold calculated_distance.
    destruct (lookup_lt_is_Some_2 _ _ Ha) as [adv Hadv].
    destruct (Hself _ Hadv) as (adv' & Hadv' & Hheight).
    apply (distance_one_ahead _ a).
    + unfold heights. by rewrite length_fmap, Hl.
    + unfold heights. rewrite list_lookup_fmap, Hadv'. cbn.
      rewrite Hheight, length_seq.
      eapply Forall_lookup_1 in Hfresh; [|exact Hadv].
      destruct Hfresh as (-> & _). done.
    + intros i x Hi. unfold heights. rewrite list_lookup_fmap, Hother by done.
      destruct (advs !! i) as [advi|] eqn:Hadvi; [|done].
      cbn. intros [= <-].
      eapply Forall_lookup_1 in Hfresh; [|exact Hadvi].
      by destruct Hfresh as (-> & _).
  - apply Hsz. destruct r; [lia|done].
Qed.

Lemma assign_tickets_length cfg rnd idx stake pool advs advs' :
  assign_tickets cfg rnd idx stake pool advs = Ok advs' →
  length advs' = length advs.
Proof.
  revert idx pool advs.
  induction stake as [|s stake IH]; intros idx pool advs; cbn.
  - by intros [= <-].
  - destruct (advs !! idx) as [adv|]; [|done]. intros H.
    apply bind_Ok in H as (tickets & _ & H).
    apply IH in H. by rewrite length_insert in H.
Qed.

Lemma calc_hashpower_length cfg rnd_h rnd_t pw stake advs :
  calc_hashpower cfg rnd_h rnd_t pw stake = Ok advs →
  length advs = length pw.
Proof.
  unfold calc_hashpower. intros H.
  apply bind_Ok in H as (advs0 & H0 & H).
  apply assign_hashes_length in H0.
  destruct (truthy stake).
  - apply bind_Ok in H as (advs1 & H1 & H).
    destruct (_ <? _)%nat; [done|]. injection H as <-.
    apply assign_tickets_length in H1. congruence.
  - injection H as <-. done.
Qed.

End Rewind.

Section Runs.

Lemma fresh_distance advs :
  Forall fresh advs → calculated_distance advs = 0%nat.
Proof.
  intros Hf. unfold calculated_distance.
  apply Nat.le_antisymm; [|lia]. apply max_list_bound. intros x Hx.
  apply elem_of_distances in Hx as (i & j & Hi & Hj & Hne & _).
  assert (Hz : ∀ v, v ∈ heights advs → v = 0%nat).
  { intros v Hv. apply list_elem_of_fmap in Hv as (adv & -> & Hadv).
    rewrite Forall_forall in Hf.
    by destruct (Hf _ Hadv) as (-> & _). }
  rewrite (Hz i Hi), (Hz j Hj) in Hne. done.
Qed.

Lemma run_to_end_no_exit cfg pos_mode tape st c :
  (calculated_distance (adversaries st) ≤ 5)%nat
  ∨ (1 ≤ size (cycles (sim st)))%nat
    ∧ (calculated_distance (adversaries st) ≤ 6)%nat →
  run_to_end cfg pos_mode tape st ≠ Raise (SystemExit c).
Proof. intros H. unfold run_to_end. by apply run_loop_no_exit. Qed.

End Runs.

(** C7. An observed distance above 6 ends [calc_distance] with
    [exit(5)]; a call that returns has a distance of at most 6, and the
    loop of [run_simulation] mines another round exactly when it is below
    6; a run that ends does so at distance 6; and from a fresh endowment,
    with no rewind or with one of at most six blocks, no sequence of
    draws leads to [exit(5)]. *)
Theorem run_ends_exactly_at_six cfg pos_mode :
  (∀ ch st,
     (1 ≤ ch)%nat → (6 < calculated_distance (adversaries st))%nat →
     calc_distance pos_mode ch st = Raise (SystemExit 5))
  ∧ (∀ ch st d st1 fuel tape,
       calc_distance pos_mode ch st = Ok (d, st1) →
       (d ≤ 6)%nat
       ∧ run_loop cfg pos_mode (S fuel) tape ch st
         = if (d <? 6)%nat
           then mine_block cfg pos_mode ch tape st1
                  ≫= (fun r => run_loop cfg pos_mode fuel r.2 (ch + 1)
                                 (update_sum_blocks r.1))
           else Ok st1)
  ∧ (∀ tape st st',
       run_to_end cfg pos_mode tape st = Ok st' →
       calculated_distance (adversaries st') = 6%nat)
  ∧ (∀ tape advs r a st c,
       Forall fresh advs → (r ≤ 6)%nat →
       (if (0 <? r)%nat
        then setup_block_rewind pos_mode r a
               {| adversaries := advs; sim := create_simulation |}
        else Ok {| adversaries := advs; sim := create_simulation |})
       = Ok st →
       run_to_end cfg pos_mode tape st ≠ Raise (SystemExit c)).
Proof.
  split; [|split; [|split]].
  - intros ch st. apply calc_distance_fatal.
  - intros ch st d st1 fuel tape Hd. split.
    + by apply calc_distance_Ok in Hd as (_ & ? & _).
    + cbn [run_loop]. rewrite Hd. cbn [mbind result_bind].
      destruct (d <? 6)%nat; [|done].
      by destruct (mine_block cfg pos_mode ch tape st1) as [[? ?]| |].
  - intros tape st st'. unfold run_to_end. apply run_loop_Ok.
  - intros tape advs r a st c Hfresh Hr Hst.
    apply run_to_end_no_exit.
    destruct (0 <? r)%nat eqn:H0.
    + apply Nat.ltb_lt in H0.
      destruct (decide (2 ≤ length advs)%nat) as [H2|H2].
      * unfold setup_block_rewind in Hst.
        destruct (adversaries
                    {| adversaries := advs; sim := create_simulation |}
                  !! a) as [adv|] eqn:Ha.
        -- apply lookup_lt_Some in Ha. cbn in Ha.
           destruct (setup_block_rewind_fresh pos_mode r a advs)
             as (st2 & Hst2 & Hdist & Hsz); try done.
           unfold setup_block_rewind in Hst2. rewrite Hst in Hst2.
           injection Hst2 as <-. right. split; [done|]. lia.
        -- destruct r; [lia|]. cbn in Hst. cbn in Ha. by rewrite Ha in Hst.
      * left.
        assert (calculated_distance (adversaries st) = 0%nat) as ->; [|lia].
        unfold setup_block_rewind in Hst.
        destruct (decide (a < length advs)%nat) as [Ha|Ha].
        -- destruct (rewind_loop_spec pos_mode a (seq 0 r)
                       {| adversaries := advs; sim := create_simulation |}
                       Ha) as (st2 & Hst2 & Hl & _).
           rewrite Hst in Hst2. injection Hst2 as <-. cbn in Hl.
           unfold calculated_distance, heights.
           destruct (adversaries st) as [|x [|y l]]; cbn in *; try done.
           ++ unfold distances. cbn. rewrite decide_False by (intros ?; done).
              done.
           ++ lia.
        -- destruct r; [lia|]. cbn in Hst.
           rewrite lookup_ge_None_2 in Hst by lia. done.
    + injection Hst as <-. left. cbn [adversaries].
      rewrite fresh_distance by done. lia.
Qed.

Lemma run_ends_exactly_at_six_witness :
  calc_distance false 7 rewound_seven = Raise (SystemExit 5)
  ∧ (∃ st', run_to_end default_config false lead_tape pow_start = Ok st'
            ∧ calculated_distance (adversaries st') = 6%nat)
  ∧ run_to_end default_config false lead_tape pow_start
    ≠ Raise (SystemExit 5).
Proof.
  destruct (run_ends_exactly_at_six default_config false)
    as (H1 & _ & H3 & H4).
  split; [|split].
  - apply H1; [lia|]. vm_compute. lia.
  - assert (O : after_run
                  (run_to_end default_config false lead_tape pow_start)
                = Some (19%Z, Some 1%nat, Some "8"%string, 23%Z, Some 1%nat,
                        Some "8"%string, [14; 8]%nat))
      by (vm_compute; reflexivity).
    destruct (run_to_end default_config false lead_tape pow_start)
      as [st'| |] eqn:E; try discriminate O.
    exists st'. split; [reflexivity|]. by apply (H3 lead_tape pow_start).
  - apply (H4 lead_tape pow_advs 0%nat 0%nat pow_start 5%Z).
    + repeat constructor.
    + lia.
    + reflexivity.
Defined.



(** C2. In the run [lead_tape] the first adversary is two blocks ahead for
    the first time with 10 blocks against 8, and six blocks ahead with 14
    against 8. Both times the winner recorded is the second adversary,
    with the score ["8"]: the scores are compared as strings, and ["8"]
    is greater than ["10"] and ["14"]. *)
Theorem milestone_winner_compares_strings :
  after_run (run_to_end default_config false lead_tape pow_start)
  = Some (19%Z, Some 1%nat, Some "8"%string,
          23%Z, Some 1%nat, Some "8"%string, [14; 8]%nat)
  ∧ (∀ a0 a1,
       milestone_winner [adv_set_sum_blocks a0 10; adv_set_sum_blocks a1 8]
       = Ok (1%nat, "8"%string))
  ∧ (∀ a0 a1,
       milestone_winner [adv_set_sum_blocks a0 14; adv_set_sum_blocks a1 8]
       = Ok (1%nat, "8"%string)).
Proof.
  split; [vm_compute; reflexivity|]. split; intros a0 a1; reflexivity.
Qed.

Section Invalidations.

Lemma failed_validations_app cfg l1 l2 adv :
  failed_validations cfg (l1 ++ l2) adv
  = (failed_validations cfg l1 adv + failed_validations cfg l2 adv)%nat.
Proof.
  unfold failed_validations. by rewrite List.filter_app, length_app.
Qed.

Lemma same_endowment_trans a b c :
  same_endowment a b → same_endowment b c → same_endowment a c.
Proof.
  intros (?&?&?&?) (?&?&?&?). repeat split; congruence.
Qed.

(** Over a whole run [invalidated_blocks] grows by the number of passes
    read in which the validation of the adversary failed. *)
Lemma run_loop_invalidated cfg pos_mode fuel tape ch st st' :
  run_loop cfg pos_mode fuel tape ch st = Ok st' →
  ∃ consumed rest,
    tape = consumed ++ rest
    ∧ ∀ i, match adversaries st !! i with
           | Some adv =>
               ∃ adv', adversaries st' !! i = Some adv'
                       ∧ same_endowment adv adv'
                       ∧ invalidated_blocks adv'
                         = (invalidated_blocks adv
                            + if pos_mode
                              then failed_validations cfg consumed adv
                              else 0)%nat
           | None => adversaries st' !! i = None
           end.
Proof.
  revert tape ch st. induction fuel as [|fuel IH]; intros tape ch st;
    [done|].
  cbn [run_loop]. intros H.
  apply bind_Ok in H as ([d st1] & Hd & H).
  apply calc_distance_Ok in Hd as (Hadv & _ & _).
  destruct (d <? 6)%nat.
  - apply bind_Ok in H as ([st2 tape'] & Hm & H).
    apply mine_block_effect in Hm as (used & d0 & -> & _ & _ & Hall).
    apply IH in H as (consumed & rest & -> & Hrest).
    exists ((used ++ [d0]) ++ consumed), rest.
    split; [by rewrite <- !app_assoc|].
    intros i. specialize (Hall i). specialize (Hrest i).
    rewrite Hadv in Hall.
    destruct (adversaries st !! i) as [adv|].
    + destruct Hall as (adv2 & Hi2 & Hs2 & Hinv2 & _).
      cbn [update_sum_blocks adversaries] in Hrest.
      rewrite list_lookup_fmap, Hi2 in Hrest. cbn in Hrest.
      destruct Hrest as (adv' & Hi' & Hs' & Hinv').
      exists adv'. split; [done|]. split.
      * eapply same_endowment_trans; [exact Hs2|].
        destruct Hs' as (?&?&?&?). by repeat split.
      * rewrite Hinv'. cbn [invalidated_blocks adv_set_sum_blocks].
        rewrite Hinv2. destruct pos_mode; cbv iota; [|lia].
        rewrite !failed_validations_app.
        rewrite (failed_validations_same cfg consumed adv
                   (adv_set_sum_blocks adv2
                      (length (drawn_block_hashes adv2)))).
        -- lia.
        -- destruct Hs2 as (?&?&?&?). by repeat split.
    + cbn [update_sum_blocks adversaries] in Hrest.
      by rewrite list_lookup_fmap, Hall in Hrest.
  - injection H as <-. exists [], tape. split; [done|].
    intros i. rewrite Hadv.
    destruct (adversaries st !! i) as [adv|]; [|done].
    exists adv. split; [done|]. split; [apply same_endowment_refl|].
    unfold failed_validations. cbn. destruct pos_mode; lia.
Qed.

End Invalidations.

(** C9. In stake mode a pass that is discarded leaves each of its PoW
    winners with one invalidated block more, the list of drawn blocks as
    it was before the pass and the chain untouched; and when a run ends,
    [invalidated_blocks] of an adversary has grown by the number of all
    passes read, discarded or accepted, in which it won the PoW draw and
    missed the majority of the committee. *)
Theorem invalidated_blocks_counts_discarded cfg :
  (∀ ch d st st' i adv,
     attempt cfg true ch d st = Ok (st', false) →
     adversaries st !! i = Some adv →
     wins_pow (drawn_hash cfg d) adv = true →
     ∃ adv', adversaries st' !! i = Some adv'
             ∧ invalidated_blocks adv' = (invalidated_blocks adv + 1)%nat
             ∧ drawn_block_hashes adv' = drawn_block_hashes adv
             ∧ chain adv' = chain adv)
  ∧ (∀ tape st st',
       run_to_end cfg true tape st = Ok st' →
       ∃ consumed rest,
         tape = consumed ++ rest
         ∧ ∀ i adv,
             adversaries st !! i = Some adv →
             ∃ adv', adversaries st' !! i = Some adv'
                     ∧ invalidated_blocks adv'
                       = (invalidated_blocks adv
                          + failed_validations cfg consumed adv)%nat).
Proof.
  split.
  - intros ch d st st' i adv Ha Hi Hw.
    destruct (attempt_discarded cfg true ch d st st' i adv Ha Hi)
      as (adv' & Hi' & Hk & _ & Hinv).
    exists adv'. split; [done|]. rewrite Hw in Hinv. cbn in Hinv.
    split; [done|]. destruct Hk as (? & ? & _). done.
  - intros tape st st' H. unfold run_to_end in H.
    apply run_loop_invalidated in H as (consumed & rest & -> & Hall).
    exists consumed, rest. split; [done|]. intros i adv Hi.
    specialize (Hall i). cbn [adversaries] in Hall. rewrite Hi in Hall.
    destruct Hall as (adv' & ? & _ & ?). by exists adv'.
Qed.

Lemma invalidated_blocks_counts_discarded_witness :
  (∃ adv st1,
     adversaries stake_start !! 0%nat = Some adv
     ∧ attempt cfg_small_pool true 0 (mk_draw 0 4) stake_start
       = Ok (st1, false)
     ∧ ∃ adv', adversaries st1 !! 0%nat = Some adv'
               ∧ invalidated_blocks adv' = (invalidated_blocks adv + 1)%nat
               ∧ drawn_block_hashes adv' = drawn_block_hashes adv
               ∧ chain adv' = chain adv)
  ∧ (∃ st',
       run_to_end cfg_small_pool true stake_tape stake_start = Ok st'
       ∧ ∃ consumed rest,
           stake_tape = consumed ++ rest
           ∧ ∀ i adv,
               adversaries stake_start !! i = Some adv →
               ∃ adv', adversaries st' !! i = Some adv'
                       ∧ invalidated_blocks adv'
                         = (invalidated_blocks adv
                            + failed_validations cfg_small_pool consumed
                                adv)%nat).
Proof.
  destruct (invalidated_blocks_counts_discarded cfg_small_pool) as [HA HB].
  assert (O1 : after_pass
                 (attempt cfg_small_pool true 0 (mk_draw 0 4) stake_start)
               = Some (false, [(0, 0, 0, 1); (0, 0, 0, 0)]%nat))
    by (vm_compute; reflexivity).
  assert (O2 : after_run
                 (run_to_end cfg_small_pool true stake_tape stake_start)
               = Some (3%Z, Some 0%nat, Some "2"%string, 7%Z, Some 0%nat,
                       Some "6"%string, [6; 0]%nat))
    by (vm_compute; reflexivity).
  destruct (attempt cfg_small_pool true 0 (mk_draw 0 4) stake_start)
    as [[st1 acc]| |] eqn:E1; try discriminate O1.
  injection O1 as -> _.
  destruct (run_to_end cfg_small_pool true stake_tape stake_start)
    as [st'| |] eqn:E2; try discriminate O2.
  split.
  - eexists _, st1. split; [reflexivity|]. split; [reflexivity|].
    eapply (HA 0%nat (mk_draw 0 4) stake_start st1 0%nat);
      [exact E1|reflexivity|vm_compute; reflexivity].
  - exists st'. split; [reflexivity|].
    apply (HB stake_tape stake_start st'). exact E2.
Defined.

Section Averages.

Lemma won_by_Ok a st b :
  won_by a st = Ok b →
  b = bool_decide (block_diff_6_winner (sim st) = Some a).
Proof.
  unfold won_by. destruct (block_diff_6_winner (sim st)) as [w|]; [|done].
  intros [= <-]. apply bool_decide_ext. split; [by intros ->|by intros [=]].
Qed.

Lemma final_sum_blocks_Ok a st b :
  final_sum_blocks a st = Ok b →
  (fun adv => Z.of_nat (sum_blocks adv)) <$> adversaries st !! a = Some b.
Proof.
  unfold final_sum_blocks. destruct (adversaries st !! a); [|done].
  by intros [= <-].
Qed.

Lemma tally_Ok a sims w0 l0 w l :
  tally a sims w0 l0 = Ok (w, l) →
  w = (w0 + wins_of a sims)%nat
  ∧ l = l0 ++ final_sums a sims
  ∧ length (final_sums a sims) = length sims.
Proof.
  revert w0 l0. induction sims as [|st sims IH]; intros w0 l0.
  - cbn. intros [= <- <-]. unfold wins_of. cbn.
    split; [lia|]. by rewrite app_nil_r.
  - cbn [tally]. intros H.
    apply bind_Ok in H as (b & Hb & H).
    apply bind_Ok in H as (x & Hx & H).
    apply won_by_Ok in Hb. apply final_sum_blocks_Ok in Hx.
    apply IH in H as (-> & -> & Hlen).
    unfold wins_of, final_sums in *. cbn [omap list_omap].
    rewrite Hx. rewrite filter_cons. subst b.
    destruct (decide (block_diff_6_winner (sim st) = Some a)) as [Hw|Hw].
    + rewrite bool_decide_eq_true_2 by done. cbn.
      split; [lia|]. split; [by rewrite <- app_assoc|]. by rewrite Hlen.
    + rewrite bool_decide_eq_false_2 by done. cbn.
      split; [lia|]. split; [by rewrite <- app_assoc|]. by rewrite Hlen.
Qed.

Lemma statistics_mean_Ok l avg :
  statistics_mean l = Ok avg →
  number_value (number_round 6 avg) = stored_mean l.
Proof.
  unfold statistics_mean, stored_mean, exact_mean.
  destruct l as [|x l]; [done|].
  destruct (_ =? 0)%Z; by intros [= <-].
Qed.

Lemma summarise_Ok a sims s :
  summarise a sims = Ok s →
  total_wins s = wins_of a sims
  ∧ length (final_sums a sims) = length sims
  ∧ sum_blocks_average s = stored_mean (final_sums a sims).
Proof.
  unfold summarise. intros H.
  apply bind_Ok in H as ([w l] & Ht & H).
  apply bind_Ok in H as (avg & Hm & H). injection H as <-.
  apply tally_Ok in Ht as (-> & -> & Hlen).
  apply statistics_mean_Ok in Hm.
  cbn [total_wins sum_blocks_average app] in *. by rewrite Hm.
Qed.

Lemma summarise_all_lookup idxs sims l k s :
  summarise_all idxs sims = Ok l → l !! k = Some s →
  ∃ a, idxs !! k = Some a ∧ summarise a sims = Ok s.
Proof.
  revert l k. induction idxs as [|a idxs IH]; intros l k; cbn.
  - intros [= <-]. by rewrite lookup_nil.
  - intros H. apply bind_Ok in H as (x & Hx & H).
    apply bind_Ok in H as (xs & Hxs & H). injection H as <-.
    destruct k as [|k]; cbn.
    + intros [= <-]. by exists a.
    + intros Hk. by eapply IH.
Qed.

End Averages.

(** C8, as stated, fails: over three runs in which the second adversary
    ends with 0, 0 and 1 blocks the exact mean is 1/3 and the mean
    reported is the float 0.333333. The two differ by more than three
    parts in ten million, where the float nearest to 1/3 is within one
    part in ten thousand million million of it: the difference is the
    rounding to six decimal places, not floating rounding. *)
Lemma mean_is_rounded_to_six_places :
  reported (calc_averages three_runs)
  = Some [(3%nat, py_float (6333333 # 1000000));
          (0%nat, py_float (333333 # 1000000))]
  ∧ final_sums 1 three_runs = [0; 0; 1]%Z
  ∧ (exact_mean (final_sums 1 three_runs) == 1 # 3)%Q
  ∧ (3 # 10000000 < (1 # 3) - py_float (333333 # 1000000))%Q
  ∧ (Qabs (py_float (1 # 3) - (1 # 3)) < 1 # 10000000000000000)%Q.
Proof.
  split; [|split; [|split; [|split]]]; vm_compute; reflexivity.
Qed.

(** C8, amended. For every adversary, [calc_averages] reports the number
    of simulations whose 6-block winner it is, and the sum of its final
    [sum_blocks] over the simulations divided by their number, rounded to
    six decimal places, up to floating rounding: the quotient itself when
    it is an integer, and otherwise [round(m, 6)] for the float [m]
    nearest to the quotient. *)
Theorem calc_averages_rounds_the_mean sims l a s :
  calc_averages sims = Ok l →
  l !! a = Some s →
  total_wins s = wins_of a sims
  ∧ length (final_sums a sims) = length sims
  ∧ sum_blocks_average s = stored_mean (final_sums a sims).
Proof.
  unfold calc_averages. destruct (last sims) as [st_last|]; [|done].
  intros H Ha.
  destruct (summarise_all_lookup _ _ _ _ _ H Ha) as (a' & Hidx & Hs).
  apply lookup_seq in Hidx as [-> _]. cbn in Hs.
  by apply summarise_Ok.
Qed.

Lemma calc_averages_rounds_the_mean_witness :
  ∃ l s,
    calc_averages three_runs = Ok l
    ∧ l !! 1%nat = Some s
    ∧ total_wins s = wins_of 1 three_runs
    ∧ length (final_sums 1 three_runs) = length three_runs
    ∧ sum_blocks_average s = stored_mean (final_sums 1 three_runs).
Proof.
  assert (O : summaries (calc_averages three_runs) = 2%nat)
    by (vm_compute; reflexivity).
  destruct (calc_averages three_runs) as [l| |] eqn:E; try discriminate O.
  destruct l as [|s0 [|s1 l]]; try discriminate O.
  exists (s0 :: s1 :: l), s1. split; [reflexivity|]. split; [reflexivity|].
  apply (calc_averages_rounds_the_mean three_runs (s0 :: s1 :: l) 1%nat s1);
    [exact E|reflexivity].
Defined.

Section EndowmentErrors.

Lemma random_sample_Raise {A} (pool : list A) k rnd e :
  random_sample pool k rnd = Raise e →
  e = ValueError ∧ (k < 0 ∨ Z.of_nat (length pool) < k)%Z.
Proof.
  unfold random_sample. destruct (_ || _)%bool eqn:Hb; [|done].
  intros [= <-]. split; [done|].
  apply orb_true_iff in Hb as [Hb|Hb]; apply Z.ltb_lt in Hb; lia.
Qed.

Lemma random_sample_not_starved {A} (pool : list A) k rnd :
  random_sample pool k rnd ≠ OutOfTape.
Proof. unfold random_sample. by destruct (_ || _)%bool. Qed.

Lemma bind_OutOfTape {A B} (r : result A) (k : A → result B) :
  r ≫= k = OutOfTape → r = OutOfTape ∨ ∃ a, r = Ok a ∧ k a = OutOfTape.
Proof.
  destruct r as [a|e'|]; cbn; intros H.
  - right. by exists a.
  - done.
  - by left.
Qed.

Lemma assign_hashes_Raise cfg rnd idx pw e :
  assign_hashes cfg rnd idx pw = Raise e → e = ValueError.
Proof.
  revert idx. induction pw as [|a pw IH]; intros idx; cbn; [done|].
  intros H. apply bind_Raise in H as [H|(h & _ & H)].
  - by apply random_sample_Raise in H as [-> _].
  - apply bind_Raise in H as [H|(r & _ & H)]; [by eapply IH|done].
Qed.

Lemma assign_hashes_not_starved cfg rnd idx pw :
  assign_hashes cfg rnd idx pw ≠ OutOfTape.
Proof.
  revert idx. induction pw as [|a pw IH]; intros idx; cbn; [done|].
  intros H. apply bind_OutOfTape in H as [H|(h & _ & H)].
  - by apply random_sample_not_starved in H.
  - apply bind_OutOfTape in H as [H|(r & _ & H)]; [by eapply IH|done].
Qed.

Lemma assign_tickets_Raise cfg rnd idx stake pool advs e :
  assign_tickets cfg rnd idx stake pool advs = Raise e →
  e = ValueError
  ∨ e = KeyError ∧ (length advs < idx + length stake)%nat.
Proof.
  revert idx pool advs. induction stake as [|s stake IH];
    intros idx pool advs; cbn; [done|].
  destruct (advs !! idx) as [adv|] eqn:Hidx.
  - intros H. apply bind_Raise in H as [H|(t & _ & H)].
    + left. by apply random_sample_Raise in H as [-> _].
    + apply IH in H as [->|[-> Hlen]]; [by left|right].
      split; [done|]. rewrite length_insert in Hlen. lia.
  - intros [= <-]. right. split; [done|].
    apply lookup_ge_None_1 in Hidx. lia.
Qed.

Lemma assign_tickets_not_starved cfg rnd idx stake pool advs :
  assign_tickets cfg rnd idx stake pool advs ≠ OutOfTape.
Proof.
  revert idx pool advs. induction stake as [|s stake IH];
    intros idx pool advs; cbn; [done|].
  destruct (advs !! idx) as [adv|]; [|done].
  intros H. apply bind_OutOfTape in H as [H|(t & _ & H)].
  - by apply random_sample_not_starved in H.
  - by eapply IH.
Qed.

(** The hash loop fails as soon as one share cannot be served. *)
Lemma assign_hashes_shortfall cfg rnd idx pw a :
  a ∈ pw →
  (hash_sample_size a < 0
   ∨ Z.max 0 (block_hash_space cfg) < hash_sample_size a)%Z →
  assign_hashes cfg rnd idx pw = Raise ValueError.
Proof.
  intros Ha Hbad. revert idx.
  induction pw as [|b pw IH]; intros idx; [by apply elem_of_nil in Ha|].
  cbn [assign_hashes].
  destruct (random_sample _ (hash_sample_size b) (rnd idx)) as [h|e|] eqn:Hs.
  - cbn. apply elem_of_cons in Ha as [->|Ha].
    + rewrite random_sample_raises in Hs; [done|].
      rewrite length_py_range. lia.
    + by rewrite IH.
  - by apply random_sample_Raise in Hs as [-> _].
  - by apply random_sample_not_starved in Hs.
Qed.

(** The stake loop gives the adversary at [idx + j] the [j]-th stake and
    as many tickets as the stake asks for. *)
Lemma assign_tickets_before cfg rnd idx stake pool advs advs' i :
  assign_tickets cfg rnd idx stake pool advs = Ok advs' →
  (i < idx)%nat → advs' !! i = advs !! i.
Proof.
  revert idx pool advs. induction stake as [|s stake IH];
    intros idx pool advs; cbn.
  - by intros [= <-].
  - destruct (advs !! idx) as [adv|]; [|done]. intros H Hi.
    apply bind_Ok in H as (t & _ & H).
    rewrite (IH _ _ _ H) by lia. by rewrite list_lookup_insert_ne by lia.
Qed.

Lemma assign_tickets_given cfg rnd idx stake pool advs advs' j s :
  assign_tickets cfg rnd idx stake pool advs = Ok advs' →
  NoDup pool →
  stake !! j = Some s →
  ∃ adv', advs' !! (idx + j)%nat = Some adv'
          ∧ stakesize adv' = s
          ∧ Z.of_nat (length (prob_tickets adv')) = ticket_sample_size cfg s
          ∧ prob_tickets adv' ⊆+ pool.
Proof.
  revert idx pool advs j. induction stake as [|s0 stake IH];
    intros idx pool advs j; cbn; [by rewrite lookup_nil|].
  destruct (advs !! idx) as [adv|] eqn:Hidx; [|done]. intros H Hnd Hj.
  apply bind_Ok in H as (t & Ht & H).
  pose proof (random_sample_Ok _ _ _ _ Ht) as [Hsub Hlen].
  destruct j as [|j].
  - injection Hj as <-.
    rewrite Nat.add_0_r, (assign_tickets_before _ _ _ _ _ _ _ _ H) by lia.
    rewrite list_lookup_insert_eq by (by eapply lookup_lt_Some).
    eexists. split; [done|]. cbn. done.
  - cbn in Hj.
    destruct (IH _ _ _ _ H (NoDup_filter _ _ Hnd) Hj)
      as (adv' & Hl & Hs & Hn & Hin).
    exists adv'. replace (idx + S j)%nat with (S idx + j)%nat by lia.
    split; [done|]. split; [done|]. split; [done|].
    etransitivity; [exact Hin|]. apply sublist_submseteq, sublist_filter.
Qed.

Lemma calc_hashpower_Raise cfg rnd_h rnd_t pw stake e :
  calc_hashpower cfg rnd_h rnd_t pw stake = Raise e →
  e = ValueError
  ∨ e = KeyError ∧ stake ≠ [] ∧ length pw ≠ length stake.
Proof.
  unfold calc_hashpower. intros H.
  apply bind_Raise in H as [H|(advs & Ha & H)].
  { left. by eapply assign_hashes_Raise. }
  apply assign_hashes_length in Ha.
  destruct stake as [|s stake]; [done|]. cbn [truthy] in H.
  apply bind_Raise in H as [H|(advs' & Ht & H)].
  - apply assign_tickets_Raise in H as [->|[-> Hlen]]; [by left|right].
    split; [done|]. split; [done|]. cbn in *. lia.
  - apply assign_tickets_length in Ht.
    destruct (_ <? _)%nat eqn:Hlt; [|done]. apply Nat.ltb_lt in Hlt.
    injection H as <-. right. split; [done|]. split; [done|]. lia.
Qed.

Lemma calc_hashpower_not_starved cfg rnd_h rnd_t pw stake :
  calc_hashpower cfg rnd_h rnd_t pw stake ≠ OutOfTape.
Proof.
  unfold calc_hashpower. intros E.
  apply bind_OutOfTape in E as [E|(advs & _ & E)].
  { by apply assign_hashes_not_starved in E. }
  destruct (truthy stake); [|done].
  apply bind_OutOfTape in E as [E|(advs' & _ & E)].
  { by apply assign_tickets_not_starved in E. }
  by destruct (_ <? _)%nat.
Qed.

Lemma calc_hashpower_stakes cfg rnd_h rnd_t pw stake advs :
  stake ≠ [] →
  calc_hashpower cfg rnd_h rnd_t pw stake = Ok advs →
  length stake = length advs
  ∧ ∀ i adv,
      advs !! i = Some adv →
      stake !! i = Some (stakesize adv)
      ∧ Z.of_nat (length (prob_tickets adv))
        = ticket_sample_size cfg (stakesize adv)
      ∧ ∀ t, t ∈ prob_tickets adv →
             (0 ≤ t < pos_avg_ticket_pool_size cfg)%Z.
Proof.
  intros Hne H. unfold calc_hashpower in H.
  apply bind_Ok in H as (advs0 & H0 & H).
  destruct stake as [|s0 stake]; [done|]. cbn [truthy] in H.
  apply bind_Ok in H as (advs1 & H1 & H).
  destruct (_ <? _)%nat eqn:Hlt; [done|]. apply Nat.ltb_ge in Hlt.
  injection H as <-.
  assert (Hlen : length (s0 :: stake) = length advs1).
  { apply Nat.le_antisymm; [|done].
    destruct (lookup_lt_is_Some_2 (s0 :: stake) (length stake))
      as [s Hs]; [cbn; lia|].
    destruct (assign_tickets_given _ _ _ _ _ _ _ _ _ H1
                (NoDup_py_range _ _) Hs) as (adv' & Hl & _).
    apply lookup_lt_Some in Hl. cbn in *. lia. }
  split; [done|]. intros i adv Hi.
  destruct (lookup_lt_is_Some_2 (s0 :: stake) i) as [s Hs].
  { rewrite Hlen. by eapply lookup_lt_Some. }
  destruct (assign_tickets_given _ _ _ _ _ _ _ _ _ H1
              (NoDup_py_range _ _) Hs) as (adv' & Hl & Hst & Hn & Hin).
  cbn in Hl. rewrite Hi in Hl. injection Hl as <-.
  rewrite Hst. split; [done|]. split; [done|].
  intros t Ht. apply elem_of_py_range. by eapply elem_of_submseteq.
Qed.

End EndowmentErrors.

(** X1. [calc_hashpower] raises nothing but [ValueError], for a sample
    that is negative or larger than what it is drawn from, and
    [KeyError], when stakes are given and their number differs from the
    number of hashpowers; after [sanity_check] has passed only
    [ValueError] is left. *)
Theorem calc_hashpower_errors cfg rnd_h rnd_t pw stake e :
  calc_hashpower cfg rnd_h rnd_t pw stake = Raise e →
  (e = ValueError
   ∨ e = KeyError ∧ stake ≠ [] ∧ length pw ≠ length stake)
  ∧ (∀ rewind_adv,
       sanity_check pw stake rewind_adv = Ok () → e = ValueError).
Proof.
  intros H. pose proof (calc_hashpower_Raise _ _ _ _ _ _ H) as Hcases.
  split; [done|]. intros rewind_adv Hsane.
  destruct Hcases as [->|(-> & Hne & Hlen)]; [done|]. exfalso.
  unfold sanity_check in Hsane.
  destruct (length pw <? 2)%nat; [done|]. destruct (negb _); [done|].
  destruct (_ && _)%bool; [done|].
  destruct (truthy stake) eqn:Ht; [|by destruct stake].
  destruct (length pw =? length stake)%nat eqn:Heq; [|done].
  by apply Nat.eqb_eq in Heq.
Qed.

Lemma calc_hashpower_errors_witness :
  calc_hashpower cfg_three_tickets split_halves first_always
    [50 # 1; 50 # 1]%Q [50 # 1; 50 # 1]%Q = Raise ValueError
  ∧ (ValueError = ValueError
     ∨ ValueError = KeyError ∧ [50 # 1; 50 # 1]%Q ≠ []
       ∧ length [50 # 1; 50 # 1]%Q ≠ length [50 # 1; 50 # 1]%Q)
  ∧ (∀ rewind_adv,
       sanity_check [50 # 1; 50 # 1]%Q [50 # 1; 50 # 1]%Q rewind_adv = Ok () →
       ValueError = ValueError).
Proof.
  assert (E : calc_hashpower cfg_three_tickets split_halves first_always
                [50 # 1; 50 # 1]%Q [50 # 1; 50 # 1]%Q = Raise ValueError).
  { unfold calc_hashpower. rewrite assign_hashes_halves by done.
    unfold pow_advs.
    generalize (py_range 0 5000) (py_range 5000 10000). intros h0 h1.
    vm_compute. reflexivity. }
  split; [exact E|].
  exact (calc_hashpower_errors cfg_three_tickets split_halves first_always
           [50 # 1; 50 # 1]%Q [50 # 1; 50 # 1]%Q ValueError E).
Defined.

(** X2. When [calc_hashpower] returns, every adversary carries its share,
    and its [prob_block_hashes] hold [round(round(share, 2) * 100)]
    different hashes, all of them in [range(block_hash_space)]; its lists
    of drawn blocks and its chain are empty and its counters zero. *)
Theorem calc_hashpower_hashes cfg rnd_h rnd_t pw stake advs i adv :
  calc_hashpower cfg rnd_h rnd_t pw stake = Ok advs →
  advs !! i = Some adv →
  pw !! i = Some (hashpower adv)
  ∧ NoDup (prob_block_hashes adv)
  ∧ (∀ h, h ∈ prob_block_hashes adv → (0 ≤ h < block_hash_space cfg)%Z)
  ∧ Z.of_nat (length (prob_block_hashes adv))
    = hash_sample_size (hashpower adv)
  ∧ fresh adv.
Proof.
  intros H Hi.
  destruct (calc_hashpower_lookup _ _ _ _ _ _ _ _ H Hi)
    as (Hfresh & a & Ha & <- & Hsub & Hlen).
  split; [done|]. split; [|split; [|done]].
  - eapply NoDup_of_submseteq; [done|apply NoDup_py_range].
  - intros h Hh. apply elem_of_py_range. by eapply elem_of_submseteq.
Qed.

Lemma calc_hashpower_hashes_witness :
  ∃ adv,
    stake_advs !! 1%nat = Some adv
    ∧ [50 # 1; 50 # 1]%Q !! 1%nat = Some (hashpower adv)
    ∧ NoDup (prob_block_hashes adv)
    ∧ (∀ h, h ∈ prob_block_hashes adv →
            (0 ≤ h < block_hash_space cfg_small_pool)%Z)
    ∧ Z.of_nat (length (prob_block_hashes adv))
      = hash_sample_size (hashpower adv)
    ∧ fresh adv.
Proof.
  eexists. split; [reflexivity|].
  exact (calc_hashpower_hashes cfg_small_pool split_halves first_always
           [50 # 1; 50 # 1]%Q [50 # 1; 50 # 1]%Q stake_advs 1%nat _
           stake_advs_endowed eq_refl).
Defined.

(** X3. A share that asks for more hashes than the hash space holds, or
    for a negative number of them, ends [calc_hashpower] with
    [ValueError], whatever the random tape and the other shares are. *)
Theorem calc_hashpower_hash_shortfall cfg rnd_h rnd_t pw stake a :
  a ∈ pw →
  (hash_sample_size a < 0
   ∨ Z.max 0 (block_hash_space cfg) < hash_sample_size a)%Z →
  calc_hashpower cfg rnd_h rnd_t pw stake = Raise ValueError.
Proof.
  intros Ha Hbad. unfold calc_hashpower.
  by rewrite (assign_hashes_shortfall _ _ _ _ a).
Qed.

Lemma calc_hashpower_hash_shortfall_witness :
  calc_hashpower
    {| block_hash_space := 100; pos_avg_ticket_pool_size := 40960;
       pos_blocks_with_5votes := 401716; pos_blocks_with_4votes := 22561;
       pos_blocks_with_3votes := 5617 |}
    first_always first_always [90 # 1; 10 # 1]%Q [] = Raise ValueError.
Proof.
  apply (calc_hashpower_hash_shortfall _ first_always first_always
           [90 # 1; 10 # 1]%Q [] (10 # 1)%Q).
  - right. left.
  - right. vm_compute. reflexivity.
Defined.

(** X4. In stake mode, when [calc_hashpower] returns, there are as many
    stakes as adversaries, and every adversary carries its stake and
    [round(round(stake, 2) / 100 * pos_avg_ticket_pool_size)] tickets,
    the product being the float the program computes, all of them in
    [range(pos_avg_ticket_pool_size)]. *)
Theorem calc_hashpower_ticket_count cfg rnd_h rnd_t pw stake advs :
  stake ≠ [] →
  calc_hashpower cfg rnd_h rnd_t pw stake = Ok advs →
  length stake = length advs
  ∧ ∀ i adv,
      advs !! i = Some adv →
      stake !! i = Some (stakesize adv)
      ∧ Z.of_nat (length (prob_tickets adv))
        = ticket_sample_size cfg (stakesize adv)
      ∧ ∀ t, t ∈ prob_tickets adv →
             (0 ≤ t < pos_avg_ticket_pool_size cfg)%Z.
Proof. apply calc_hashpower_stakes. Qed.

Lemma calc_hashpower_ticket_count_witness :
  length [50 # 1; 50 # 1]%Q = length stake_advs
  ∧ ∀ i adv,
      stake_advs !! i = Some adv →
      [50 # 1; 50 # 1]%Q !! i = Some (stakesize adv)
      ∧ Z.of_nat (length (prob_tickets adv))
        = ticket_sample_size cfg_small_pool (stakesize adv)
      ∧ ∀ t, t ∈ prob_tickets adv →
             (0 ≤ t < pos_avg_ticket_pool_size cfg_small_pool)%Z.
Proof.
  apply (calc_hashpower_ticket_count cfg_small_pool split_halves
           first_always [50 # 1; 50 # 1]%Q [50 # 1; 50 # 1]%Q stake_advs).
  - discriminate.
  - exact stake_advs_endowed.
Defined.

Section TicketShortfall.

Lemma tickets_owned_requested cfg stake advs :
  length stake = length advs →
  (∀ i adv, advs !! i = Some adv →
            stake !! i = Some (stakesize adv)
            ∧ Z.of_nat (length (prob_tickets adv))
              = ticket_sample_size cfg (stakesize adv)) →
  Z.of_nat (tickets_owned advs) = tickets_requested cfg stake.
Proof.
  unfold tickets_owned, tickets_requested.
  revert advs. induction stake as [|s stake IH]; intros [|adv advs] Hlen Hall;
    try done.
  cbn. destruct (Hall 0%nat adv eq_refl) as [Hs Hn].
  injection Hs as ->. rewrite Nat2Z.inj_add, Hn. f_equal.
  apply IH; [by injection Hlen|].
  intros i adv' Hi. by apply (Hall (S i)).
Qed.

End TicketShortfall.

(** X5. When the ticket counts of the stakes, each rounded from the
    float product as the program does, add up to more than the pool
    holds, [calc_hashpower] does not return: it ends with
    [ValueError], or with [KeyError] if the numbers of stakes and
    hashpowers differ. *)
Theorem calc_hashpower_ticket_shortfall cfg rnd_h rnd_t pw stake :
  (0 ≤ pos_avg_ticket_pool_size cfg)%Z →
  (pos_avg_ticket_pool_size cfg < tickets_requested cfg stake)%Z →
  ∃ e, calc_hashpower cfg rnd_h rnd_t pw stake = Raise e
       ∧ (e = ValueError ∨ e = KeyError ∧ length pw ≠ length stake).
Proof.
  intros HT Hreq.
  destruct (calc_hashpower cfg rnd_h rnd_t pw stake) as [advs|e|] eqn:E.
  - exfalso.
    assert (Hne : stake ≠ []).
    { intros ->. unfold tickets_requested in Hreq. cbn in Hreq. lia. }
    destruct (calc_hashpower_stakes _ _ _ _ _ _ Hne E) as [Hlen Hall].
    pose proof (calc_hashpower_tickets _ _ _ _ _ _ E) as Hsub.
    apply submseteq_length in Hsub. rewrite length_py_range in Hsub.
    unfold all_tickets in Hsub. rewrite length_concat in Hsub.
    rewrite <- list_fmap_compose in Hsub.
    pose proof (tickets_owned_requested cfg stake advs Hlen) as Heq.
    unfold tickets_owned in Heq. unfold compose in Hsub.
    rewrite <- Heq in Hreq; [lia|].
    intros i adv Hi. destruct (Hall i adv Hi) as (? & ? & _). done.
  - exists e. split; [done|].
    destruct (calc_hashpower_Raise _ _ _ _ _ _ E) as [->|(-> & _ & ?)];
      [by left|by right].
  - by apply calc_hashpower_not_starved in E.
Qed.

Lemma calc_hashpower_ticket_shortfall_witness :
  ∃ e, calc_hashpower cfg_three_tickets split_halves first_always
         [50 # 1; 50 # 1]%Q [50 # 1; 50 # 1]%Q = Raise e
       ∧ (e = ValueError
          ∨ e = KeyError
            ∧ length [50 # 1; 50 # 1]%Q ≠ length [50 # 1; 50 # 1]%Q).
Proof.
  apply (calc_hashpower_ticket_shortfall cfg_three_tickets split_halves
           first_always [50 # 1; 50 # 1]%Q [50 # 1; 50 # 1]%Q).
  - cbn. lia.
  - vm_compute. reflexivity.
Defined.

Section RewindExact.

Lemma rewind_loop_exact pos_mode a n b0 st adv :
  adversaries st !! a = Some adv →
  chain_ok adv →
  (∀ key, is_Some (cycles (sim st) !! key) → (key_height key < b0)%nat) →
  ∃ st' adv',
    rewind_loop pos_mode a (seq b0 n) st = Ok st'
    ∧ adversaries st' = <[a := adv']> (adversaries st)
    ∧ drawn_block_hashes adv'
      = drawn_block_hashes adv ++ rewind_hashes b0 n
    ∧ size (chain adv') = (size (chain adv) + n)%nat
    ∧ chain adv ⊆ chain adv'
    ∧ chain_ok adv'
    ∧ same_endowment adv adv'
    ∧ same_counters adv adv'
    ∧ size (cycles (sim st')) = (size (cycles (sim st)) + n)%nat.
Proof.
  revert b0 st adv. induction n as [|n IH]; intros b0 st adv Ha Hok Hcyc.
  - exists st, adv. cbn. split; [done|]. split.
    { destruct st as [advs sm]. cbn in *. by rewrite list_insert_id. }
    unfold rewind_hashes. cbn. rewrite app_nil_r, !Nat.add_0_r.
    repeat split; done.
  - cbn [seq rewind_loop]. rewrite Ha.
    set (h := ("RWB" ++ py_str b0)%string).
    set (adv2 := adv_insert_chain (adv_append_drawn adv h) _ _).
    set (st1 := {| adversaries := _; sim := _ |}).
    assert (Hnone : chain adv !! next_key false adv = None)
      by (by apply chain_ok_next_key).
    assert (Hok2 : chain_ok adv2).
    { unfold chain_ok, adv2. cbn [chain adv_insert_chain adv_append_drawn].
      by apply (chain_ok_insert false adv). }
    destruct (IH (S b0) st1 adv2) as
      (st' & adv' & Hrun & Hadvs & Hd & Hsz & Hsub & Hok' & Hse & Hsc & Hcs).
    { cbn. rewrite list_lookup_insert_eq; [done|]. by eapply lookup_lt_Some. }
    { done. }
    { cbn. intros key Hs.
      destruct (decide (key = py_str b0)) as [->|Hne].
      - rewrite key_height_py_str. lia.
      - rewrite lookup_insert_ne in Hs by done. apply Hcyc in Hs. lia. }
    exists st', adv'. split; [done|]. split.
    { rewrite Hadvs. cbn. by rewrite list_insert_insert_eq. }
    split.
    { rewrite Hd. cbn. unfold rewind_hashes. cbn [seq fmap list_fmap].
      by rewrite <- app_assoc. }
    split.
    { rewrite Hsz. unfold adv2. cbn [chain adv_insert_chain adv_append_drawn].
      change (zfill 3 (py_str (size (chain adv)))) with (next_key false adv).
      rewrite map_size_insert_None by done. lia. }
    split.
    { etransitivity; [|exact Hsub]. unfold adv2. cbn.
      by apply insert_subseteq. }
    split; [done|]. split.
    { destruct Hse as (?&?&?&?). by repeat split. }
    split.
    { destruct Hsc as (?&?&?). by repeat split. }
    rewrite Hcs. cbn.
    rewrite map_size_insert_None; [lia|].
    destruct (cycles (sim st) !! py_str b0) eqn:Hc; [|done].
    assert (is_Some (cycles (sim st) !! py_str b0)) as Hs by eauto.
    apply Hcyc in Hs. rewrite key_height_py_str in Hs. lia.
Qed.

End RewindExact.

(** X6. [setup_block_rewind] for an adversary that exists appends the
    hashes [RWB0], [RWB1], ... to its list of drawn blocks and as many
    blocks to its chain, keeps its endowment and its counters, leaves the
    other adversaries alone, and leaves one cycle per block behind, so
    that the run starts at cycle height [rewind_blocks]; for an adversary
    that does not exist it raises [KeyError]. *)
Theorem setup_block_rewind_effect pos_mode rewind_blocks rewind_adv advs :
  (∀ adv,
     advs !! rewind_adv = Some adv → chain_ok adv →
     ∃ st' adv',
       setup_block_rewind pos_mode rewind_blocks rewind_adv
         {| adversaries := advs; sim := create_simulation |} = Ok st'
       ∧ adversaries st' = <[rewind_adv := adv']> advs
       ∧ drawn_block_hashes adv'
         = drawn_block_hashes adv ++ rewind_hashes 0 rewind_blocks
       ∧ size (chain adv') = (size (chain adv) + rewind_blocks)%nat
       ∧ chain adv ⊆ chain adv'
       ∧ same_endowment adv adv'
       ∧ same_counters adv adv'
       ∧ size (cycles (sim st')) = rewind_blocks)
  ∧ (advs !! rewind_adv = None → (0 < rewind_blocks)%nat →
     setup_block_rewind pos_mode rewind_blocks rewind_adv
       {| adversaries := advs; sim := create_simulation |}
     = Raise KeyError).
Proof.
  split.
  - intros adv Ha Hok. unfold setup_block_rewind.
    destruct (rewind_loop_exact pos_mode rewind_adv rewind_blocks 0
                {| adversaries := advs; sim := create_simulation |} adv)
      as (st' & adv' & Hrun & Hadvs & Hd & Hsz & Hsub & _ & Hse & Hsc & Hcs);
      try done.
    { cbn. intros key Hs. rewrite lookup_empty in Hs. by destruct Hs. }
    exists st', adv'. cbn in *. rewrite map_size_empty in Hcs.
    repeat split; try done; try apply Hse; try apply Hsc.
  - intros Ha Hr. unfold setup_block_rewind.
    destruct rewind_blocks as [|r]; [lia|]. cbn. by rewrite Ha.
Qed.

Lemma setup_block_rewind_effect_witness :
  (∃ adv st' adv',
     pow_advs !! 1%nat = Some adv
     ∧ setup_block_rewind false 2 1
         {| adversaries := pow_advs; sim := create_simulation |} = Ok st'
     ∧ adversaries st' = <[1%nat := adv']> pow_advs
     ∧ drawn_block_hashes adv'
       = drawn_block_hashes adv ++ rewind_hashes 0 2
     ∧ size (chain adv') = (size (chain adv) + 2)%nat
     ∧ chain adv ⊆ chain adv'
     ∧ same_endowment adv adv'
     ∧ same_counters adv adv'
     ∧ size (cycles (sim st')) = 2%nat)
  ∧ setup_block_rewind false 2 5
      {| adversaries := pow_advs; sim := create_simulation |}
    = Raise KeyError.
Proof.
  destruct (setup_block_rewind_effect false 2 1 pow_advs) as [H1 _].
  destruct (setup_block_rewind_effect false 2 5 pow_advs) as [_ H2].
  split.
  - destruct (H1 (new_adversary (50 # 1) (py_range 5000 10000)))
      as (st' & adv' & H); [reflexivity| |].
    { intros key Hs. cbn in Hs. rewrite lookup_empty in Hs. by destruct Hs. }
    by exists (new_adversary (50 # 1) (py_range 5000 10000)), st', adv'.
  - apply H2; [reflexivity|lia].
Defined.

Section Passes.

Lemma draw_committee_Raise cfg d e :
  draw_committee cfg d = Raise e →
  e = ValueError ∧ (pos_avg_ticket_pool_size cfg ≤ 5)%Z.
Proof.
  unfold draw_committee. intros H.
  apply bind_Raise in H as [H|(l & _ & H)]; [|done].
  apply random_sample_Raise in H as [-> H]. split; [done|].
  rewrite length_py_range in H.
  pose proof (random_choices_543_range cfg (raw_votes d)) as Hk. lia.
Qed.

Lemma draw_committee_returns cfg d :
  (6 ≤ pos_avg_ticket_pool_size cfg)%Z →
  ∃ k drawn, draw_committee cfg d = Ok (k, drawn).
Proof.
  intros HT. unfold draw_committee.
  rewrite random_sample_returns; [by eexists _, _|].
  rewrite length_py_range.
  pose proof (random_choices_543_range cfg (raw_votes d)) as Hk. lia.
Qed.

Lemma attempt_Raise cfg pos_mode ch d st e :
  attempt cfg pos_mode ch d st = Raise e →
  e = IndexError ∧ (block_hash_space cfg ≤ 0)%Z
  ∨ e = ValueError ∧ pos_mode = true
    ∧ (pos_avg_ticket_pool_size cfg ≤ 5)%Z.
Proof.
  unfold attempt. intros H.
  apply bind_Raise in H as [H|(h & Hh & H)].
  - left. unfold random_choice_range in H.
    destruct (block_hash_space cfg <=? 0)%Z eqn:E; [|done].
    injection H as <-. split; [done|]. lia.
  - right. destruct (truthy _); [|done]. destruct pos_mode; [|done].
    apply bind_Raise in H as [H|([k drawn] & _ & H)]; [|done].
    apply draw_committee_Raise in H as [-> H]. done.
Qed.

Lemma attempt_not_starved cfg pos_mode ch d st :
  attempt cfg pos_mode ch d st ≠ OutOfTape.
Proof.
  unfold attempt. intros H.
  apply bind_OutOfTape in H as [H|(h & Hh & H)].
  - unfold random_choice_range in H. by destruct (_ <=? _)%Z.
  - destruct (truthy _); [|done]. destruct pos_mode; [|done].
    apply bind_OutOfTape in H as [H|([k drawn] & _ & H)]; [|done].
    unfold draw_committee in H.
    apply bind_OutOfTape in H as [H|(l & _ & H)]; [|done].
    by apply random_sample_not_starved in H.
Qed.

Lemma attempt_returns cfg pos_mode ch d st :
  (0 < block_hash_space cfg)%Z →
  (pos_mode = true → (6 ≤ pos_avg_ticket_pool_size cfg)%Z) →
  ∃ st' acc, attempt cfg pos_mode ch d st = Ok (st', acc).
Proof.
  intros HH HT.
  destruct (attempt cfg pos_mode ch d st) as [[st' acc]|e|] eqn:E.
  - by exists st', acc.
  - apply attempt_Raise in E as [[_ ?]|(_ & Hp & ?)]; [lia|].
    specialize (HT Hp). lia.
  - by apply attempt_not_starved in E.
Qed.

Lemma attempt_same_endowment cfg pos_mode ch d st st' acc i :
  attempt cfg pos_mode ch d st = Ok (st', acc) →
  match adversaries st !! i with
  | Some adv => ∃ adv', adversaries st' !! i = Some adv'
                        ∧ same_endowment adv adv'
  | None => adversaries st' !! i = None
  end.
Proof.
  intros H. apply attempt_effect in H as [_ H]. specialize (H i).
  destruct (adversaries st !! i) as [adv|]; [|done].
  destruct H as (adv' & ? & ? & _). by exists adv'.
Qed.

End Passes.

Section Rounds.

Lemma mine_block_Raise cfg pos_mode ch tape st e :
  mine_block cfg pos_mode ch tape st = Raise e →
  e = IndexError ∧ (block_hash_space cfg ≤ 0)%Z
  ∨ e = ValueError ∧ pos_mode = true
    ∧ (pos_avg_ticket_pool_size cfg ≤ 5)%Z.
Proof.
  revert st. induction tape as [|d tape IH]; intros st H; [done|].
  cbn [mine_block] in H.
  apply bind_Raise in H as [H|([st1 acc] & _ & H)].
  - by eapply attempt_Raise.
  - destruct acc; [done|]. by eapply IH.
Qed.

Lemma accepted_winner_later cfg pos_mode ch d0 d st st1 acc :
  attempt cfg pos_mode ch d0 st = Ok (st1, acc) →
  (∃ i adv, adversaries st1 !! i = Some adv
            ∧ accepted_winner cfg pos_mode d adv = true)
  ↔ (∃ i adv, adversaries st !! i = Some adv
              ∧ accepted_winner cfg pos_mode d adv = true).
Proof.
  intros H. split; intros (i & adv & Hi & Hacc);
    pose proof (attempt_same_endowment _ _ _ _ _ _ _ i H) as Hs.
  - destruct (adversaries st !! i) as [adv0|] eqn:E; [|congruence].
    destruct Hs as (adv' & Hi' & Hse). exists i, adv0. split; [done|].
    assert (adv' = adv) as -> by congruence.
    by rewrite <- (proj1 (same_endowment_decisions cfg pos_mode d _ _ Hse)).
  - rewrite Hi in Hs. destruct Hs as (adv' & Hi' & Hse).
    exists i, adv'. split; [done|].
    by rewrite (proj1 (same_endowment_decisions cfg pos_mode d _ _ Hse)).
Qed.

Lemma mine_block_starved cfg pos_mode ch tape st :
  (0 < block_hash_space cfg)%Z →
  (pos_mode = true → (6 ≤ pos_avg_ticket_pool_size cfg)%Z) →
  mine_block cfg pos_mode ch tape st = OutOfTape
  ↔ ∀ d, d ∈ tape →
         ¬ ∃ i adv, adversaries st !! i = Some adv
                    ∧ accepted_winner cfg pos_mode d adv = true.
Proof.
  intros HH HT. revert st. induction tape as [|d0 tape IH]; intros st.
  - split; [|done]. intros _ d Hd. by apply elem_of_nil in Hd.
  - cbn [mine_block].
    destruct (attempt_returns cfg pos_mode ch d0 st HH HT)
      as (st1 & acc & Hatt).
    rewrite Hatt. cbn [mbind result_bind].
    pose proof (attempt_effect _ _ _ _ _ _ _ Hatt) as [Hacc _].
    destruct acc.
    + split; [done|]. intros Hno. exfalso.
      apply (Hno d0); [by left|]. by apply Hacc.
    + rewrite IH. split.
      * intros Hno d Hd. apply elem_of_cons in Hd as [->|Hd].
        -- intros Hw. apply Hacc in Hw. done.
        -- rewrite <- (accepted_winner_later _ _ _ _ _ _ _ _ Hatt).
           by apply Hno.
      * intros Hno d Hd.
        rewrite (accepted_winner_later _ _ _ _ _ _ _ _ Hatt).
        apply Hno. by right.
Qed.

End Rounds.

(** X7. With positive vote counts, [mine_block] raises nothing but
    [IndexError], and that only for a hash space that is not positive, in
    which case its first pass raises it, and [ValueError], and that only
    in stake mode with a pool of at most five tickets, out of which the
    committee cannot be drawn. *)
Theorem mine_block_errors cfg pos_mode ch :
  votes_counted cfg →
  (∀ d tape st,
     (block_hash_space cfg ≤ 0)%Z →
     mine_block cfg pos_mode ch (d :: tape) st = Raise IndexError)
  ∧ (∀ tape st e,
       mine_block cfg pos_mode ch tape st = Raise e →
       e = IndexError ∧ (block_hash_space cfg ≤ 0)%Z
       ∨ e = ValueError ∧ pos_mode = true
         ∧ (pos_avg_ticket_pool_size cfg ≤ 5)%Z).
Proof.
  intros _. split.
  - intros d tape st HH. cbn [mine_block].
    unfold attempt, random_choice_range.
    destruct (block_hash_space cfg <=? 0)%Z eqn:E; [done|lia].
  - intros tape st e. apply mine_block_Raise.
Qed.

Lemma mine_block_errors_witness :
  mine_block cfg_no_hashes false 0 [mk_draw 0 0] pow_start = Raise IndexError
  ∧ (IndexError = IndexError ∧ (block_hash_space cfg_no_hashes ≤ 0)%Z
     ∨ IndexError = ValueError ∧ false = true
       ∧ (pos_avg_ticket_pool_size cfg_no_hashes ≤ 5)%Z).
Proof.
  destruct (mine_block_errors cfg_no_hashes false 0) as [H1 H2];
    [repeat split|].
  assert (H : mine_block cfg_no_hashes false 0 [mk_draw 0 0] pow_start
              = Raise IndexError).
  { apply H1. cbn. lia. }
  split; [exact H|]. exact (H2 _ _ _ H).
Defined.

(** X8. With positive vote counts, a positive hash space and, in stake
    mode, a pool of at least six tickets, [mine_block] goes on drawing
    exactly as long as no pass has an accepted winner: the draws given do
    not suffice for it to return iff none of them gives an adversary a
    block. *)
Theorem mine_block_waits_for_a_winner cfg pos_mode ch tape st :
  votes_counted cfg →
  (0 < block_hash_space cfg)%Z →
  (pos_mode = true → (6 ≤ pos_avg_ticket_pool_size cfg)%Z) →
  mine_block cfg pos_mode ch tape st = OutOfTape
  ↔ ∀ d, d ∈ tape →
         ¬ ∃ i adv, adversaries st !! i = Some adv
                    ∧ accepted_winner cfg pos_mode d adv = true.
Proof. intros _. apply mine_block_starved. Qed.

Lemma mine_block_waits_for_a_winner_witness :
  mine_block cfg_small_pool true 0 [mk_draw 0 4; mk_draw 0 4] stake_start
  = OutOfTape
  ↔ ∀ d, d ∈ [mk_draw 0 4; mk_draw 0 4] →
         ¬ ∃ i adv, adversaries stake_start !! i = Some adv
                    ∧ accepted_winner cfg_small_pool true d adv = true.
Proof.
  apply (mine_block_waits_for_a_winner cfg_small_pool true 0
           [mk_draw 0 4; mk_draw 0 4] stake_start).
  - repeat split.
  - reflexivity.
  - intros _. cbn. lia.
Defined.

Section Records.

Lemma attempt_record cfg pos_mode ch d st st' acc :
  attempt cfg pos_mode ch d st = Ok (st', acc) →
  ∃ c,
    sim st'
    = sim_set_cycles (sim st) (<[zfill 3 (py_str ch) := c]> (cycles (sim st)))
    ∧ (acc = true → round_record cfg pos_mode d (adversaries st) c).
Proof.
  unfold attempt. intros H.
  apply bind_Ok in H as (h & Hh & H).
  apply random_choice_range_Ok in Hh as [-> HH].
  fold (drawn_hash cfg d) in H.
  set (h := drawn_hash cfg d) in *.
  set (key := zfill 3 (py_str ch)) in *.
  assert (Hws : ∀ i, i ∈ (pow_loop pos_mode h key 0 (adversaries st)).2
                     ↔ ∃ adv, adversaries st !! i = Some adv
                              ∧ wins_pow h adv = true).
  { intros i. rewrite pow_loop_snd. split.
    - intros (j & adv & -> & ? & ?). by exists adv.
    - intros (adv & ? & ?). by exists i, adv. }
  destruct (truthy (pow_loop pos_mode h key 0 (adversaries st)).2) eqn:Ht.
  - destruct pos_mode.
    + apply bind_Ok in H as ([k drawn] & Hc & H).
      injection H as <- <-. eexists. split; [reflexivity|]. intros _.
      split; [done|]. split; [by eexists|]. split; [|done].
      eexists. split; [reflexivity|]. intros i.
      rewrite pos_loop_snd. split.
      * intros (j & adv1 & -> & Hj & Hs). cbn in Hs.
        rewrite pos_step_snd in Hs. apply andb_true_iff in Hs as [Hin Hm].
        apply bool_decide_eq_true in Hin. apply Hws in Hin as (adv & Ha & Hw).
        rewrite pow_loop_fst, list_lookup_fmap, Ha in Hj.
        injection Hj as <-. exists adv. split; [done|].
        unfold accepted_winner, confirms. fold h. rewrite Hw, Hc. cbn.
        revert Hm. rewrite Hw. by unfold has_majority, owned_in.
      * intros (adv & Ha & Hacc). eexists i, _. split; [done|].
        rewrite pow_loop_fst, list_lookup_fmap, Ha. split; [done|].
        rewrite pos_step_snd.
        unfold accepted_winner, confirms in Hacc. fold h in Hacc.
        rewrite Hc in Hacc. apply andb_true_iff in Hacc as [Hw Hm].
        rewrite Hw. apply andb_true_iff. split.
        -- apply bool_decide_eq_true. apply Hws. by exists adv.
        -- by unfold has_majority, owned_in in *.
    + injection H as <- <-. eexists. split; [reflexivity|]. intros _.
      split; [done|]. split; [by eexists|]. done.
  - injection H as <- <-. eexists. split; [reflexivity|]. done.
Qed.

Lemma round_record_later cfg pos_mode d advs advs' c :
  (∀ i, match advs !! i with
        | Some adv => ∃ adv', advs' !! i = Some adv'
                              ∧ same_endowment adv adv'
        | None => advs' !! i = None
        end) →
  round_record cfg pos_mode d advs' c → round_record cfg pos_mode d advs c.
Proof.
  intros Hs (Hh & (ws & Hws & Hw) & Hp & Hd).
  assert (Hpow : ∀ i, (∃ adv, advs' !! i = Some adv
                              ∧ wins_pow (drawn_hash cfg d) adv = true)
                      ↔ (∃ adv, advs !! i = Some adv
                                ∧ wins_pow (drawn_hash cfg d) adv = true)).
  { intros i. specialize (Hs i). split.
    - intros (adv' & Hi & Hwin).
      destruct (advs !! i) as [adv|]; [|congruence].
      destruct Hs as (adv2 & Hi2 & _ & Hpb & _).
      exists adv. split; [done|]. assert (adv2 = adv') as -> by congruence.
      unfold wins_pow in *. by rewrite <- Hpb.
    - intros (adv & Hi & Hwin). rewrite Hi in Hs.
      destruct Hs as (adv' & Hi' & _ & Hpb & _). exists adv'.
      split; [done|]. unfold wins_pow in *. by rewrite Hpb. }
  assert (Hacc : ∀ i, (∃ adv, advs' !! i = Some adv
                              ∧ accepted_winner cfg true d adv = true)
                      ↔ (∃ adv, advs !! i = Some adv
                                ∧ accepted_winner cfg true d adv = true)).
  { intros i. specialize (Hs i). split.
    - intros (adv' & Hi & Hwin).
      destruct (advs !! i) as [adv|]; [|congruence].
      destruct Hs as (adv2 & Hi2 & Hse).
      exists adv. split; [done|]. assert (adv2 = adv') as -> by congruence.
      by rewrite <- (proj1 (same_endowment_decisions cfg true d _ _ Hse)).
    - intros (adv & Hi & Hwin). rewrite Hi in Hs.
      destruct Hs as (adv' & Hi' & Hse). exists adv'. split; [done|].
      by rewrite (proj1 (same_endowment_decisions cfg true d _ _ Hse)). }
  split; [done|]. split.
  { exists ws. split; [done|]. intros i. by rewrite Hw, Hpow. }
  split; [|done]. destruct pos_mode; [|done].
  destruct Hp as (cs & Hcs & Hc). exists cs. split; [done|].
  intros i. by rewrite Hc, Hacc.
Qed.

Lemma mine_block_record cfg pos_mode ch tape st st' rest :
  mine_block cfg pos_mode ch tape st = Ok (st', rest) →
  ∃ used d c,
    tape = used ++ d :: rest
    ∧ sim st'
      = sim_set_cycles (sim st)
          (<[zfill 3 (py_str ch) := c]> (cycles (sim st)))
    ∧ round_record cfg pos_mode d (adversaries st) c.
Proof.
  revert st. induction tape as [|d0 tape IH]; intros st H; [done|].
  cbn [mine_block] in H.
  apply bind_Ok in H as ([st1 acc] & Hatt & H).
  destruct (attempt_record _ _ _ _ _ _ _ Hatt) as (c0 & Hsim & Hrec).
  destruct acc.
  - injection H as <- <-. exists [], d0, c0. split; [done|].
    split; [done|]. by apply Hrec.
  - apply IH in H as (used & d & c & -> & Hsim' & Hrec').
    exists (d0 :: used), d, c. split; [done|]. split.
    + rewrite Hsim', Hsim. unfold sim_set_cycles. cbn.
      by rewrite insert_insert_eq.
    + eapply round_record_later; [|exact Hrec'].
      intros i. by eapply attempt_same_endowment.
Qed.

End Records.

(** X9. When [mine_block] returns, the cycles of the simulation differ
    from those before the call in the one entry of this cycle height,
    whatever the number of passes, and the milestones are as before. The
    entry holds the hash of the accepted pass, as [pow_winners] exactly
    the adversaries that own it and, in stake mode, as [pos_winners]
    exactly those the committee confirmed; it holds no
    [distance_before_this_cycle], the entry [calc_distance] wrote for this
    height being replaced. *)
Theorem mine_block_cycle_record cfg pos_mode ch tape st st' rest :
  mine_block cfg pos_mode ch tape st = Ok (st', rest) →
  ∃ used d c,
    tape = used ++ d :: rest
    ∧ cycles (sim st') = <[zfill 3 (py_str ch) := c]> (cycles (sim st))
    ∧ same_milestones (sim st) (sim st')
    ∧ round_record cfg pos_mode d (adversaries st) c.
Proof.
  intros H. apply mine_block_record in H as (used & d & c & Ht & Hs & Hr).
  exists used, d, c. rewrite Hs. split; [done|]. split; [done|].
  split; [|done]. unfold same_milestones, sim_set_cycles.
  cbn [block_diff_2 block_diff_6 block_diff_2_winner
       block_diff_2_winner_score block_diff_6_winner
       block_diff_6_winner_score].
  repeat split.
Qed.

Lemma mine_block_cycle_record_witness :
  ∃ st' rest used d c,
    mine_block cfg_small_pool true 0 two_passes stake_start = Ok (st', rest)
    ∧ two_passes = used ++ d :: rest
    ∧ cycles (sim st')
      = <[zfill 3 (py_str 0) := c]> (cycles (sim stake_start))
    ∧ same_milestones (sim stake_start) (sim st')
    ∧ round_record cfg_small_pool true d (adversaries stake_start) c.
Proof.
  assert (O : after_round
                (mine_block cfg_small_pool true 0 two_passes stake_start)
              = Some ([(1, 1, 1, 1); (0, 0, 0, 0)]%nat, 0%nat))
    by (vm_compute; reflexivity).
  destruct (mine_block cfg_small_pool true 0 two_passes stake_start)
    as [[st' rest]| |] eqn:E; try discriminate O.
  destruct (mine_block_cycle_record cfg_small_pool true 0 two_passes
              stake_start st' rest E) as (used & d & c & H).
  exists st', rest, used, d, c. split; [reflexivity|]. exact H.
Defined.

Section Books.

Lemma round_effect_balanced cfg pos_mode used d adv adv' :
  round_effect cfg pos_mode used d adv adv' →
  balanced pos_mode adv →
  balanced pos_mode
    (adv_set_sum_blocks adv' (length (drawn_block_hashes adv'))).
Proof.
  intros (_ & _ & He) ((Hok & Hsum & Hval) & Hlen).
  assert (chain_ok adv'
          ∧ length (drawn_block_hashes adv') = size (chain adv')
          ∧ (pos_mode = true → validated_blocks adv' = size (chain adv')))
    as (Hok' & Hlen' & Hval').
  { destruct (accepted_winner cfg pos_mode d adv).
    - destruct (grown_chain _ _ _ _ Hok He) as (Hsz & _ & Hok').
      destruct He as (Hd & _ & Hv & _).
      rewrite Hd, length_app, Hsz, Hv, Hlen. cbn [length].
      split; [done|]. split; [lia|]. intros ->. rewrite Hval by done. lia.
    - pose proof (kept_chain_ok _ _ Hok He) as Hok'.
      destruct He as (Hd & Hc & Hv & _).
      rewrite Hd, Hc, Hv, Hlen. done. }
  split; [split; [exact Hok'|split]|]; cbn; done.
Qed.

Lemma run_loop_balanced cfg pos_mode fuel tape ch st st' :
  run_loop cfg pos_mode fuel tape ch st = Ok st' →
  Forall (balanced pos_mode) (adversaries st) →
  Forall (balanced pos_mode) (adversaries st').
Proof.
  revert tape ch st. induction fuel as [|fuel IH]; intros tape ch st H Hb;
    [done|].
  cbn [run_loop] in H.
  apply bind_Ok in H as ([d st1] & Hcd & H).
  apply calc_distance_Ok in Hcd as (Hadv & _ & _).
  destruct (d <? 6)%nat.
  - apply bind_Ok in H as ([st2 tape'] & Hmb & H).
    apply IH in H; [done|].
    apply mine_block_effect in Hmb as (used & d1 & _ & _ & _ & Heff).
    unfold update_sum_blocks. cbn [adversaries].
    apply Forall_lookup. intros i adv2 Hi.
    rewrite list_lookup_fmap in Hi.
    destruct (adversaries st2 !! i) as [adv'|] eqn:Hi2; [|done].
    injection Hi as <-. specialize (Heff i). rewrite Hadv in Heff.
    destruct (adversaries st !! i) as [adv|] eqn:Hi0; [|congruence].
    destruct Heff as (adv3 & Hi3 & Hre).
    assert (adv3 = adv') as -> by congruence.
    eapply round_effect_balanced; [done|].
    by eapply Forall_lookup_1.
  - injection H as <-. by rewrite Hadv.
Qed.

End Books.

(** X10. A run keeps the books of every adversary: if before the run the
    drawn blocks, [sum_blocks] and, in stake mode, [validated_blocks] of
    each adversary count the blocks of its chain, then so do
    [sum_blocks] and [validated_blocks] in
    the state [run_simulation] returns, and the drawn blocks unless the
    clean-up erased them. *)
Theorem run_simulation_keeps_books cfg ar pos_mode tape st st' :
  Forall (balanced pos_mode) (adversaries st) →
  run_simulation cfg ar pos_mode tape st = Ok st' →
  Forall (books pos_mode) (adversaries st')
  ∧ (noerasedrawn ar = true → Forall (balanced pos_mode) (adversaries st')).
Proof.
  intros Hb H. unfold run_simulation in H.
  apply bind_Ok in H as (st1 & Hrun & H). injection H as <-.
  unfold run_to_end in Hrun. apply run_loop_balanced in Hrun; [|done].
  cbn [adversaries]. split.
  - apply Forall_fmap. eapply Forall_impl; [exact Hrun|].
    by intros adv [? _].
  - intros Hk. apply Forall_fmap. eapply Forall_impl; [exact Hrun|].
    intros adv [? ?]. split; [done|]. cbn. by rewrite Hk.
Qed.

Lemma run_simulation_keeps_books_witness :
  ∃ st',
    run_simulation cfg_small_pool default_args true stake_tape stake_start
    = Ok st'
    ∧ Forall (books true) (adversaries st')
    ∧ (noerasedrawn default_args = true →
       Forall (balanced true) (adversaries st')).
Proof.
  assert (O : after_run
                (run_simulation cfg_small_pool default_args true stake_tape
                   stake_start)
              = Some (3%Z, Some 0%nat, Some "2"%string, 7%Z, Some 0%nat,
                      Some "6"%string, [6; 0]%nat))
    by (vm_compute; reflexivity).
  destruct (run_simulation cfg_small_pool default_args true stake_tape
              stake_start) as [st'| |] eqn:E; try discriminate O.
  exists st'. split; [reflexivity|].
  apply (run_simulation_keeps_books cfg_small_pool default_args true
           stake_tape stake_start st'); [|exact E].
  repeat constructor; intros key Hs; cbn in Hs;
    rewrite lookup_empty in Hs; by destruct Hs.
Defined.

Section Extremes.

Lemma foldl_max_spec (l : list nat) x :
  (foldl Nat.max x l = x ∨ foldl Nat.max x l ∈ l)
  ∧ (x ≤ foldl Nat.max x l)%nat
  ∧ ∀ y, y ∈ l → (y ≤ foldl Nat.max x l)%nat.
Proof.
  revert x. induction l as [|a l IH]; intros x; cbn.
  - split; [by left|]. split; [done|]. intros y Hy. by apply elem_of_nil in Hy.
  - destruct (IH (x `max` a)%nat) as (Hin & Hle & Hall). split.
    + destruct Hin as [->|Hin].
      * destruct (Nat.max_spec x a) as [[_ ->]|[_ ->]]; [right; by left|by left].
      * right. by right.
    + split; [lia|]. intros y Hy. apply elem_of_cons in Hy as [->|Hy]; [lia|].
      by apply Hall.
Qed.

Lemma foldl_min_spec (l : list nat) x :
  (foldl Nat.min x l = x ∨ foldl Nat.min x l ∈ l)
  ∧ (foldl Nat.min x l ≤ x)%nat
  ∧ ∀ y, y ∈ l → (foldl Nat.min x l ≤ y)%nat.
Proof.
  revert x. induction l as [|a l IH]; intros x; cbn.
  - split; [by left|]. split; [done|]. intros y Hy. by apply elem_of_nil in Hy.
  - destruct (IH (x `min` a)%nat) as (Hin & Hle & Hall). split.
    + destruct Hin as [->|Hin].
      * destruct (Nat.min_spec x a) as [[_ ->]|[_ ->]]; [by left|right; by left].
      * right. by right.
    + split; [lia|]. intros y Hy. apply elem_of_cons in Hy as [->|Hy]; [lia|].
      by apply Hall.
Qed.

Lemma py_max_Ok l M :
  py_max l = Ok M → M ∈ l ∧ ∀ y, y ∈ l → (y ≤ M)%nat.
Proof.
  destruct l as [|x l]; [done|]. cbn. intros [= <-].
  destruct (foldl_max_spec l x) as (Hin & Hle & Hall). split.
  - destruct Hin as [->|Hin]; [by left|by right].
  - intros y Hy. apply elem_of_cons in Hy as [->|Hy]; [done|by apply Hall].
Qed.

Lemma py_min_Ok l m :
  py_min l = Ok m → m ∈ l ∧ ∀ y, y ∈ l → (m ≤ y)%nat.
Proof.
  destruct l as [|x l]; [done|]. cbn. intros [= <-].
  destruct (foldl_min_spec l x) as (Hin & Hle & Hall). split.
  - destruct Hin as [->|Hin]; [by left|by right].
  - intros y Hy. apply elem_of_cons in Hy as [->|Hy]; [done|by apply Hall].
Qed.

Lemma max_distance (sq : list nat) M m :
  M ∈ sq → m ∈ sq →
  (∀ y, y ∈ sq → (m ≤ y ≤ M)%nat) →
  max_list (distances sq) = (M - m)%nat.
Proof.
  intros HM Hm Hall. apply Nat.le_antisymm.
  - apply max_list_bound. intros x Hx.
    apply elem_of_distances in Hx as (i & j & Hi & Hj & _ & ->).
    apply Hall in Hi, Hj. unfold abs_diff. destruct (i <? j)%nat; lia.
  - destruct (decide (M = m)) as [->|Hne]; [lia|].
    apply max_list_elem_of_le. apply elem_of_distances.
    exists M, m. split; [done|]. split; [done|]. split; [done|].
    unfold abs_diff. specialize (Hall m Hm).
    destruct (M <? m)%nat eqn:E; [|done]. apply Nat.ltb_lt in E. lia.
Qed.

Lemma find_lag_lead_lag m M advs idx acc :
  ∀ l, (find_lag_lead m M idx advs acc).1 = Some l →
       acc.1 = Some l
       ∨ ∃ i adv, l = (idx + i)%nat ∧ advs !! i = Some adv
                  ∧ length (drawn_block_hashes adv) = m.
Proof.
  revert idx acc. induction advs as [|adv advs IH]; intros idx acc l H.
  - by left.
  - cbn [find_lag_lead] in H. apply IH in H as [H|(i & adv' & -> & Hi & Hl)].
    + destruct (length (drawn_block_hashes adv) =? m)%nat eqn:E.
      * right. exists 0%nat, adv. cbn in H. injection H as <-.
        apply Nat.eqb_eq in E. split; [lia|]. done.
      * left. by destruct (_ =? M)%nat.
    + right. exists (S i), adv'. split; [lia|]. done.
Qed.

End Extremes.

(** X11. The distance [calc_distance] takes from the list of all pairwise
    differences is the lead of the leading height over the lagging one,
    [max(seq) - min(seq)]. *)
Theorem calculated_distance_is_lead advs leading_height lagging_height :
  py_max (heights advs) = Ok leading_height →
  py_min (heights advs) = Ok lagging_height →
  calculated_distance advs = (leading_height - lagging_height)%nat.
Proof.
  intros HM Hm. apply py_max_Ok in HM as [HM HMall].
  apply py_min_Ok in Hm as [Hm Hmall].
  unfold calculated_distance. apply max_distance; try done.
  intros y Hy. split; [by apply Hmall|by apply HMall].
Qed.

Lemma calculated_distance_is_lead_witness :
  calculated_distance (adversaries rewound_seven) = (7 - 0)%nat.
Proof.
  apply (calculated_distance_is_lead (adversaries rewound_seven) 7 0);
    reflexivity.
Defined.

Section Tracker.

Lemma milestone_winner_Raise advs e :
  milestone_winner advs = Raise e → e = ValueError ∧ advs = [].
Proof.
  unfold milestone_winner, winner_list. destruct advs as [|adv advs]; [|done].
  by intros [= <-].
Qed.

Lemma record_milestone_Raise ch d advs sm e :
  record_milestone ch d advs sm = Raise e →
  e = ValueError ∧ advs = [] ∨ e = SystemExit 5 ∧ (6 < d)%nat.
Proof.
  unfold record_milestone.
  destruct (_ && _)%bool.
  { intros H. apply bind_Raise in H as [H|(w & _ & H)]; [|done].
    left. by apply milestone_winner_Raise. }
  destruct (d =? 6)%nat.
  { intros H. apply bind_Raise in H as [H|(w & _ & H)]; [|done].
    left. by apply milestone_winner_Raise. }
  destruct (6 <? d)%nat eqn:Hgt; [|done].
  apply Nat.ltb_lt in Hgt. intros [= <-]. by right.
Qed.

Lemma record_milestone_after ch d advs sm sm' :
  record_milestone ch d advs sm = Ok sm' →
  milestones_after ch d advs sm sm' ∧ cycles sm' = cycles sm.
Proof.
  unfold record_milestone, milestones_after.
  destruct (_ && _)%bool.
  { intros H. apply bind_Ok in H as (w & Hw & H). injection H as <-.
    split; [|done]. exists w. by repeat split. }
  destruct (d =? 6)%nat.
  { intros H. apply bind_Ok in H as (w & Hw & H). injection H as <-.
    split; [|done]. exists w. by repeat split. }
  destruct (6 <? d)%nat; [done|]. intros [= <-]. by repeat split.
Qed.

Lemma record_probability_same pos_mode ch d lag advs sm sm' :
  record_probability pos_mode ch d lag advs sm = Ok sm' →
  same_milestones sm sm'.
Proof.
  unfold record_probability. destruct lag as [l|]; [|by intros [= <-]].
  destruct (advs !! l) as [adv|]; [|done].
  destruct (laggard_wins_surely pos_mode adv); [done|].
  by intros [= <-].
Qed.

Lemma milestones_after_same ch d advs sm sm1 sm2 :
  milestones_after ch d advs sm sm1 → same_milestones sm1 sm2 →
  milestones_after ch d advs sm sm2.
Proof.
  unfold milestones_after, same_milestones.
  intros H (E1 & E2 & E3 & E4 & E5 & E6).
  rewrite E1, E2, E3, E4, E5, E6. exact H.
Qed.

Lemma calc_distance_after pos_mode ch st d st1 :
  calc_distance pos_mode ch st = Ok (d, st1) →
  (1 ≤ ch)%nat →
  milestones_after ch d (adversaries st) (sim st) (sim st1).
Proof.
  unfold calc_distance. intros H Hch.
  replace (ch <? 1)%nat with false in H by (symmetry; apply Nat.ltb_ge; lia).
  apply bind_Ok in H as (hi & _ & H).
  apply bind_Ok in H as (lo & _ & H).
  destruct (find_lag_lead lo hi 0 (adversaries st) (None, None))
    as [lag lead].
  apply bind_Ok in H as (sm1 & H1 & H).
  apply bind_Ok in H as (sm2 & H2 & H).
  injection H as <- <-. cbn [sim].
  apply record_milestone_after in H1 as [H1 _].
  apply record_probability_same in H2.
  by eapply milestones_after_same.
Qed.

Lemma calc_distance_Raise pos_mode ch st e :
  calc_distance pos_mode ch st = Raise e →
  (1 ≤ ch)%nat
  ∧ (e = ValueError ∧ adversaries st = []
     ∨ e = SystemExit 5 ∧ (6 < calculated_distance (adversaries st))%nat
     ∨ e = ZeroDivisionError
       ∧ (calculated_distance (adversaries st) ≤ 6)%nat
       ∧ ∃ l adv, adversaries st !! l = Some adv
                  ∧ py_min (heights (adversaries st))
                    = Ok (length (drawn_block_hashes adv))
                  ∧ laggard_wins_surely pos_mode adv = true).
Proof.
  unfold calc_distance. destruct (ch <? 1)%nat eqn:Hch; [done|].
  apply Nat.ltb_ge in Hch. intros H. split; [done|].
  apply bind_Raise in H as [H|(hi & _ & H)].
  { left. unfold py_max in H.
    destruct (heights _) eqn:E; [|done]. injection H as <-.
    split; [done|]. by apply fmap_nil_inv in E. }
  apply bind_Raise in H as [H|(lo & Hlo & H)].
  { left. unfold py_min in H.
    destruct (heights _) eqn:E; [|done]. injection H as <-.
    split; [done|]. by apply fmap_nil_inv in E. }
  destruct (find_lag_lead lo hi 0 (adversaries st) (None, None))
    as [lag lead] eqn:Hll.
  apply bind_Raise in H as [H|(sm1 & H1 & H)].
  - apply record_milestone_Raise in H as [H|H]; [by left|right; by left].
  - apply bind_Raise in H as [H|(sm2 & _ & H)]; [|done].
    right. right. apply record_milestone_Ok in H1 as [H1 _].
    unfold record_probability in H. destruct lag as [l|]; [|done].
    pose proof (find_lag_lead_lag lo hi (adversaries st) 0 (None, None) l)
      as Hl.
    rewrite Hll in Hl.
    destruct (Hl eq_refl) as [Hl'|(i & adv & -> & Hi & Hlen)]; [done|].
    cbn in H. rewrite Hi in H.
    destruct (laggard_wins_surely pos_mode adv) eqn:Hs; [|done].
    injection H as <-. split; [done|]. split; [done|].
    exists i, adv. by rewrite Hlen.
Qed.

Lemma calc_distance_not_starved pos_mode ch st :
  calc_distance pos_mode ch st ≠ OutOfTape.
Proof.
  unfold calc_distance. destruct (ch <? 1)%nat; [done|]. intros H.
  apply bind_OutOfTape in H as [H|(hi & _ & H)].
  { unfold py_max in H. by destruct (heights _). }
  apply bind_OutOfTape in H as [H|(lo & _ & H)].
  { unfold py_min in H. by destruct (heights _). }
  destruct (find_lag_lead lo hi 0 (adversaries st) (None, None))
    as [lag lead].
  apply bind_OutOfTape in H as [H|(sm1 & _ & H)].
  { unfold record_milestone, milestone_winner in H.
    destruct (_ && _)%bool; [by destruct (winner_list _)|].
    destruct (_ =? 6)%nat; [by destruct (winner_list _)|].
    by destruct (6 <? _)%nat. }
  apply bind_OutOfTape in H as [H|(sm2 & _ & H)]; [|done].
  unfold record_probability in H. destruct lag as [l|]; [|done].
  destruct (adversaries st !! l) as [adv|]; [|done].
  by destruct (laggard_wins_surely pos_mode adv).
Qed.

Lemma laggard_wins_surely_pow adv :
  laggard_wins_surely false adv = true ↔ has_all_hashpower adv.
Proof.
  unfold laggard_wins_surely, has_all_hashpower. rewrite Qeq_bool_iff.
  split; intros H.
  - assert (E : (hashpower adv == hashpower adv / 100 * 100)%Q) by field.
    rewrite E, H. reflexivity.
  - rewrite H. reflexivity.
Qed.

Lemma never_sure_pow advs :
  Forall (fun adv => ¬ has_all_hashpower adv) advs →
  Forall (fun adv => laggard_wins_surely false adv = false) advs.
Proof.
  intros H. eapply Forall_impl; [exact H|]. intros adv Hn.
  destruct (laggard_wins_surely false adv) eqn:E; [|done].
  by apply laggard_wins_surely_pow in E.
Qed.

End Tracker.

(** X12. In pure PoW mode and with shares between 0 and 100,
    [calc_distance] never waits for a draw and raises only three errors,
    all of them after the first cycle: [ValueError] when there is no
    adversary, [exit(5)] when the distance is above 6, and
    [ZeroDivisionError] when the distance is at most 6 and the adversary
    taken as the laggard, one at the lowest height, has a hashpower of
    100, so that [attacker_success_probability] divides by [1 - q = 0];
    it never fails with [KeyError]. *)
Theorem calc_distance_errors ch st :
  Forall shares_in_range (adversaries st) →
  calc_distance false ch st ≠ OutOfTape
  ∧ ∀ e,
      calc_distance false ch st = Raise e →
      (1 ≤ ch)%nat
      ∧ (e = ValueError ∧ adversaries st = []
         ∨ e = SystemExit 5
           ∧ (6 < calculated_distance (adversaries st))%nat
         ∨ e = ZeroDivisionError
           ∧ (calculated_distance (adversaries st) ≤ 6)%nat
           ∧ ∃ l adv, adversaries st !! l = Some adv
                      ∧ py_min (heights (adversaries st))
                        = Ok (length (drawn_block_hashes adv))
                      ∧ has_all_hashpower adv).
Proof.
  intros _. split; [apply calc_distance_not_starved|].
  intros e H. apply calc_distance_Raise in H as [Hch H].
  split; [done|].
  destruct H as [H|[H|(He & Hd & l & adv & Hl & Hm & Hs)]];
    [by left|right; by left|].
  right. right. split; [done|]. split; [done|].
  exists l, adv. split; [done|]. split; [done|].
  by apply laggard_wins_surely_pow.
Qed.

Lemma calc_distance_errors_witness :
  calc_distance false 1 sure_laggard = Raise ZeroDivisionError
  ∧ (1 ≤ 1)%nat
  ∧ (ZeroDivisionError = ValueError ∧ adversaries sure_laggard = []
     ∨ ZeroDivisionError = SystemExit 5
       ∧ (6 < calculated_distance (adversaries sure_laggard))%nat
     ∨ ZeroDivisionError = ZeroDivisionError
       ∧ (calculated_distance (adversaries sure_laggard) ≤ 6)%nat
       ∧ ∃ l adv, adversaries sure_laggard !! l = Some adv
                  ∧ py_min (heights (adversaries sure_laggard))
                    = Ok (length (drawn_block_hashes adv))
                  ∧ has_all_hashpower adv).
Proof.
  assert (H : calc_distance false 1 sure_laggard = Raise ZeroDivisionError)
    by (vm_compute; reflexivity).
  assert (S : Forall shares_in_range (adversaries sure_laggard))
    by (repeat constructor; unfold Qle; cbn; lia).
  split; [exact H|].
  exact (proj2 (calc_distance_errors 1 sure_laggard S) _ H).
Defined.

Section Milestones.

Lemma max_by_value_elem best l :
  max_by_value best l = best ∨ max_by_value best l ∈ l.
Proof.
  revert best. induction l as [|x l IH]; intros best; cbn; [by left|].
  destruct (IH (if str_gt x.2 best.2 then x else best)) as [->|H].
  - destruct (str_gt x.2 best.2); [right; by left|by left].
  - right. by right.
Qed.

Lemma milestone_winner_Ok advs w :
  milestone_winner advs = Ok w →
  ∃ adv, advs !! w.1 = Some adv ∧ w.2 = py_str (sum_blocks adv).
Proof.
  unfold milestone_winner. destruct (winner_list advs) as [|x l] eqn:E; [done|].
  intros [= <-].
  assert (max_by_value x l ∈ winner_list advs) as Hin.
  { rewrite E. destruct (max_by_value_elem x l) as [->|H]; [by left|by right]. }
  unfold winner_list in Hin.
  apply elem_of_lookup_imap in Hin as (i & adv & -> & Hi). by exists adv.
Qed.

Lemma calculated_distance_update_sum_blocks st :
  calculated_distance (adversaries (update_sum_blocks st))
  = calculated_distance (adversaries st).
Proof. unfold calculated_distance. by rewrite heights_update_sum_blocks. Qed.

Lemma run_loop_milestones cfg pos_mode fuel tape ch st st' :
  run_loop cfg pos_mode fuel tape ch st = Ok st' →
  block_diff_2 (sim st) = (-1)%Z
  ∧ (calculated_distance (adversaries st)
     ≤ if (1 <=? ch)%nat then 2 else 1)%nat
  ∨ (0 < block_diff_2 (sim st) ≤ Z.of_nat ch)%Z →
  milestones_reached st'.
Proof.
  revert tape ch st. induction fuel as [|fuel IH]; intros tape ch st H Hinv;
    [done|].
  cbn [run_loop] in H.
  apply bind_Ok in H as ([d st1] & Hcd & H).
  pose proof (calc_distance_Ok _ _ _ _ _ Hcd) as (Hadv & Hd6 & Hcase).
  destruct (d <? 6)%nat eqn:Hlt.
  - apply Nat.ltb_lt in Hlt.
    apply bind_Ok in H as ([st2 tape'] & Hmb & H).
    apply IH in H; [done|].
    pose proof (mine_block_distance _ _ _ _ _ _ _ Hmb) as Hstep.
    apply mine_block_record in Hmb as (_ & _ & c & _ & Hsim & _).
    rewrite calculated_distance_update_sum_blocks.
    cbn [update_sum_blocks sim]. rewrite Hsim. cbn [sim_set_cycles block_diff_2].
    rewrite Hadv in Hstep.
    replace (1 <=? ch + 1)%nat with true by (symmetry; apply Nat.leb_le; lia).
    destruct Hcase as [(-> & -> & ->)|[Hch ->]].
    + destruct Hinv as [[Hf Hdist]|Hf]; [|lia]. left. cbn in Hdist.
      split; [done|lia].
    + apply (calc_distance_after _ _ _ _ _ Hcd) in Hch as Haft.
      unfold milestones_after in Haft.
      destruct Hinv as [[Hf Hdist]|Hf].
      * replace (1 <=? ch)%nat with true in Hdist
          by (symmetry; apply Nat.leb_le; lia).
        rewrite Hf in Haft. cbn [Z.eqb Pos.eqb] in Haft.
        rewrite andb_true_r in Haft.
        destruct (calculated_distance (adversaries st) =? 2)%nat eqn:E2.
        -- destruct Haft as (w & _ & -> & _). right. lia.
        -- apply Nat.eqb_neq in E2.
           replace (calculated_distance (adversaries st) =? 6)%nat
             with false in Haft by (symmetry; apply Nat.eqb_neq; lia).
           destruct Haft as (-> & _). left. split; [done|lia].
      * replace (block_diff_2 (sim st) =? -1)%Z with false in Haft
          by (symmetry; apply Z.eqb_neq; lia).
        rewrite andb_false_r in Haft.
        replace (calculated_distance (adversaries st) =? 6)%nat
          with false in Haft by (symmetry; apply Nat.eqb_neq; lia).
        destruct Haft as (-> & _). right. lia.
  - apply Nat.ltb_ge in Hlt. injection H as <-.
    destruct Hcase as [(-> & -> & ->)|[Hch ->]]; [lia|].
    apply (calc_distance_after _ _ _ _ _ Hcd) in Hch as Haft.
    unfold milestones_after in Haft.
    assert (calculated_distance (adversaries st) = 6%nat) as Hsix by lia.
    rewrite Hsix in Haft. cbn [Nat.eqb andb] in Haft.
    destruct Haft as (w & Hw & E6 & Ew & Es & E2 & _).
    apply milestone_winner_Ok in Hw as (adv & Hi & Hscore).
    unfold milestones_reached. rewrite E6, E2, Ew, Es, Hadv. split.
    + destruct Hinv as [[_ Hdist]|Hf]; [|lia].
      rewrite Hsix in Hdist. destruct (1 <=? ch)%nat; lia.
    + exists w.1, adv. by rewrite Hscore.
Qed.

End Milestones.

(** X13. A run that starts at a distance of at most 1, or after a rewind
    at a distance of at most 2, and ends has passed both milestones in
    order: [2-block-diff] is positive and smaller than [6-block-diff], and
    [6-block-diff_winner] names an adversary whose [sum_blocks], as a
    string, is the score recorded with it. *)
Theorem run_passes_both_milestones cfg pos_mode tape st st' :
  (calculated_distance (adversaries st) ≤ 1)%nat
  ∨ (1 ≤ size (cycles (sim st)))%nat
    ∧ (calculated_distance (adversaries st) ≤ 2)%nat →
  run_to_end cfg pos_mode tape st = Ok st' →
  milestones_reached st'.
Proof.
  intros Hstart H. unfold run_to_end in H.
  eapply run_loop_milestones; [exact H|]. left.
  cbn [sim adversaries start_simulation block_diff_2 cycles].
  split; [done|].
  destruct (1 <=? size (cycles (sim st)))%nat eqn:E.
  - destruct Hstart as [?|[_ ?]]; lia.
  - apply Nat.leb_gt in E. destruct Hstart as [?|[? _]]; lia.
Qed.

Lemma run_passes_both_milestones_witness :
  ∃ st',
    run_to_end cfg_small_pool true stake_tape stake_start = Ok st'
    ∧ milestones_reached st'.
Proof.
  assert (O : after_run
                (run_to_end cfg_small_pool true stake_tape stake_start)
              = Some (3%Z, Some 0%nat, Some "2"%string, 7%Z, Some 0%nat,
                      Some "6"%string, [6; 0]%nat))
    by (vm_compute; reflexivity).
  destruct (run_to_end cfg_small_pool true stake_tape stake_start)
    as [st'| |] eqn:E; try discriminate O.
  exists st'. split; [reflexivity|].
  apply (run_passes_both_milestones cfg_small_pool true stake_tape
           stake_start st'); [|exact E].
  left. vm_compute. lia.
Defined.

Section RewindSix.

Lemma max_by_value_ties best l :
  (∀ x, x ∈ l → x.2 = best.2) → max_by_value best l = best.
Proof.
  assert (Hirr : ∀ s, str_gt s s = false).
  { intros s. unfold str_gt.
    pose proof (String.compare_antisym s s) as E.
    by destruct (String.compare s s). }
  revert best. induction l as [|x l IH]; intros best Hall; cbn; [done|].
  rewrite (Hall x) by (by left). rewrite Hirr. apply IH.
  intros y Hy. apply Hall. by right.
Qed.

Lemma milestone_winner_all_zero advs :
  advs ≠ [] →
  Forall (fun adv => sum_blocks adv = 0%nat) advs →
  milestone_winner advs = Ok (0%nat, "0"%string).
Proof.
  destruct advs as [|adv advs]; [done|].
  intros _ Hall. unfold milestone_winner, winner_list.
  cbn [imap]. apply Forall_cons in Hall as [-> Hall].
  change (py_str 0) with "0"%string. f_equal.
  apply max_by_value_ties. intros x Hx.
  apply elem_of_lookup_imap in Hx as (i & y & -> & Hi). cbn.
  apply list_elem_of_lookup_2 in Hi.
  rewrite Forall_forall in Hall. by rewrite (Hall y Hi).
Qed.

Lemma calc_distance_returns pos_mode ch st :
  adversaries st ≠ [] →
  (calculated_distance (adversaries st) ≤ 6)%nat →
  Forall (fun adv => laggard_wins_surely pos_mode adv = false)
    (adversaries st) →
  ∃ d st1, calc_distance pos_mode ch st = Ok (d, st1).
Proof.
  intros Hne Hd Hl.
  destruct (calc_distance pos_mode ch st) as [[d st1]|e|] eqn:E.
  - by exists d, st1.
  - apply calc_distance_Raise in E
      as (_ & [[_ ?]|[[_ ?]|(_ & _ & l & adv & Hi & _ & Hs)]]);
      [done|lia|].
    apply list_elem_of_lookup_2 in Hi. rewrite Forall_forall in Hl.
    rewrite (Hl adv Hi) in Hs. done.
  - by apply calc_distance_not_starved in E.
Qed.

End RewindSix.

(** X14. In pure PoW mode a rewind of exactly six blocks ends the run
    before a block is mined. No draw is read and the adversaries stay as
    the rewind left them; [6-block-diff] is 7 and [2-block-diff] stays
    -1; and as the rewind does not touch [sum_blocks], all scores are 0
    and the recorded winner is the first adversary with score [0],
    whichever adversary was given the six blocks. The shares are between
    0 and 100 and no adversary has a hashpower of 100, or [calc_distance]
    divides by zero. *)
Theorem rewind_of_six_ends_at_once cfg tape rewind_adv advs :
  Forall fresh advs → (2 ≤ length advs)%nat →
  (rewind_adv < length advs)%nat →
  Forall shares_in_range advs →
  Forall (fun adv => ¬ has_all_hashpower adv) advs →
  ∃ st st',
    setup_block_rewind false 6 rewind_adv
      {| adversaries := advs; sim := create_simulation |} = Ok st
    ∧ run_to_end cfg false tape st = Ok st'
    ∧ adversaries st' = adversaries st
    ∧ block_diff_2 (sim st') = (-1)%Z
    ∧ block_diff_6 (sim st') = 7%Z
    ∧ block_diff_6_winner (sim st') = Some 0%nat
    ∧ block_diff_6_winner_score (sim st') = Some "0"%string.
Proof.
  intros Hfresh Hlen Ha _ Hfull.
  pose proof (never_sure_pow _ Hfull) as Hsure.
  destruct (setup_block_rewind_fresh false 6 rewind_adv advs)
    as (st & Hst & Hdist & _); try done; [lia|].
  destruct (lookup_lt_is_Some_2 advs rewind_adv Ha) as [adv Hadv].
  assert (Hadv_fresh : fresh adv).
  { rewrite Forall_forall in Hfresh. apply Hfresh.
    by eapply list_elem_of_lookup_2. }
  destruct (rewind_loop_exact false rewind_adv 6 0
              {| adversaries := advs; sim := create_simulation |} adv)
    as (st2 & adv' & Hrun & Hadvs & _ & _ & _ & _ & Hse & Hsc & Hcs);
    [done|by apply fresh_chain_ok| |].
  { cbn. intros key Hs. rewrite lookup_empty in Hs. by destruct Hs. }
  pose proof Hst as Hsetup.
  unfold setup_block_rewind in Hst. rewrite Hrun in Hst.
  injection Hst as ->. cbn [adversaries sim] in Hadvs, Hcs.
  unfold create_simulation in Hcs. cbn [cycles] in Hcs.
  rewrite map_size_empty, Nat.add_0_l in Hcs.
  assert (Hzero : Forall (fun adv => sum_blocks adv = 0%nat)
                    (adversaries st)).
  { rewrite Hadvs. apply Forall_insert.
    - eapply Forall_impl; [exact Hfresh|]. by intros x (_ & _ & ? & _).
    - destruct Hsc as (-> & _). by destruct Hadv_fresh as (_ & _ & ? & _). }
  assert (Hsure' : Forall (fun adv => laggard_wins_surely false adv = false)
                     (adversaries st)).
  { rewrite Hadvs. apply Forall_insert; [done|].
    rewrite Forall_forall in Hsure.
    pose proof (Hsure adv (list_elem_of_lookup_2 _ _ _ Hadv)) as Hs.
    destruct Hse as (Hh & _).
    unfold laggard_wins_surely in *. by rewrite Hh. }
  assert (Hne : adversaries st ≠ []).
  { intros E. rewrite Hadvs in E. apply (f_equal length) in E.
    rewrite length_insert in E. cbn in E. lia. }
  enough (∃ st',
            run_to_end cfg false tape st = Ok st'
            ∧ adversaries st' = adversaries st
            ∧ block_diff_2 (sim st') = (-1)%Z
            ∧ block_diff_6 (sim st') = 7%Z
            ∧ block_diff_6_winner (sim st') = Some 0%nat
            ∧ block_diff_6_winner_score (sim st') = Some "0"%string)
    as (st' & Hend); [by exists st, st'|].
  unfold run_to_end. cbv zeta. cbn [sim].
  change (cycles (start_simulation (sim st))) with (cycles (sim st)).
  rewrite Hcs.
  set (st0 := {| adversaries := adversaries st;
                 sim := start_simulation (sim st) |}).
  destruct (calc_distance_returns false 6 st0) as (d & st1 & Hcd);
    [done|unfold st0; cbn [adversaries]; lia|done|].
  pose proof (calc_distance_Ok _ _ _ _ _ Hcd) as (Hsame & _ & Hcase).
  destruct Hcase as [(? & _)|[_ Hd]]; [lia|].
  cbn [adversaries st0] in Hd, Hsame. rewrite Hdist in Hd. subst d.
  apply calc_distance_after in Hcd as Haft; [|lia].
  unfold milestones_after in Haft. cbn [Nat.eqb andb] in Haft.
  destruct Haft as (w & Hw & E6 & Ew & Es & E2 & _).
  cbn [adversaries st0] in Hw.
  rewrite milestone_winner_all_zero in Hw by done. injection Hw as <-.
  exists st1. cbn [run_loop]. rewrite Hcd.
  cbn [mbind result_bind].
  change (6 <? 6)%nat with false. cbv iota.
  split; [done|]. split; [done|].
  rewrite E2, E6, Ew, Es. by repeat split.
Qed.

Lemma rewind_of_six_ends_at_once_witness :
  ∃ st st',
    setup_block_rewind false 6 1
      {| adversaries := pow_advs; sim := create_simulation |} = Ok st
    ∧ run_to_end default_config false six_in_a_row st = Ok st'
    ∧ adversaries st' = adversaries st
    ∧ block_diff_2 (sim st') = (-1)%Z
    ∧ block_diff_6 (sim st') = 7%Z
    ∧ block_diff_6_winner (sim st') = Some 0%nat
    ∧ block_diff_6_winner_score (sim st') = Some "0"%string.
Proof.
  apply (rewind_of_six_ends_at_once default_config six_in_a_row 1
           pow_advs).
  - repeat constructor.
  - cbn. lia.
  - cbn. lia.
  - repeat constructor; unfold Qle; cbn; lia.
  - repeat constructor; intros H; discriminate H.
Defined.

Section Batch.

Lemma ret_bind {A B} (a : A) (k : A → result B) : Ok a ≫= k = k a.
Proof. reflexivity. Qed.

Lemma same_length_of_lookup {A B} (P : A → B → Prop) (l : list A)
    (l' : list B) :
  (∀ i, match l !! i with
        | Some x => ∃ y, l' !! i = Some y ∧ P x y
        | None => l' !! i = None
        end) →
  length l' = length l.
Proof.
  intros H. apply Nat.le_antisymm.
  - specialize (H (length l)). rewrite lookup_ge_None_2 in H by lia.
    by apply lookup_ge_None_1 in H.
  - destruct (decide (length l ≤ length l')%nat) as [|Hlt]; [done|].
    specialize (H (length l')).
    destruct (lookup_lt_is_Some_2 l (length l')) as [x Hx]; [lia|].
    rewrite Hx in H. destruct H as (y & Hy & _).
    apply lookup_lt_Some in Hy. lia.
Qed.

Lemma run_loop_length cfg pos_mode fuel tape ch st st' :
  run_loop cfg pos_mode fuel tape ch st = Ok st' →
  length (adversaries st') = length (adversaries st).
Proof.
  intros H. apply run_loop_invalidated in H as (consumed & rest & _ & H).
  eapply (same_length_of_lookup
            (fun adv adv' =>
               same_endowment adv adv'
               ∧ invalidated_blocks adv'
                 = (invalidated_blocks adv
                    + if pos_mode then failed_validations cfg consumed adv
                      else 0)%nat)).
  exact H.
Qed.

Lemma run_loop_winner cfg pos_mode fuel tape ch st st' :
  run_loop cfg pos_mode fuel tape ch st = Ok st' →
  ∃ w, block_diff_6_winner (sim st') = Some w
       ∧ (w < length (adversaries st'))%nat.
Proof.
  revert tape ch st. induction fuel as [|fuel IH]; intros tape ch st H;
    [done|].
  cbn [run_loop] in H.
  apply bind_Ok in H as ([d st1] & Hcd & H).
  pose proof (calc_distance_Ok _ _ _ _ _ Hcd) as (Hadv & Hd6 & Hcase).
  destruct (d <? 6)%nat eqn:Hlt.
  - apply bind_Ok in H as ([st2 tape'] & _ & H). by eapply IH.
  - apply Nat.ltb_ge in Hlt. injection H as <-.
    destruct Hcase as [(-> & -> & ->)|[Hch ->]]; [lia|].
    apply (calc_distance_after _ _ _ _ _ Hcd) in Hch as Haft.
    unfold milestones_after in Haft.
    assert (calculated_distance (adversaries st) = 6%nat) as Hsix by lia.
    rewrite Hsix in Haft. cbn [Nat.eqb andb] in Haft.
    destruct Haft as (w & Hw & _ & Ew & _).
    apply milestone_winner_Ok in Hw as (adv & Hi & _).
    exists w.1. split; [done|]. rewrite Hadv. by eapply lookup_lt_Some.
Qed.

Lemma run_simulation_ended cfg ar pos_mode tape st st' :
  run_simulation cfg ar pos_mode tape st = Ok st' →
  ended (length (adversaries st)) st'.
Proof.
  unfold run_simulation, run_to_end. intros H.
  apply bind_Ok in H as (st1 & Hrun & H). injection H as <-.
  pose proof (run_loop_length _ _ _ _ _ _ _ Hrun) as Hlen.
  apply run_loop_winner in Hrun as (w & Hw & Hlt).
  unfold ended. cbn [adversaries sim] in *.
  rewrite length_fmap, Hlen. split; [done|]. exists w. split; [done|]. lia.
Qed.

Lemma setup_block_rewind_length pos_mode r a st st' :
  setup_block_rewind pos_mode r a st = Ok st' →
  length (adversaries st') = length (adversaries st).
Proof.
  unfold setup_block_rewind. intros H.
  destruct (decide (a < length (adversaries st))%nat) as [Ha|Ha].
  - destruct (rewind_loop_spec pos_mode a (seq 0 r) st Ha)
      as (st2 & Hst2 & Hl & _).
    rewrite H in Hst2. by injection Hst2 as <-.
  - destruct r as [|r]; [by injection H as <-|].
    cbn in H. rewrite lookup_ge_None_2 in H by lia. done.
Qed.

Lemma run_batch_Ok cfg ar adv_pow adv_pos rewind_blocks rewind_adv runs sims :
  run_batch cfg ar adv_pow adv_pos rewind_blocks rewind_adv runs = Ok sims →
  length sims = length runs ∧ Forall (ended (length adv_pow)) sims.
Proof.
  revert sims. induction runs as [|r runs IH]; intros sims H.
  - injection H as <-. by split.
  - cbn [run_batch] in H.
    apply bind_Ok in H as (advs & Hcalc & H).
    apply bind_Ok in H as (st1 & Hst1 & H).
    apply bind_Ok in H as (st2 & Hrun & H).
    apply bind_Ok in H as (sts & Hrest & H). injection H as <-.
    apply IH in Hrest as [Hlen Hall]. cbn [length]. split; [by rewrite Hlen|].
    constructor; [|done].
    apply run_simulation_ended in Hrun.
    apply calc_hashpower_length in Hcalc.
    assert (length (adversaries st1) = length adv_pow) as <-; [|done].
    destruct (0 <? rewind_blocks)%nat.
    + apply setup_block_rewind_length in Hst1. by rewrite Hst1.
    + by injection Hst1 as <-.
Qed.

Lemma tally_returns n a sims w0 l0 :
  (a < n)%nat → Forall (ended n) sims →
  tally a sims w0 l0
  = Ok ((w0 + wins_of a sims)%nat, l0 ++ final_sums a sims).
Proof.
  intros Ha. revert w0 l0.
  induction sims as [|st sims IH]; intros w0 l0 Hall.
  - cbn. unfold wins_of. cbn. by rewrite Nat.add_0_r, app_nil_r.
  - apply Forall_cons in Hall as [[Hlen (w & Hw & Hwn)] Hall].
    cbn [tally]. unfold won_by, final_sum_blocks. rewrite Hw.
    destruct (lookup_lt_is_Some_2 (adversaries st) a) as [adv Hadv]; [lia|].
    rewrite Hadv. cbn [mbind result_bind]. rewrite IH by done.
    unfold wins_of, final_sums. cbn [omap list_omap].
    rewrite Hadv, filter_cons, Hw. cbn [fmap option_fmap option_map].
    rewrite <- app_assoc. cbn [app].
    destruct (decide (Some w = Some a)) as [E|E].
    + injection E as ->. rewrite bool_decide_eq_true_2 by done.
      cbn [length]. do 2 f_equal. lia.
    + rewrite bool_decide_eq_false_2 by congruence. done.
Qed.

Lemma summarise_returns n a sims :
  (a < n)%nat → Forall (ended n) sims → sims ≠ [] →
  ∃ s, summarise a sims = Ok s ∧ total_wins s = wins_of a sims.
Proof.
  intros Ha Hall Hne. unfold summarise.
  rewrite (tally_returns n) by done. cbn [mbind result_bind app].
  unfold statistics_mean.
  destruct (final_sums a sims) as [|x l] eqn:E.
  - exfalso. destruct sims as [|st sims]; [done|].
    apply Forall_cons in Hall as [[Hlen _] _].
    unfold final_sums in E. cbn [omap list_omap] in E.
    destruct (lookup_lt_is_Some_2 (adversaries st) a) as [adv Hadv]; [lia|].
    by rewrite Hadv in E.
  - destruct (_ =? 0)%Z; cbn [mbind result_bind];
      (eexists; split; [reflexivity|]; cbn [total_wins]; lia).
Qed.

Lemma summarise_all_returns n idxs sims :
  Forall (fun a => a < n)%nat idxs → Forall (ended n) sims → sims ≠ [] →
  ∃ l, summarise_all idxs sims = Ok l
       ∧ total_wins <$> l = (fun a => wins_of a sims) <$> idxs.
Proof.
  intros Hidx Hall Hne. induction idxs as [|a idxs IH].
  - by exists [].
  - apply Forall_cons in Hidx as [Ha Hidx].
    destruct (IH Hidx) as (l & Hl & Hw).
    destruct (summarise_returns n a sims Ha Hall Hne) as (s & Hs & Hsw).
    exists (s :: l). cbn [summarise_all]. rewrite Hs, Hl.
    split; [done|]. cbn. by rewrite Hsw, Hw.
Qed.

Lemma one_winner w n k :
  list_sum ((fun a => if decide (Some w = Some a) then 1 else 0)%nat
              <$> seq k n)
  = if decide (k ≤ w < k + n)%nat then 1%nat else 0%nat.
Proof.
  revert k. induction n as [|n IH]; intros k.
  - cbn. by rewrite decide_False by lia.
  - cbn [seq]. rewrite fmap_cons.
    change (list_sum (?x :: ?l)) with (x + list_sum l)%nat. rewrite IH.
    destruct (decide (Some w = Some k)) as [E|E].
    + injection E as ->. rewrite decide_False by lia.
      by rewrite decide_True by lia.
    + assert (w ≠ k) by congruence.
      destruct (decide (S k ≤ w < S k + n)%nat).
      * by rewrite decide_True by lia.
      * by rewrite decide_False by lia.
Qed.

Lemma wins_add_up n sims :
  Forall (ended n) sims →
  list_sum ((fun a => wins_of a sims) <$> seq 0 n) = length sims.
Proof.
  induction sims as [|st sims IH]; intros Hall.
  - unfold wins_of. cbn. induction (seq 0 n); [done|]. cbn. done.
  - apply Forall_cons in Hall as [[_ (w & Hw & Hwn)] Hall].
    specialize (IH Hall). cbn [length]. rewrite <- IH.
    pose proof (one_winner w n 0) as H1.
    rewrite decide_True in H1 by lia.
    rewrite <- (Nat.add_1_l (list_sum _)). rewrite <- H1.
    clear H1 IH. generalize (seq 0 n). intros idxs.
    induction idxs as [|a idxs IHi]; [done|].
    rewrite !fmap_cons.
    change (list_sum (?x :: ?l)) with (x + list_sum l)%nat. rewrite IHi.
    unfold wins_of at 1. rewrite filter_cons, Hw.
    destruct (decide (Some w = Some a)); cbn [length]; unfold wins_of; lia.
Qed.

End Batch.

(** X15. A batch that has run to its end can be summarised: if
    [run_batch_simulations] completes at least one run, [calc_averages]
    returns a summary for every adversary, raising neither [KeyError]
    nor [StatisticsError], and the numbers of wins it reports add up to
    the number of runs, every run having exactly one 6-block winner. *)
Theorem completed_batch_is_summarised cfg ar adv_pow adv_pos rewind_blocks
    rewind_adv runs sims :
  run_batch cfg ar adv_pow adv_pos rewind_blocks rewind_adv runs = Ok sims →
  runs ≠ [] →
  ∃ l,
    calc_averages sims = Ok l
    ∧ length l = length adv_pow
    ∧ list_sum (total_wins <$> l) = length runs.
Proof.
  intros H Hne. apply run_batch_Ok in H as [Hlen Hall].
  assert (Hsims : sims ≠ []).
  { intros ->. destruct runs; [done|]. cbn in Hlen. lia. }
  unfold calc_averages.
  destruct (last sims) as [st_last|] eqn:Hlast.
  - assert (length (adversaries st_last) = length adv_pow) as ->.
    { apply last_Some_elem_of in Hlast. rewrite Forall_forall in Hall.
      by destruct (Hall _ Hlast). }
    destruct (summarise_all_returns (length adv_pow)
                (seq 0 (length adv_pow)) sims) as (l & Hl & Hw);
      [|done|done|].
    { apply Forall_forall. intros a Ha. apply elem_of_seq in Ha. lia. }
    exists l. split; [done|]. split.
    + apply (f_equal length) in Hw. rewrite !length_fmap, length_seq in Hw.
      done.
    + rewrite Hw, wins_add_up by done. done.
  - apply last_None in Hlast. done.
Qed.

Lemma completed_batch_is_summarised_witness :
  ∃ sims l,
    run_batch default_config default_args [50 # 1; 50 # 1]%Q [] 0 0
      [one_run] = Ok sims
    ∧ calc_averages sims = Ok l
    ∧ length l = length [50 # 1; 50 # 1]%Q
    ∧ list_sum (total_wins <$> l) = length [one_run].
Proof.
  assert (O : after_run
                (run_simulation default_config default_args false
                   six_in_a_row pow_start)
              = Some (3%Z, Some 0%nat, Some "2"%string, 7%Z, Some 0%nat,
                      Some "6"%string, [6; 0]%nat))
    by (vm_compute; reflexivity).
  destruct (run_simulation default_config default_args false six_in_a_row
              pow_start) as [st'| |] eqn:E; try discriminate O.
  assert (B : run_batch default_config default_args [50 # 1; 50 # 1]%Q []
                0 0 [one_run] = Ok [st']).
  { cbn [run_batch one_run rnd_hashes rnd_tickets draws].
    rewrite pow_advs_endowed.
    rewrite ret_bind.
    change (0 <? 0)%nat with false. cbv iota.
    change (truthy (@nil Q)) with false.
    fold pow_start.
    rewrite ret_bind.
    rewrite E.
    rewrite ret_bind.
    exact eq_refl. }
  destruct (completed_batch_is_summarised default_config default_args
              [50 # 1; 50 # 1]%Q [] 0 0 [one_run] [st'] B) as (l & H);
    [discriminate|].
  exists [st'], l. split; [exact B|exact H].
Defined.

Section CatchUpExtremes.

Lemma attacker_success_probability_sum (q : R) (z : nat) :
  attacker_success_probability q z
  = (1 - sum_f_R0
           (fun k => poisson (INR z * (q / (1 - q))) k
                     * (1 - (q / (1 - q)) ^ (z - k))) z)%R.
Proof.
  unfold attacker_success_probability.
  replace (z + 1)%nat with (S z) by lia.
  by rewrite (fold_minus_sum
                (fun k => (poisson (INR z * (q / (1 - q))) k
                           * (1 - (q / (1 - q)) ^ (z - k)))%R)).
Qed.

Lemma poisson_zero k : poisson 0 (S k) = 0%R.
Proof.
  rewrite poisson_is_closed. unfold poisson_closed.
  rewrite pow_ne_zero by discriminate. unfold Rdiv. ring.
Qed.

End CatchUpExtremes.

(** X17. The two ends of [attacker_success_probability]: with half of the
    hash power, [q = 1/2], the value is 1 whatever the deficit [z]; with
    none, [q = 0], it is 0 for every deficit of at least one block. *)
Theorem attacker_success_probability_extremes (z : nat) :
  attacker_success_probability (1 / 2) z = 1%R
  /\ ((1 <= z)%nat -> attacker_success_probability 0 z = 0%R).
Proof.
  split.
  - rewrite attacker_success_probability_sum.
    rewrite sum_eq_R0; [ring|]. intros k _.
    replace (1 / 2 / (1 - 1 / 2))%R with 1%R by field.
    rewrite pow1. ring.
  - intros Hz. rewrite attacker_success_probability_sum.
    replace (0 / (1 - 0))%R with 0%R by field.
    rewrite Rmult_0_r.
    rewrite decomp_sum by lia.
    rewrite sum_eq_R0.
    + unfold poisson. cbn [seq fold_left]. rewrite Ropp_0, exp_0.
      rewrite Nat.sub_0_r, pow_ne_zero by lia. ring.
    + intros k _. rewrite poisson_zero. ring.
Qed.

Lemma attacker_success_probability_extremes_witness :
  attacker_success_probability (1 / 2) 3 = 1%R
  /\ attacker_success_probability 0 3 = 0%R.
Proof.
  destruct (attacker_success_probability_extremes 3) as [H1 H2].
  split; [exact H1|]. apply H2. lia.
Defined.

Section Histories.

Lemma run_loop_rounds cfg pos_mode (P : adversary → adversary → Prop) :
  (∀ used d adv0 adv adv',
     P adv0 adv → round_effect cfg pos_mode used d adv adv' →
     P adv0 (adv_set_sum_blocks adv' (length (drawn_block_hashes adv')))) →
  ∀ fuel tape ch st st',
    run_loop cfg pos_mode fuel tape ch st = Ok st' →
    ∀ i adv0 adv,
      adversaries st !! i = Some adv → P adv0 adv →
      ∃ adv', adversaries st' !! i = Some adv' ∧ P adv0 adv'.
Proof.
  intros Hstep fuel. induction fuel as [|fuel IH];
    intros tape ch st st' H i adv0 adv Hi HP; [done|].
  cbn [run_loop] in H.
  apply bind_Ok in H as ([d st1] & Hcd & H).
  apply calc_distance_Ok in Hcd as (Hadv & _ & _).
  destruct (d <? 6)%nat.
  - apply bind_Ok in H as ([st2 tape'] & Hmb & H).
    apply mine_block_effect in Hmb as (used & d1 & _ & _ & _ & Heff).
    specialize (Heff i). rewrite Hadv, Hi in Heff.
    destruct Heff as (adv2 & Hi2 & Hre).
    eapply (IH _ _ _ _ H i adv0).
    + cbn [update_sum_blocks adversaries].
      by rewrite list_lookup_fmap, Hi2.
    + by eapply Hstep.
  - injection H as <-. exists adv. by rewrite Hadv.
Qed.

Lemma powerless_never_accepted cfg pos_mode d adv :
  powerless pos_mode adv → accepted_winner cfg pos_mode d adv = false.
Proof.
  unfold accepted_winner, wins_pow. intros [Hh | [Hpos Ht] ]; [|subst pos_mode].
  - rewrite Hh. by rewrite bool_decide_eq_false_2 by apply not_elem_of_nil.
  - apply andb_false_iff. right. unfold confirms.
    destruct (draw_committee cfg d) as [[k drawn]| |] eqn:E; try done.
    apply draw_committee_Ok in E as (Hk & _).
    unfold has_majority, owned_in. rewrite Ht.
    assert (filter (fun t => t ∈ @nil Z) drawn = []) as ->.
    { induction drawn as [|t drawn IHd]; [done|].
      rewrite filter_cons. by rewrite decide_False by apply not_elem_of_nil. }
    cbn [length]. apply Z.ltb_ge.
    destruct Hk as [-> | [-> | ->] ]; done.
Qed.

End Histories.

(** X18. An adversary that owns no hash or, in stake mode, no ticket is
    never given a block: at the end of a run its chain, its list of drawn
    blocks and [validated_blocks] are what they were at the start. *)
Theorem powerless_adversary_mines_nothing cfg pos_mode tape st st' i adv :
  run_to_end cfg pos_mode tape st = Ok st' →
  adversaries st !! i = Some adv →
  powerless pos_mode adv →
  ∃ adv',
    adversaries st' !! i = Some adv'
    ∧ chain adv' = chain adv
    ∧ drawn_block_hashes adv' = drawn_block_hashes adv
    ∧ validated_blocks adv' = validated_blocks adv.
Proof.
  intros H Hi Hp. unfold run_to_end in H.
  destruct (run_loop_rounds cfg pos_mode
              (fun adv0 adv1 =>
                 powerless pos_mode adv1
                 ∧ chain adv1 = chain adv0
                 ∧ drawn_block_hashes adv1 = drawn_block_hashes adv0
                 ∧ validated_blocks adv1 = validated_blocks adv0))
    with (fuel := S (length tape)) (tape := tape)
         (ch := size (cycles (start_simulation (sim st))))
         (st := {| adversaries := adversaries st;
                   sim := start_simulation (sim st) |})
         (st' := st') (i := i) (adv0 := adv) (adv := adv)
    as (adv' & Hi' & _ & Hc & Hd & Hv); try done.
  - intros used d adv0 adv1 adv2 (Hp1 & Hc & Hd & Hv) (Hse & _ & Heff).
    rewrite (powerless_never_accepted _ _ _ _ Hp1) in Heff.
    destruct Heff as (Hd' & Hc' & Hv' & _).
    cbn [adv_set_sum_blocks chain drawn_block_hashes validated_blocks].
    split.
    { destruct Hse as (_ & Hh & _ & Ht). unfold powerless in *.
      cbn [adv_set_sum_blocks prob_block_hashes prob_tickets].
      by rewrite Hh, Ht. }
    by rewrite Hc', Hd', Hv'.
  - by exists adv'.
Qed.

Lemma powerless_adversary_mines_nothing_witness :
  ∃ st' adv adv',
    run_to_end cfg_small_pool true unstaked_tape unstaked_start = Ok st'
    ∧ adversaries unstaked_start !! 1%nat = Some adv
    ∧ adversaries st' !! 1%nat = Some adv'
    ∧ chain adv' = chain adv
    ∧ drawn_block_hashes adv' = drawn_block_hashes adv
    ∧ validated_blocks adv' = validated_blocks adv.
Proof.
  assert (O : after_run
                (run_to_end cfg_small_pool true unstaked_tape
                   unstaked_start)
              = Some (3%Z, Some 0%nat, Some "2"%string, 7%Z, Some 0%nat,
                      Some "6"%string, [6; 0]%nat))
    by (vm_compute; reflexivity).
  destruct (run_to_end cfg_small_pool true unstaked_tape unstaked_start)
    as [st'| |] eqn:E; try discriminate O.
  destruct (powerless_adversary_mines_nothing cfg_small_pool true
              unstaked_tape unstaked_start st' 1
              (adv_set_stake (new_adversary (50 # 1) (py_range 5000 10000))
                 (0 # 1) []) E)
    as (adv' & H); [reflexivity|right; by split|].
  eexists st', _, adv'. split; [reflexivity|]. split; [reflexivity|].
  exact H.
Defined.

Section AppendOnly.

Lemma round_effect_extended cfg pos_mode used d adv adv' :
  chain_ok adv → round_effect cfg pos_mode used d adv adv' →
  chain_ok adv' ∧ extended adv adv'.
Proof.
  intros Hok (_ & Hinv & Heff). unfold extended.
  destruct (accepted_winner cfg pos_mode d adv).
  - destruct (grown_chain _ _ _ _ Hok Heff) as (_ & Hsub & Hok').
    destruct Heff as (Hd & _ & Hv & _).
    split; [done|]. split; [done|]. split.
    { rewrite Hd. by apply prefix_app_r. }
    split; lia.
  - pose proof (kept_chain_ok _ _ Hok Heff) as Hok'.
    destruct Heff as (Hd & Hc & Hv & _).
    split; [done|]. rewrite Hd, Hc, Hv. split; [done|]. split; [done|].
    split; lia.
Qed.

End AppendOnly.

(** X19. A run only extends the history of an adversary: every block of
    its chain at the start is in its chain at the end under the same key,
    the drawn blocks of the start are a prefix of those of the end, and
    [validated_blocks] and [invalidated_blocks] do not decrease. *)
Theorem run_only_extends_histories cfg pos_mode tape st st' i adv :
  run_to_end cfg pos_mode tape st = Ok st' →
  adversaries st !! i = Some adv →
  chain_ok adv →
  ∃ adv', adversaries st' !! i = Some adv' ∧ extended adv adv'.
Proof.
  intros H Hi Hok. unfold run_to_end in H.
  destruct (run_loop_rounds cfg pos_mode
              (fun adv0 adv1 => chain_ok adv1 ∧ extended adv0 adv1))
    with (fuel := S (length tape)) (tape := tape)
         (ch := size (cycles (start_simulation (sim st))))
         (st := {| adversaries := adversaries st;
                   sim := start_simulation (sim st) |})
         (st' := st') (i := i) (adv0 := adv) (adv := adv)
    as (adv' & Hi' & _ & Hext); try done.
  - intros used d adv0 adv1 adv2 (Hok1 & Hc & Hd & Hv & Hn) Hre.
    destruct (round_effect_extended _ _ _ _ _ _ Hok1 Hre)
      as (Hok2 & Hc2 & Hd2 & Hv2 & Hn2).
    split; [done|]. unfold extended.
    cbn [adv_set_sum_blocks chain drawn_block_hashes validated_blocks
         invalidated_blocks].
    split; [by etransitivity|]. split; [by etransitivity|]. split; lia.
  - by exists adv'.
Qed.

Lemma run_only_extends_histories_witness :
  ∃ st' adv adv',
    run_to_end cfg_small_pool true unstaked_tape unstaked_start = Ok st'
    ∧ adversaries unstaked_start !! 0%nat = Some adv
    ∧ adversaries st' !! 0%nat = Some adv'
    ∧ extended adv adv'.
Proof.
  assert (O : after_run
                (run_to_end cfg_small_pool true unstaked_tape
                   unstaked_start)
              = Some (3%Z, Some 0%nat, Some "2"%string, 7%Z, Some 0%nat,
                      Some "6"%string, [6; 0]%nat))
    by (vm_compute; reflexivity).
  destruct (run_to_end cfg_small_pool true unstaked_tape unstaked_start)
    as [st'| |] eqn:E; try discriminate O.
  destruct (run_only_extends_histories cfg_small_pool true
              unstaked_tape unstaked_start st' 0
              (adv_set_stake (new_adversary (50 # 1) (py_range 0 5000))
                 (100 # 1) [0; 1; 2; 3; 4; 5; 6; 7; 8; 9]%Z) E)
    as (adv' & H); [reflexivity| |].
  { intros key Hs. cbn in Hs. rewrite lookup_empty in Hs. by destruct Hs. }
  eexists st', _, adv'. split; [reflexivity|]. split; [reflexivity|].
  exact H.
Defined.

Section NoFailure.

Lemma mine_block_keeps cfg pos_mode ch tape st st' rest :
  mine_block cfg pos_mode ch tape st = Ok (st', rest) →
  length (adversaries st') = length (adversaries st)
  ∧ (never_sure pos_mode (adversaries st) →
     never_sure pos_mode (adversaries st')).
Proof.
  intros H. apply mine_block_effect in H as (used & d & _ & _ & _ & Heff).
  split.
  - by eapply (same_length_of_lookup (round_effect cfg pos_mode used d)).
  - unfold never_sure. intros Hns. apply Forall_lookup. intros i adv' Hi'.
    specialize (Heff i).
    destruct (adversaries st !! i) as [adv|] eqn:Hi; [|congruence].
    destruct Heff as (adv2 & Hi2 & (Hh & _ & Hk & _) & _).
    assert (adv2 = adv') as -> by congruence.
    pose proof (Forall_lookup_1 _ _ _ _ Hns Hi) as Hs.
    unfold laggard_wins_surely in *. by rewrite Hh, Hk.
Qed.

Lemma run_loop_no_raise cfg pos_mode fuel tape ch st e :
  (0 < block_hash_space cfg)%Z →
  (pos_mode = true → (6 ≤ pos_avg_ticket_pool_size cfg)%Z) →
  adversaries st ≠ [] →
  never_sure pos_mode (adversaries st) →
  (calculated_distance (adversaries st) ≤ 5)%nat
  ∨ (1 ≤ ch)%nat ∧ (calculated_distance (adversaries st) ≤ 6)%nat →
  run_loop cfg pos_mode fuel tape ch st ≠ Raise e.
Proof.
  intros HH HT. revert tape ch st.
  induction fuel as [|fuel IH]; intros tape ch st Hne Hns Hinv; [done|].
  cbn [run_loop]. intros H.
  apply bind_Raise in H as [H|([d st1] & Hd & H)].
  - apply calc_distance_Raise in H
      as (Hch & [[_ ?]|[[_ ?]|(_ & _ & l & adv & Hi & _ & Hs)]]);
      [done|lia|].
    pose proof (Forall_lookup_1 _ _ _ _ Hns Hi) as Hs'. cbn in Hs'.
    congruence.
  - apply calc_distance_Ok in Hd as (Hadv & _ & Hcase).
    destruct (d <? 6)%nat eqn:Hlt; [|done]. apply Nat.ltb_lt in Hlt.
    apply bind_Raise in H as [H|([st2 tape'] & Hm & H)].
    + apply mine_block_Raise in H as [[_ ?]|(_ & Hp & ?)]; [lia|].
      specialize (HT Hp). lia.
    + pose proof (mine_block_keeps _ _ _ _ _ _ _ Hm) as [Hlen Hns2].
      rewrite Hadv in Hlen, Hns2.
      apply IH in H; [done| | |].
      * cbn [update_sum_blocks adversaries]. intros E.
        apply fmap_nil_inv in E. rewrite E in Hlen. cbn in Hlen.
        destruct (adversaries st); [done|]. cbn in Hlen. lia.
      * cbn [update_sum_blocks adversaries]. unfold never_sure.
        apply Forall_fmap. eapply Forall_impl; [by apply Hns2|].
        by intros adv Hs.
      * right. split; [lia|].
        unfold calculated_distance. rewrite heights_update_sum_blocks.
        apply mine_block_distance in Hm. unfold calculated_distance in *.
        rewrite Hadv in Hm. destruct Hcase as [(-> & _ & _)|[? ->]]; lia.
Qed.

End NoFailure.

(** X20. In pure PoW mode, with a positive hash space, at least one
    adversary, shares between 0 and 100 and no adversary with a hashpower
    of 100, a run that starts within distance 5, or after a rewind within
    distance 6, raises no exception and calls no [exit]: it ends, or it
    goes on drawing. *)
Theorem run_simulation_never_fails cfg ar tape st e :
  (0 < block_hash_space cfg)%Z →
  adversaries st ≠ [] →
  Forall shares_in_range (adversaries st) →
  Forall (fun adv => ¬ has_all_hashpower adv) (adversaries st) →
  (calculated_distance (adversaries st) ≤ 5)%nat
  ∨ (1 ≤ size (cycles (sim st)))%nat
    ∧ (calculated_distance (adversaries st) ≤ 6)%nat →
  run_simulation cfg ar false tape st ≠ Raise e.
Proof.
  intros HH Hne _ Hfull Hdist H. unfold run_simulation in H.
  apply bind_Raise in H as [H|(st1 & _ & H)]; [|done].
  unfold run_to_end in H. apply run_loop_no_raise in H; try done.
  by apply never_sure_pow.
Qed.

Lemma run_simulation_never_fails_witness :
  run_simulation default_config default_args false six_in_a_row pow_start
  ≠ Raise ValueError.
Proof.
  apply (run_simulation_never_fails default_config default_args
           six_in_a_row pow_start ValueError).
  - reflexivity.
  - discriminate.
  - repeat constructor; unfold Qle; cbn; lia.
  - repeat constructor; intros H; discriminate H.
  - left. vm_compute. lia.
Defined.

Section Winners.

Lemma str_gt_digit a b :
  (a < 10)%nat → (b < 10)%nat →
  str_gt (py_str a) (py_str b) = (b <? a)%nat.
Proof.
  intros Ha Hb.
  do 10 (destruct a as [|a]; [do 10 (destruct b as [|b]; [reflexivity|]); lia|]).
  lia.
Qed.

Lemma max_by_value_below_ten advs :
  Forall (fun adv => sum_blocks adv < 10)%nat advs →
  ∀ k kb nb,
    (nb < 10)%nat →
    let r := max_by_value (kb, py_str nb)
               (imap (fun i a => ((k + i)%nat, py_str (sum_blocks a))) advs)
    in
    r = (kb, py_str nb)
    ∧ (∀ j adv', advs !! j = Some adv' → (sum_blocks adv' ≤ nb)%nat)
    ∨ ∃ j adv,
        advs !! j = Some adv
        ∧ r = ((k + j)%nat, py_str (sum_blocks adv))
        ∧ (nb < sum_blocks adv)%nat
        ∧ ∀ j' adv', advs !! j' = Some adv' →
                     (sum_blocks adv' ≤ sum_blocks adv)%nat
                     ∧ (sum_blocks adv' = sum_blocks adv → (j ≤ j')%nat).
Proof.
  induction advs as [|a advs IH]; intros Hall k kb nb Hnb; cbv zeta.
  - left. split; [done|]. intros j adv' Hj. by rewrite lookup_nil in Hj.
  - apply Forall_cons in Hall as [Ha Hall].
    rewrite imap_cons. cbn [max_by_value snd].
    rewrite str_gt_digit by done.
    rewrite (imap_ext _ (fun i a0 => ((S k + i)%nat, py_str (sum_blocks a0))))
      by (intros i x _; cbn; f_equal; lia).
    replace (k + 0)%nat with k by lia.
    destruct (nb <? sum_blocks a)%nat eqn:E.
    + apply Nat.ltb_lt in E. right.
      destruct (IH Hall (S k) k (sum_blocks a) Ha)
        as [[-> Hle]|(j & adv & Hj & -> & Hlt & Hbest)].
      * exists 0%nat, a. split; [done|]. split; [f_equal; lia|].
        split; [done|]. intros [|j'] adv' Hj'.
        -- injection Hj' as <-. split; lia.
        -- cbn in Hj'. split; [by eapply Hle|lia].
      * exists (S j), adv. split; [done|]. split; [f_equal; lia|].
        split; [lia|]. intros [|j'] adv' Hj'.
        -- injection Hj' as <-. split; lia.
        -- cbn in Hj'. destruct (Hbest j' adv' Hj') as [? ?].
           split; [done|]. lia.
    + apply Nat.ltb_ge in E.
      destruct (IH Hall (S k) kb nb Hnb)
        as [[-> Hle]|(j & adv & Hj & -> & Hlt & Hbest)].
      * left. split; [done|]. intros [|j'] adv' Hj'.
        -- by injection Hj' as <-.
        -- cbn in Hj'. by eapply Hle.
      * right. exists (S j), adv. split; [done|]. split; [f_equal; lia|].
        split; [done|]. intros [|j'] adv' Hj'.
        -- injection Hj' as <-. split; lia.
        -- cbn in Hj'. destruct (Hbest j' adv' Hj') as [? ?].
           split; [done|]. lia.
Qed.

End Winners.

(** X21. As long as every adversary has fewer than ten blocks, the
    comparison of the scores as strings is the comparison of the numbers:
    the adversary a milestone records is one with the highest
    [sum_blocks], the first of them, and the score is its [sum_blocks]. *)
Theorem milestone_winner_below_ten advs w :
  Forall (fun adv => sum_blocks adv < 10)%nat advs →
  milestone_winner advs = Ok w →
  first_of_the_best advs w.
Proof.
  intros Hall H. unfold milestone_winner, winner_list in H.
  destruct advs as [|a advs]; [done|].
  rewrite imap_cons in H. injection H as <-.
  apply Forall_cons in Hall as [Ha Hall].
  rewrite (imap_ext _ (fun i a0 => ((1 + i)%nat, py_str (sum_blocks a0))))
    by done.
  destruct (max_by_value_below_ten advs Hall 1 0 (sum_blocks a) Ha)
    as [[-> Hle]|(j & adv & Hj & -> & Hlt & Hbest)].
  - exists a. split; [done|]. split; [done|]. intros [|j'] adv' Hj'.
    + injection Hj' as <-. split; [lia|]. cbn. lia.
    + cbn in Hj'. split; [by eapply Hle|]. cbn. lia.
  - exists adv. split; [done|]. split; [done|]. intros [|j'] adv' Hj'.
    + injection Hj' as <-. split; lia.
    + cbn in Hj'. destruct (Hbest j' adv' Hj') as [? ?].
      split; [done|]. cbn. lia.
Qed.

Lemma milestone_winner_below_ten_witness :
  first_of_the_best [with_blocks 7; with_blocks 9; with_blocks 9]
    (1%nat, "9"%string).
Proof.
  apply (milestone_winner_below_ten
           [with_blocks 7; with_blocks 9; with_blocks 9]
           (1%nat, "9"%string)).
  - repeat constructor.
  - reflexivity.
Defined.

Section Rounding.

Lemma py_round_near (x : Q) :
  (x - (1 # 2) <= inject_Z (py_round x) <= x + (1 # 2))%Q.
Proof.
  unfold py_round.
  pose proof (Qfloor_le x) as Hlo. pose proof (Qlt_floor x) as Hhi.
  assert (Hinj : (inject_Z (Qfloor x + 1) == inject_Z (Qfloor x) + 1)%Q).
  { rewrite inject_Z_plus. reflexivity. }
  rewrite Hinj in Hhi.
  destruct (Qcompare_spec (x - inject_Z (Qfloor x)) (1 # 2)) as [E|E|E];
    [destruct (Z.even (Qfloor x))| |]; rewrite ?Hinj; Lqa.lra.
Qed.

Lemma py_round_nonneg (x : Q) : (0 <= x)%Q → (0 ≤ py_round x)%Z.
Proof.
  intros Hx. apply Qfloor_resp_le in Hx. change (Qfloor 0) with 0%Z in Hx.
  unfold py_round.
  destruct (Qcompare _ _); [destruct (Z.even _)| |]; lia.
Qed.

Lemma py_round_to_near (n : nat) (x : Q) :
  let half_unit := ((1 # 2) / inject_Z (10 ^ Z.of_nat n))%Q in
  (x - half_unit <= py_round_to n x <= x + half_unit)%Q.
Proof.
  cbv zeta. unfold py_round_to.
  set (scale := inject_Z (10 ^ Z.of_nat n)).
  assert (Hpos : (0 < scale)%Q).
  { unfold scale. change 0%Q with (inject_Z 0). rewrite <- Zlt_Qlt.
    apply Z.pow_pos_nonneg; lia. }
  assert (Hne : ¬ (scale == 0)%Q).
  { intros E. rewrite E in Hpos. by apply Qlt_irrefl in Hpos. }
  destruct (py_round_near (x * scale)) as [Hlo Hhi]. split.
  - apply Qle_shift_div_l; [done|].
    assert (E : ((x - (1 # 2) / scale) * scale == x * scale - (1 # 2))%Q)
      by (field; done).
    by rewrite E.
  - apply Qle_shift_div_r; [done|].
    assert (E : ((x + (1 # 2) / scale) * scale == x * scale + (1 # 2))%Q)
      by (field; done).
    by rewrite E.
Qed.

Lemma binade_le (a : Q) :
  (binade a ≤ Z.log2 (Qnum a) - Z.log2 (Zpos (Qden a)))%Z.
Proof. unfold binade. destruct (Qle_bool _ _); lia. Qed.

(** The float nearest to a number below [2 ^ (K + 1)] is within
    [2 ^ (K - 53)] of it. *)
Lemma py_float_near (x : Q) (K : Z) :
  (0 <= x)%Q →
  (Z.log2 (Qnum x) - Z.log2 (Zpos (Qden x)) ≤ K)%Z →
  (-1022 ≤ K)%Z →
  (0 <= py_float x)%Q
  ∧ (x - Qpower 2 (K - 53) <= py_float x <= x + Qpower 2 (K - 53))%Q.
Proof.
  intros Hx HK Hmin.
  assert (He : (0 < Qpower 2 (K - 53))%Q) by (by apply Qpower_0_lt).
  unfold py_float. destruct (Qeq_bool x 0) eqn:E0.
  { apply Qeq_bool_iff in E0. split; [done|]. rewrite E0. Lqa.lra. }
  assert (Qabs x = x) as ->.
  { destruct x as [n d]. unfold Qle in Hx. cbn in Hx.
    cbn [Qabs]. rewrite Z.abs_eq by lia. done. }
  replace (Qle_bool 0 x) with true
    by (symmetry; by apply Qle_bool_iff).
  set (q := Z.max (binade x - 52) (-1074)).
  assert (Hq : (q ≤ K - 52)%Z).
  { pose proof (binade_le x). unfold q. lia. }
  set (p2 := Qpower 2 q).
  assert (Hp2 : (0 < p2)%Q) by (by apply Qpower_0_lt).
  assert (Hne : ¬ (p2 == 0)%Q).
  { intros E. rewrite E in Hp2. by apply Qlt_irrefl in Hp2. }
  assert (Hle : (p2 <= 2 * Qpower 2 (K - 53))%Q).
  { assert (E : (2 * Qpower 2 (K - 53) == Qpower 2 (K - 52))%Q).
    { replace (K - 52)%Z with (1 + (K - 53))%Z by lia.
      rewrite Qpower_plus by done. reflexivity. }
    rewrite E. unfold p2. apply Qpower_le_compat_l; [done|Lqa.lra]. }
  rewrite Qred_correct.
  set (m := py_round (x / p2)).
  destruct (py_round_near (x / p2)) as [Hlo Hhi]. fold m in Hlo, Hhi.
  assert (Hm : (0 ≤ m)%Z).
  { apply py_round_nonneg. apply Qle_shift_div_l; [done|]. Lqa.lra. }
  assert (Hlo' : (x - p2 * (1 # 2) <= inject_Z m * p2)%Q).
  { assert (E : (x - p2 * (1 # 2) == (x / p2 - (1 # 2)) * p2)%Q)
      by (field; done).
    rewrite E. apply Qmult_le_compat_r; [done|by apply Qlt_le_weak]. }
  assert (Hhi' : (inject_Z m * p2 <= x + p2 * (1 # 2))%Q).
  { assert (E : (x + p2 * (1 # 2) == (x / p2 + (1 # 2)) * p2)%Q)
      by (field; done).
    rewrite E. apply Qmult_le_compat_r; [done|by apply Qlt_le_weak]. }
  split.
  - apply Qmult_le_0_compat; [|by apply Qlt_le_weak].
    change 0%Q with (inject_Z 0). by rewrite <- Zle_Qle.
  - split; Lqa.lra.
Qed.

End Rounding.

Section MeanError.

Lemma final_sums_nonneg a sims :
  (0 ≤ foldr Z.add 0 (final_sums a sims))%Z.
Proof.
  unfold final_sums. induction sims as [|st sims IH]; [done|].
  cbn [omap list_omap]. destruct (adversaries st !! a) as [adv|]; [|done].
  cbn. lia.
Qed.

Lemma stored_mean_near (l : list Z) :
  l ≠ [] →
  (0 ≤ foldr Z.add 0 l ≤ 2 ^ 30)%Z →
  (exact_mean l - (1 # 1000000) <= stored_mean l
   <= exact_mean l + (1 # 1000000))%Q.
Proof.
  intros Hne [H0 Hmax]. unfold stored_mean.
  set (total := foldr Z.add 0%Z l) in *.
  destruct (Z.of_nat (length l)) as [|p|p] eqn:En;
    [destruct l; [done|discriminate En]| |lia].
  assert (Hmean : (exact_mean l == inject_Z total / inject_Z (Z.pos p))%Q).
  { unfold exact_mean. fold total. rewrite En. reflexivity. }
  destruct (total mod Z.pos p =? 0)%Z eqn:Ediv.
  - apply Z.eqb_eq in Ediv. rewrite Hmean.
    assert (E : (inject_Z total / inject_Z (Z.pos p)
                 == inject_Z (total / Z.pos p))%Q).
    { rewrite (Z.div_mod total (Z.pos p)) at 1 by lia.
      rewrite Ediv, Z.add_0_r, inject_Z_mult. field.
      intros E. discriminate E. }
    rewrite E. split; Lqa.lra.
  - assert (Hx0 : (0 <= exact_mean l)%Q).
    { rewrite Hmean. apply Qle_shift_div_l; [reflexivity|].
      rewrite Qmult_0_l. change 0%Q with (inject_Z 0). by rewrite <- Zle_Qle. }
    assert (Hxmax : (exact_mean l <= inject_Z (2 ^ 30))%Q).
    { rewrite Hmean. apply Qle_shift_div_r; [reflexivity|].
      rewrite <- inject_Z_mult, <- Zle_Qle. nia. }
    destruct (py_float_near (exact_mean l) 30) as (Hf0 & Hflo & Hfhi);
      [done| |lia|].
    { unfold exact_mean. fold total. rewrite En.
      cbn [Qdiv Qinv Qnum Qden Qmult inject_Z]. rewrite Z.mul_1_r.
      pose proof (Z.log2_nonneg (Z.pos (1 * p))).
      assert (Z.log2 total ≤ Z.log2 (2 ^ 30))%Z by (by apply Z.log2_le_mono).
      change (Z.log2 (2 ^ 30)) with 30%Z in *. lia. }
    set (f := py_float (exact_mean l)) in *.
    change (Qpower 2 (30 - 53)) with (1 # 8388608)%Q in Hflo, Hfhi.
    destruct (py_round_to_near 6 f) as [Hrlo Hrhi].
    change ((1 # 2) / inject_Z (10 ^ Z.of_nat 6))%Q
      with (1 # 2000000)%Q in Hrlo, Hrhi.
    set (z := py_round (f * inject_Z (10 ^ Z.of_nat 6))).
    assert (Hz : (0 ≤ z < 2 ^ 50)%Z).
    { destruct (py_round_near (f * inject_Z (10 ^ Z.of_nat 6)))
        as [Hzlo Hzhi]. fold z in Hzlo, Hzhi.
      change (inject_Z (10 ^ Z.of_nat 6)) with (1000000 # 1)%Q in *.
      change (inject_Z (2 ^ 30)) with (1073741824 # 1)%Q in Hxmax.
      split.
      - apply py_round_nonneg. Lqa.lra.
      - rewrite Zlt_Qlt. change (inject_Z (2 ^ 50))
          with (1125899906842624 # 1)%Q. Lqa.lra. }
    destruct (py_float_near (py_round_to 6 f) 30) as (_ & Hglo & Hghi);
      [| |lia|].
    { change (py_round_to 6 f) with (inject_Z z / (1000000 # 1))%Q.
      apply Qle_shift_div_l; [reflexivity|]. rewrite Qmult_0_l.
      change 0%Q with (inject_Z 0). rewrite <- Zle_Qle. lia. }
    { change (py_round_to 6 f) with (inject_Z z / (1000000 # 1))%Q.
      cbn [Qdiv Qinv Qnum Qden Qmult inject_Z]. rewrite Z.mul_1_r.
      change (Z.log2 (Z.pos (1 * 1000000))) with 19%Z.
      destruct (decide (z = 0%Z)) as [->|Hz0]; [done|].
      assert (Z.log2 z < 50)%Z by (apply Z.log2_lt_pow2; lia). lia. }
    change (Qpower 2 (30 - 53)) with (1 # 8388608)%Q in Hglo, Hghi.
    split; Lqa.lra.
Qed.

End MeanError.

(** X16. As long as the blocks an adversary ends with add up to at most
    [2 ^ 30] over the simulations, the mean [calc_averages] reports for
    it, a float, lies within one unit of the sixth decimal place of the
    exact mean. *)
Theorem reported_mean_is_near sims l a s :
  calc_averages sims = Ok l →
  l !! a = Some s →
  (foldr Z.add 0 (final_sums a sims) ≤ 2 ^ 30)%Z →
  (exact_mean (final_sums a sims) - (1 # 1000000)
   <= sum_blocks_average s
   <= exact_mean (final_sums a sims) + (1 # 1000000))%Q.
Proof.
  unfold calc_averages. destruct (last sims) as [st_last|] eqn:Hlast; [|done].
  intros H Ha Hmax.
  destruct (summarise_all_lookup _ _ _ _ _ H Ha) as (a' & Hidx & Hs).
  apply lookup_seq in Hidx as [-> _]. cbn [Nat.add] in Hs.
  apply summarise_Ok in Hs as (_ & Hlen & ->).
  apply stored_mean_near.
  - intros E. rewrite E in Hlen. destruct sims; [done|]. discriminate Hlen.
  - split; [apply final_sums_nonneg|done].
Qed.

Lemma reported_mean_is_near_witness :
  ∃ l s,
    calc_averages three_runs = Ok l
    ∧ l !! 1%nat = Some s
    ∧ (exact_mean (final_sums 1 three_runs) - (1 # 1000000)
       <= sum_blocks_average s
       <= exact_mean (final_sums 1 three_runs) + (1 # 1000000))%Q.
Proof.
  assert (O : summaries (calc_averages three_runs) = 2%nat)
    by (vm_compute; reflexivity).
  assert (F : final_sums 1 three_runs = [0; 0; 1]%Z)
    by (vm_compute; reflexivity).
  destruct (calc_averages three_runs) as [l| |] eqn:E; try discriminate O.
  destruct l as [|s0 [|s1 l]]; try discriminate O.
  exists (s0 :: s1 :: l), s1. split; [reflexivity|]. split; [reflexivity|].
  apply (reported_mean_is_near three_runs (s0 :: s1 :: l) 1%nat s1);
    [exact E|reflexivity|].
  rewrite F. cbn. lia.
Defined.
